(** * ucow: the 8080 code generator of the Cowgol compiler (src/codegen.py)

    A shallow embedding of [CodeGenerator] and the properties of its output
    that the specification states.  The generator is one long-lived object
    with mutable fields; here it is a record [GenState] threaded through a
    state-and-exception monad.  Expressions are lowered by structural
    recursion; statements and subroutines (which re-enter each other through
    the queue of nested subroutines) by recursion on a fuel counter. *)

From Stdlib Require Import ZArith List String Ascii Bool Lia Arith.
From Stdlib Require Import Decimal DecimalString DecimalZ.
Import ListNotations.

Set Warnings "-register-all".
Local Open Scope Z_scope.
Local Open Scope list_scope.

Infix "+++" := String.append (at level 60, right associativity).

(** ** Python string helpers *)

Definition TAB : string := String (ascii_of_nat 9) EmptyString.

(** [str(n)] on a Python int. *)
Definition str_int (z : Z) : string := NilZero.string_of_int (Z.to_int z).

(** An instruction line without operand, ["\tOP"], and with one,
    ["\tOP\targ"]. *)
Definition ins0 (op : string) : string := TAB +++ op.
Definition ins (op arg : string) : string := TAB +++ op +++ TAB +++ arg.

Definition is_lower (c : ascii) : bool :=
  let n := nat_of_ascii c in (Nat.leb 97 n && Nat.leb n 122)%bool.

Definition upper_ascii (c : ascii) : ascii :=
  if is_lower c then ascii_of_nat (nat_of_ascii c - 32) else c.

(** [s.upper()] *)
Fixpoint upper (s : string) : string :=
  match s with
  | EmptyString => EmptyString
  | String c r => String (upper_ascii c) (upper r)
  end.

(** [c.isspace()] on a one-character [str] whose code is below 256. *)
Definition isspace (c : ascii) : bool :=
  let n := nat_of_ascii c in
  ((Nat.leb 9 n && Nat.leb n 13) || (Nat.leb 28 n && Nat.leb n 32)
   || Nat.eqb n 133 || Nat.eqb n 160)%bool.

Fixpoint last_char (s : string) : option ascii :=
  match s with
  | EmptyString => None
  | String c EmptyString => Some c
  | String _ r => last_char r
  end.

Definition first_char (s : string) : option ascii :=
  match s with
  | EmptyString => None
  | String c _ => Some c
  end.

Definition in_strs (x : string) (l : list string) : bool :=
  existsb (String.eqb x) l.

(** [sep.join(parts)] *)
Fixpoint join (sep : string) (parts : list string) : string :=
  match parts with
  | [] => EmptyString
  | [p] => p
  | p :: rest => p +++ sep +++ join sep rest
  end.

(** ** Insertion-ordered dictionaries

    A Python [dict] iterates in insertion order, and assigning to a key that
    is already present keeps the key's position.  Both matter for the data
    segment, so a dictionary is an association list. *)

Section Dict.
Context {V : Type}.

Fixpoint dict_get (k : string) (d : list (string * V)) : option V :=
  match d with
  | [] => None
  | (k', v) :: r => if String.eqb k k' then Some v else dict_get k r
  end.

(** [d[k] = v] *)
Fixpoint dict_set (k : string) (v : V) (d : list (string * V))
  : list (string * V) :=
  match d with
  | [] => [(k, v)]
  | (k', v') :: r =>
      if String.eqb k k' then (k', v) :: r else (k', v') :: dict_set k v r
  end.

Definition dict_mem (k : string) (d : list (string * V)) : bool :=
  match dict_get k d with Some _ => true | None => false end.

Definition keys (d : list (string * V)) : list string := map fst d.
End Dict.

(** ** Types and the type checker (module [types], consumed read-only) *)

Inductive CowType : Type :=
| TNone                                     (* Python [None] *)
| IntType (size : Z) (signed : bool)
| PtrType (target : CowType)
| ArrayType (element : CowType) (size : Z)
| RecordType (name : string)
| InterfaceType (name : string).

Definition truthy_type (t : CowType) : bool :=
  match t with TNone => false | _ => true end.

Definition UINT16 : CowType := IntType 2 false.

(** A type as written in the source text; only the checker interprets it. *)
Definition TypeExpr : Type := string.

Record RecordFieldInfo := mkField {
  field_name : string;
  field_offset : Z
}.

Record SubroutineInfo := mkSubInfo {
  sub_params : list (string * CowType);
  sub_returns : list (string * CowType)
}.

(** What the generator reads from [self.checker]. *)
Record TypeChecker := mkChecker {
  type_size : CowType -> Z;
  resolve_type : TypeExpr -> CowType;
  constants : list (string * Z);
  subroutines : list (string * SubroutineInfo);
  records : list (string * list RecordFieldInfo);
  lookup_var : string -> option CowType
}.

(** ** Abstract syntax (module [ast]), as the generator inspects it

    Every expression node carries its [resolved_type] first. *)

Inductive Expr : Type :=
| NumberLiteral (rt : CowType) (value : Z)
| StringLiteral (rt : CowType) (value : string)
| NilLiteral (rt : CowType)
| Identifier (rt : CowType) (name : string)
| BinaryOp (rt : CowType) (op : string) (left right : Expr)
| UnaryOp (rt : CowType) (op : string) (operand : Expr)
| Comparison (rt : CowType) (op : string) (left right : Expr)
| LogicalOp (rt : CowType) (op : string) (left right : Expr)
| NotOp (rt : CowType) (operand : Expr)
| Cast (rt : CowType) (expr : Expr)
| ArrayAccess (rt : CowType) (array index : Expr)
| FieldAccess (rt : CowType) (record : Expr) (field : string)
| Dereference (rt : CowType) (pointer : Expr)
| AddressOf (rt : CowType) (operand : Expr)
| Call (rt : CowType) (target : Expr) (args : list Expr)
| SizeOf (rt : CowType) (target : Expr + TypeExpr)
| BytesOf (rt : CowType) (target : Expr + TypeExpr)
| Next (rt : CowType) (pointer : Expr)
| Prev (rt : CowType) (pointer : Expr)
| ArrayInitializer (rt : CowType) (elements : list Expr)
| OtherExpr (rt : CowType) (class_name : string).

Definition resolved_type (e : Expr) : CowType :=
  match e with
  | NumberLiteral rt _ | StringLiteral rt _ | NilLiteral rt | Identifier rt _
  | BinaryOp rt _ _ _ | UnaryOp rt _ _ | Comparison rt _ _ _
  | LogicalOp rt _ _ _ | NotOp rt _ | Cast rt _ | ArrayAccess rt _ _
  | FieldAccess rt _ _ | Dereference rt _ | AddressOf rt _ | Call rt _ _
  | SizeOf rt _ | BytesOf rt _ | Next rt _ | Prev rt _
  | ArrayInitializer rt _ | OtherExpr rt _ => rt
  end.

Inductive Stmt : Type :=
| VarDecl (name : string) (vd_resolved : CowType)
          (type_name : option TypeExpr) (init : option Expr)
| ConstDecl
| Assignment (target value : Expr)
| MultiAssignment (targets : list Expr) (value : Expr)
| IfStmt (condition : Expr) (then_body : list Stmt)
         (elseifs : list (Expr * list Stmt)) (else_body : list Stmt)
| WhileStmt (condition : Expr) (body : list Stmt)
| LoopStmt (body : list Stmt)
| BreakStmt
| ContinueStmt
| ReturnStmt
| CaseStmt (expr : Expr) (whens : list (list Expr * list Stmt))
           (else_body : list Stmt)
| ExprStmt (expr : Expr)
| AsmStmt (parts : list (string + Expr))
| NestedSubStmt (sub : SubDecl)
| SubDeclStmt (sub : SubDecl)
| RecordDecl
| TypedefDecl
| OtherStmt
with SubDecl : Type :=
| mkSubDecl (name : string) (extern_name : option string)
            (params returns : list (string * TypeExpr))
            (body : option (list Stmt)).

Definition sd_name (d : SubDecl) := let (n, _, _, _, _) := d in n.
Definition sd_extern_name (d : SubDecl) := let (_, x, _, _, _) := d in x.
Definition sd_params (d : SubDecl) := let (_, _, p, _, _) := d in p.
Definition sd_returns (d : SubDecl) := let (_, _, _, r, _) := d in r.
Definition sd_body (d : SubDecl) := let (_, _, _, _, b) := d in b.

Record Program := mkProgram {
  statements : list Stmt;
  declarations : list Stmt
}.

(** ** Generator state *)

(** The dataclass [Variable]; that name is a keyword here. *)
Record VariableInfo := mkVariable {
  var_name : string;
  var_type : CowType;
  var_offset : Z;
  var_size : Z
}.

(** The fields of [CodeGenerator].  [nested_subs] is created on first use in
    the source ([hasattr]); an absent attribute and an empty list are told
    apart nowhere, so it starts as the empty list. *)
Record GenState := mkState {
  output : list string;
  data : list string;
  variables : list (string * VariableInfo);
  string_literals : list (string * string);
  data_offset : Z;
  label_counter : Z;
  current_sub : option string;
  break_labels : list string;
  continue_labels : list string;
  nested_subs : list SubDecl
}.

Definition init_state : GenState :=
  mkState [] [] [] [] 0 0 None [] [] [].

(** ** The generator monad: state, Python exceptions, fuel *)

Inductive PyExc : Type := IndexError.

Inductive Outcome (A : Type) : Type :=
| Ok (a : A) (s : GenState)
| Raised (e : PyExc)
| OutOfFuel.
Arguments Ok {A} a s.
Arguments Raised {A} e.
Arguments OutOfFuel {A}.

Definition M (A : Type) : Type := GenState -> Outcome A.

Definition ret {A} (a : A) : M A := fun s => Ok a s.

Definition bind {A B} (m : M A) (f : A -> M B) : M B :=
  fun s => match m s with
           | Ok a s' => f a s'
           | Raised e => Raised e
           | OutOfFuel => OutOfFuel
           end.

Definition out_of_fuel {A} : M A := fun _ => OutOfFuel.
Definition get : M GenState := fun s => Ok s s.
Definition modify (f : GenState -> GenState) : M unit := fun s => Ok tt (f s).

Notation "x <- m ;; k" := (bind m (fun x => k))
  (at level 61, m at next level, right associativity).
Notation "m ;; k" := (bind m (fun _ => k))
  (at level 61, right associativity).

Definition when (b : bool) (m : M unit) : M unit := if b then m else ret tt.

(** [for x in l: f(x)] *)
Fixpoint for_each {A} (l : list A) (f : A -> M unit) : M unit :=
  match l with
  | [] => ret tt
  | x :: r => f x ;; for_each r f
  end.

(** Run a list of already built actions in order. *)
Fixpoint sequence_ (l : list (M unit)) : M unit :=
  match l with
  | [] => ret tt
  | m :: r => m ;; sequence_ r
  end.

(** ** Emitter and naming layer *)

Definition set_output (o : list string) (s : GenState) : GenState :=
  mkState o (data s) (variables s) (string_literals s) (data_offset s)
          (label_counter s) (current_sub s) (break_labels s)
          (continue_labels s) (nested_subs s).

Definition set_data (d : list string) (s : GenState) : GenState :=
  mkState (output s) d (variables s) (string_literals s) (data_offset s)
          (label_counter s) (current_sub s) (break_labels s)
          (continue_labels s) (nested_subs s).

Definition set_variables (v : list (string * VariableInfo)) (off : Z)
    (s : GenState) : GenState :=
  mkState (output s) (data s) v (string_literals s) off
          (label_counter s) (current_sub s) (break_labels s)
          (continue_labels s) (nested_subs s).

Definition set_string_literals (l : list (string * string)) (s : GenState)
    : GenState :=
  mkState (output s) (data s) (variables s) l (data_offset s)
          (label_counter s) (current_sub s) (break_labels s)
          (continue_labels s) (nested_subs s).

Definition set_label_counter (c : Z) (s : GenState) : GenState :=
  mkState (output s) (data s) (variables s) (string_literals s)
          (data_offset s) c (current_sub s) (break_labels s)
          (continue_labels s) (nested_subs s).

(** The fields that steer lowering but never reach the output directly. *)
Definition set_control (cur : option string) (br co : list string)
    (ns : list SubDecl) (s : GenState) : GenState :=
  mkState (output s) (data s) (variables s) (string_literals s)
          (data_offset s) (label_counter s) cur br co ns.

Definition set_current_sub (cur : option string) (s : GenState) :=
  set_control cur (break_labels s) (continue_labels s) (nested_subs s) s.
Definition set_break_labels (br : list string) (s : GenState) :=
  set_control (current_sub s) br (continue_labels s) (nested_subs s) s.
Definition set_continue_labels (co : list string) (s : GenState) :=
  set_control (current_sub s) (break_labels s) co (nested_subs s) s.
Definition set_nested_subs (ns : list SubDecl) (s : GenState) :=
  set_control (current_sub s) (break_labels s) (continue_labels s) ns s.

Definition emit (line : string) : M unit :=
  modify (fun s => set_output (output s ++ [line]) s).

Definition emit_label (label : string) : M unit :=
  modify (fun s => set_output (output s ++ [label +++ ":"]) s).

Definition emit_data (line : string) : M unit :=
  modify (fun s => set_data (data s ++ [line]) s).

Definition new_label (prefix : string) : M string :=
  fun s =>
    let c := label_counter s + 1 in
    Ok (prefix +++ str_int c) (set_label_counter c s).

Definition get_string_label (value : string) : M string :=
  fun s =>
    match dict_get value (string_literals s) with
    | Some label => Ok label s
    | None =>
        match new_label "STR" s with
        | Ok label s1 =>
            let s2 :=
              set_string_literals
                (dict_set value label (string_literals s1)) s1 in
            match dict_get value (string_literals s2) with
            | Some l => Ok l s2
            | None => Ok label s2
            end
        | Raised e => Raised e
        | OutOfFuel => OutOfFuel
        end
    end.

Definition mangle_name (name : string) : string := "v_" +++ name.

Definition register_names : list string :=
  ["A"; "B"; "C"; "D"; "E"; "H"; "L"; "M"; "SP"; "PSW"]%string.

Definition mangle_sub_name (name : string) : string :=
  if in_strs (upper name) register_names then "s_" +++ name else name.

Section Generator.

Variable checker : TypeChecker.

Definition allocate_var (name : string) (typ : CowType)   : M VariableInfo :=
  fun s =>
    let size := type_size checker typ in
    let var := mkVariable name typ (data_offset s) size in
    Ok var (set_variables (dict_set name var (variables s))
                          (data_offset s + size) s).

Definition get_var (name : string) : M (option VariableInfo) :=
  fun s => Ok (dict_get name (variables s)) s.

(** ** Expression lowering *)

Inductive Target : Type := TA | THL.

Definition is_A (t : Target) : bool := match t with TA => true | THL => false end.
Definition is_HL (t : Target) : bool := match t with THL => true | TA => false end.

(** [MOV L,A; MVI H,0] when the caller asked for [HL]. *)
Definition widen_if_HL (target : Target) : M unit :=
  when (is_HL target) (emit (ins "MOV" "L,A") ;; emit (ins "MVI" "H,0")).

Definition gen_number (value : Z) (target : Target) : M unit :=
  if is_A target then emit (ins "MVI" ("A," +++ str_int (Z.land value 255)))
  else emit (ins "LXI" ("H," +++ str_int (Z.land value 65535))).

Definition gen_identifier (name : string) (target : Target) : M unit :=
  var <- get_var name ;;
  match var with
  | Some var =>
      let mangled := mangle_name name in
      if var_size var =? 1 then
        emit (ins "LDA" mangled) ;;
        widen_if_HL target
      else
        emit (ins "LHLD" mangled) ;;
        when (is_A target) (emit (ins "MOV" "A,L"))
  | None =>
      match dict_get name (constants checker) with
      | Some value => gen_number value target
      | None =>
          if dict_mem name (subroutines checker) then
            emit (ins "LXI" ("H," +++ mangle_sub_name name))
          else
            emit (ins "LXI" ("H," +++ name))
      end
  end.

(** [MOV A,r; CMA; MOV r,A] on both halves of [HL]. *)
Definition complement_HL : M unit :=
  emit (ins "MOV" "A,L") ;; emit (ins0 "CMA") ;; emit (ins "MOV" "L,A") ;;
  emit (ins "MOV" "A,H") ;; emit (ins0 "CMA") ;; emit (ins "MOV" "H,A").

Definition gen_unary (gen_expr : Expr -> Target -> M unit)
    (op : string) (operand : Expr) (target : Target) : M unit :=
  if String.eqb op "-" then
    gen_expr operand target ;;
    if is_A target then emit (ins0 "CMA") ;; emit (ins "INR" "A")
    else complement_HL ;; emit (ins "INX" "H")
  else if String.eqb op "~" then
    gen_expr operand target ;;
    if is_A target then emit (ins0 "CMA") else complement_HL
  else ret tt.

(** The load through [HL] at the end of array, field and pointer reads. *)
Definition load_byte (target : Target) : M unit :=
  emit (ins "MOV" "A,M") ;; widen_if_HL target.

Definition load_word : M unit :=
  emit (ins "MOV" "E,M") ;; emit (ins "INX" "H") ;;
  emit (ins "MOV" "D,M") ;; emit (ins0 "XCHG").

Definition gen_binop (gen_expr : Expr -> Target -> M unit)
    (rt : CowType) (op : string) (left right : Expr) (target : Target)
    : M unit :=
  if type_size checker rt =? 1 then
    gen_expr left TA ;;
    emit (ins "PUSH" "PSW") ;;
    gen_expr right TA ;;
    emit (ins "MOV" "B,A") ;;
    emit (ins "POP" "PSW") ;;
    (if String.eqb op "+" then emit (ins "ADD" "B")
     else if String.eqb op "-" then emit (ins "SUB" "B")
     else if String.eqb op "&" then emit (ins "ANA" "B")
     else if String.eqb op "|" then emit (ins "ORA" "B")
     else if String.eqb op "^" then emit (ins "XRA" "B")
     else if String.eqb op "*" then emit (ins "CALL" "_mul8")
     else if String.eqb op "/" then emit (ins "CALL" "_div8")
     else if String.eqb op "%" then emit (ins "CALL" "_mod8")
     else if String.eqb op "<<" then
       label <- new_label "SHL" ;;
       end_ <- new_label "SHLE" ;;
       emit_label label ;;
       emit (ins "MOV" "C,A") ;;
       emit (ins "MOV" "A,B") ;;
       emit (ins "ORA" "A") ;;
       emit (ins "JZ" end_) ;;
       emit (ins "DCR" "B") ;;
       emit (ins "MOV" "A,C") ;;
       emit (ins "ADD" "A") ;;
       emit (ins "JMP" label) ;;
       emit_label end_
     else if String.eqb op ">>" then
       label <- new_label "SHR" ;;
       end_ <- new_label "SHRE" ;;
       emit_label label ;;
       emit (ins "MOV" "C,A") ;;
       emit (ins "MOV" "A,B") ;;
       emit (ins "ORA" "A") ;;
       emit (ins "JZ" end_) ;;
       emit (ins "DCR" "B") ;;
       emit (ins "MOV" "A,C") ;;
       emit (ins "ORA" "A") ;;
       emit (ins0 "RAR") ;;
       emit (ins "JMP" label) ;;
       emit_label end_
     else ret tt) ;;
    widen_if_HL target
  else
    gen_expr left THL ;;
    emit (ins "PUSH" "H") ;;
    gen_expr right THL ;;
    emit (ins0 "XCHG") ;;
    emit (ins "POP" "H") ;;
    (if String.eqb op "+" then emit (ins "DAD" "D")
     else if String.eqb op "-" then
       emit (ins "MOV" "A,L") ;; emit (ins "SUB" "E") ;;
       emit (ins "MOV" "L,A") ;; emit (ins "MOV" "A,H") ;;
       emit (ins "SBB" "D") ;; emit (ins "MOV" "H,A")
     else if String.eqb op "&" then
       emit (ins "MOV" "A,L") ;; emit (ins "ANA" "E") ;;
       emit (ins "MOV" "L,A") ;; emit (ins "MOV" "A,H") ;;
       emit (ins "ANA" "D") ;; emit (ins "MOV" "H,A")
     else if String.eqb op "|" then
       emit (ins "MOV" "A,L") ;; emit (ins "ORA" "E") ;;
       emit (ins "MOV" "L,A") ;; emit (ins "MOV" "A,H") ;;
       emit (ins "ORA" "D") ;; emit (ins "MOV" "H,A")
     else if String.eqb op "^" then
       emit (ins "MOV" "A,L") ;; emit (ins "XRA" "E") ;;
       emit (ins "MOV" "L,A") ;; emit (ins "MOV" "A,H") ;;
       emit (ins "XRA" "D") ;; emit (ins "MOV" "H,A")
     else if String.eqb op "*" then emit (ins "CALL" "_mul16")
     else if String.eqb op "/" then emit (ins "CALL" "_div16")
     else if String.eqb op "%" then emit (ins "CALL" "_mod16")
     else if String.eqb op "<<" then emit (ins "CALL" "_shl16")
     else if String.eqb op ">>" then emit (ins "CALL" "_shr16")
     else ret tt) ;;
    when (is_A target) (emit (ins "MOV" "A,L")).

Definition gen_comparison (gen_expr : Expr -> Target -> M unit)
    (op : string) (left right : Expr) : M unit :=
  gen_expr left THL ;;
  emit (ins "PUSH" "H") ;;
  gen_expr right THL ;;
  emit (ins0 "XCHG") ;;
  emit (ins "POP" "H") ;;
  emit (ins "MOV" "A,H") ;;
  emit (ins "CMP" "D") ;;
  emit (ins "JNZ" "$+6") ;;
  emit (ins "MOV" "A,L") ;;
  emit (ins "CMP" "E") ;;
  true_label <- new_label "TRUE" ;;
  end_label <- new_label "END" ;;
  false_label <- new_label "FALSE" ;;
  (if String.eqb op "==" then emit (ins "JZ" true_label)
   else if String.eqb op "!=" then emit (ins "JNZ" true_label)
   else if String.eqb op "<" then emit (ins "JC" true_label)
   else if String.eqb op ">=" then emit (ins "JNC" true_label)
   else if String.eqb op ">" then
     emit (ins "JZ" false_label) ;; emit (ins "JNC" true_label)
   else if String.eqb op "<=" then
     emit (ins "JZ" true_label) ;; emit (ins "JC" true_label)
   else ret tt) ;;
  emit_label false_label ;;
  emit (ins "XRA" "A") ;;
  emit (ins "JMP" end_label) ;;
  emit_label true_label ;;
  emit (ins "MVI" "A,1") ;;
  emit_label end_label.

Definition gen_logical (gen_expr : Expr -> Target -> M unit)
    (op : string) (left right : Expr) : M unit :=
  if String.eqb op "and" then
    false_label <- new_label "FALSE" ;;
    end_label <- new_label "END" ;;
    gen_expr left TA ;;
    emit (ins "ORA" "A") ;;
    emit (ins "JZ" false_label) ;;
    gen_expr right TA ;;
    emit (ins "ORA" "A") ;;
    emit (ins "JZ" false_label) ;;
    emit (ins "MVI" "A,1") ;;
    emit (ins "JMP" end_label) ;;
    emit_label false_label ;;
    emit (ins "XRA" "A") ;;
    emit_label end_label
  else if String.eqb op "or" then
    true_label <- new_label "TRUE" ;;
    end_label <- new_label "END" ;;
    gen_expr left TA ;;
    emit (ins "ORA" "A") ;;
    emit (ins "JNZ" true_label) ;;
    gen_expr right TA ;;
    emit (ins "ORA" "A") ;;
    emit (ins "JNZ" true_label) ;;
    emit (ins "XRA" "A") ;;
    emit (ins "JMP" end_label) ;;
    emit_label true_label ;;
    emit (ins "MVI" "A,1") ;;
    emit_label end_label
  else ret tt.

(** [LXI H,<label>] of a named base: the mangled label when the name is an
    allocated variable, the bare name otherwise. *)
Definition load_base_address (name : string) : M unit :=
  var <- get_var name ;;
  match var with
  | Some _ => emit (ins "LXI" ("H," +++ mangle_name name))
  | None => emit (ins "LXI" ("H," +++ name))
  end.

Definition gen_array_address (gen_expr : Expr -> Target -> M unit)
    (array index : Expr) : M unit :=
  let elem_size :=
    match resolved_type array with
    | ArrayType element _ => type_size checker element
    | PtrType target => type_size checker target
    | _ => 1
    end in
  gen_expr index THL ;;
  when (elem_size >? 1)
    (emit (ins "LXI" ("D," +++ str_int elem_size)) ;;
     emit (ins "CALL" "_mul16")) ;;
  emit (ins "PUSH" "H") ;;
  match array with
  | Identifier _ name => load_base_address name
  | _ => gen_expr array THL
  end ;;
  emit (ins "POP" "D") ;;
  emit (ins "DAD" "D").

(** The load that ends an array or a field read. *)
Definition load_element (rt : CowType) (target : Target) : M unit :=
  if type_size checker rt =? 1 then load_byte target
  else load_word ;; when (is_A target) (emit (ins "MOV" "A,L")).

Definition gen_array_access (gen_expr : Expr -> Target -> M unit)
    (rt : CowType) (array index : Expr) (target : Target) : M unit :=
  gen_array_address gen_expr array index ;;
  load_element rt target.

(** [for field in info.fields: if field.name == expr.field: ...; break] *)
Fixpoint add_field_offset (fields : list RecordFieldInfo) (field : string)
    : M unit :=
  match fields with
  | [] => ret tt
  | f :: rest =>
      if String.eqb (field_name f) field then
        when (field_offset f >? 0)
          (emit (ins "LXI" ("D," +++ str_int (field_offset f))) ;;
           emit (ins "DAD" "D"))
      else add_field_offset rest field
  end.

Definition gen_field_address (gen_expr : Expr -> Target -> M unit)
    (record : Expr) (field : string) : M unit :=
  let record_type := resolved_type record in
  match record_type with
  | PtrType _ => gen_expr record THL
  | _ =>
      match record with
      | Identifier _ name => load_base_address name
      | _ => gen_expr record THL
      end
  end ;;
  let record_type :=
    match record_type with PtrType target => target | t => t end in
  match record_type with
  | RecordType name =>
      match dict_get name (records checker) with
      | Some fields => add_field_offset fields field
      | None => ret tt
      end
  | _ => ret tt
  end.

Definition gen_field_access (gen_expr : Expr -> Target -> M unit)
    (rt : CowType) (record : Expr) (field : string) (target : Target)
    : M unit :=
  gen_field_address gen_expr record field ;;
  load_element rt target.

(** The caller's stack cleanup after [CALL], for [nargs] pushed words. *)
Definition call_cleanup (nargs : nat) : M unit :=
  when (negb (Nat.eqb nargs 0))
    (let stack_bytes := Z.of_nat nargs * 2 in
     if stack_bytes =? 2 then emit (ins "POP" "D")
     else if stack_bytes =? 4 then
       emit (ins "POP" "D") ;; emit (ins "POP" "D")
     else
       emit (ins "PUSH" "H") ;;
       emit (ins "LXI" ("H," +++ str_int (stack_bytes + 2))) ;;
       emit (ins "DAD" "SP") ;;
       emit (ins0 "SPHL") ;;
       emit (ins "POP" "H")).

(** [for arg in reversed(expr.args)]: the actions are built over [args] and
    run in reversed order, which keeps the recursion structural. *)
Definition gen_call (gen_expr : Expr -> Target -> M unit)
    (rt : CowType) (target_expr : Expr) (args : list Expr) (target : Target)
    : M unit :=
  sequence_
    (List.rev (map (fun arg => gen_expr arg THL ;; emit (ins "PUSH" "H")) args)) ;;
  match target_expr with
  | Identifier _ name =>
      if dict_mem name (subroutines checker) then
        emit (ins "CALL" (mangle_sub_name name))
      else
        var <- get_var name ;;
        match var with
        | Some _ => emit (ins "LHLD" (mangle_name name))
        | None => emit (ins "LXI" ("H," +++ name))
        end ;;
        emit (ins "CALL" "_callhl")
  | _ =>
      gen_expr target_expr THL ;;
      emit (ins "CALL" "_callhl")
  end ;;
  call_cleanup (List.length args) ;;
  when (is_A target && truthy_type rt)
    (when (type_size checker rt >? 1) (emit (ins "MOV" "A,L"))).

Definition gen_sizeof (target_ : Expr + TypeExpr) (target : Target) : M unit :=
  match target_ with
  | inl e =>
      match resolved_type e with
      | ArrayType _ size =>
          if is_A target then
            emit (ins "MVI" ("A," +++ str_int (Z.land size 255)))
          else emit (ins "LXI" ("H," +++ str_int size))
      | _ => ret tt
      end
  | inr _ => ret tt
  end.

Definition gen_bytesof (target_ : Expr + TypeExpr) (target : Target) : M unit :=
  let size :=
    match target_ with
    | inl e => type_size checker (resolved_type e)
    | inr t => type_size checker (resolve_type checker t)
    end in
  if is_A target then emit (ins "MVI" ("A," +++ str_int (Z.land size 255)))
  else emit (ins "LXI" ("H," +++ str_int size)).

Fixpoint gen_expr (expr : Expr) (target : Target) {struct expr} : M unit :=
  match expr with
  | NumberLiteral _ value => gen_number value target
  | StringLiteral _ value =>
      label <- get_string_label value ;;
      emit (ins "LXI" ("H," +++ label))
  | NilLiteral _ =>
      if is_A target then emit (ins "XRA" "A") else emit (ins "LXI" "H,0")
  | Identifier _ name => gen_identifier name target
  | BinaryOp rt op lhs rhs => gen_binop gen_expr rt op lhs rhs target
  | UnaryOp _ op operand => gen_unary gen_expr op operand target
  | Comparison _ op lhs rhs =>
      gen_comparison gen_expr op lhs rhs ;;
      widen_if_HL target
  | LogicalOp _ op lhs rhs =>
      gen_logical gen_expr op lhs rhs ;;
      widen_if_HL target
  | NotOp _ operand =>
      gen_expr operand TA ;;
      emit (ins "ORA" "A") ;;
      emit (ins "MVI" "A,0") ;;
      emit (ins "JNZ" "$+4") ;;
      emit (ins "MVI" "A,1") ;;
      widen_if_HL target
  | Cast _ inner => gen_expr inner target
  | ArrayAccess rt array index =>
      gen_array_access gen_expr rt array index target
  | FieldAccess rt record field =>
      gen_field_access gen_expr rt record field target
  | Dereference rt pointer =>
      gen_expr pointer THL ;;
      if type_size checker rt =? 1 then load_byte target else load_word
  | AddressOf _ operand =>
      match operand with
      | Identifier _ name =>
          var <- get_var name ;;
          match var with
          | Some _ => emit (ins "LXI" ("H," +++ mangle_name name))
          | None => ret tt
          end
      | FieldAccess _ record field => gen_field_address gen_expr record field
      | ArrayAccess _ array index => gen_array_address gen_expr array index
      | _ => ret tt
      end
  | Call rt target_expr args => gen_call gen_expr rt target_expr args target
  | SizeOf _ target_ => gen_sizeof target_ target
  | BytesOf _ target_ => gen_bytesof target_ target
  | Next rt pointer =>
      gen_expr pointer THL ;;
      match rt with
      | PtrType pointee =>
          let size := type_size checker pointee in
          if size =? 1 then emit (ins "INX" "H")
          else emit (ins "LXI" ("D," +++ str_int size)) ;;
               emit (ins "DAD" "D")
      | _ => ret tt
      end
  | Prev rt pointer =>
      gen_expr pointer THL ;;
      match rt with
      | PtrType pointee =>
          let size := type_size checker pointee in
          if size =? 1 then emit (ins "DCX" "H")
          else emit (ins "LXI" ("D,-" +++ str_int size)) ;;
               emit (ins "DAD" "D")
      | _ => ret tt
      end
  | ArrayInitializer _ _ => ret tt
  | OtherExpr _ class_name => emit (TAB +++ "; TODO: " +++ class_name)
  end.

(** ** Statement lowering *)

(** Store [HL] to a variable's label at the variable's width. *)
Definition store_to (size : Z) (dest : string) : M unit :=
  if size =? 1 then emit (ins "MOV" "A,L") ;; emit (ins "STA" dest)
  else emit (ins "SHLD" dest).

(** The loop of [gen_array_init], carrying [offset]. *)
Fixpoint gen_array_init_loop (mangled : string) (elem_size : Z)
    (elements : list Expr) (offset : Z) : M unit :=
  match elements with
  | [] => ret tt
  | elem :: rest =>
      gen_expr elem THL ;;
      store_to elem_size (mangled +++ "+" +++ str_int offset) ;;
      gen_array_init_loop mangled elem_size rest (offset + elem_size)
  end.

Definition gen_array_init (var : VariableInfo) (elements : list Expr)
    : M unit :=
  let elem_size :=
    match var_type var with
    | ArrayType element _ => type_size checker element
    | _ => 1
    end in
  gen_array_init_loop (mangle_name (var_name var)) elem_size elements 0.

Definition gen_var_decl (name : string) (vd_resolved : CowType)
    (type_name : option TypeExpr) (init : option Expr) : M unit :=
  let var_type :=
    if truthy_type vd_resolved then vd_resolved
    else match type_name with
         | Some tn => resolve_type checker tn
         | None =>
             match init with
             | Some e => if truthy_type (resolved_type e)
                         then resolved_type e else TNone
             | None => TNone
             end
         end in
  let var_type := if truthy_type var_type then var_type else UINT16 in
  var <- get_var name ;;
  match var with
  | Some _ => ret tt
  | None =>
      var <- allocate_var name var_type ;;
      match init with
      | None => ret tt
      | Some init =>
          let mangled := mangle_name name in
          match init with
          | ArrayInitializer _ elements => gen_array_init var elements
          | StringLiteral _ value =>
              label <- get_string_label value ;;
              emit (ins "LXI" ("H," +++ label)) ;;
              emit (ins "SHLD" mangled)
          | _ =>
              gen_expr init THL ;;
              store_to (var_size var) mangled
          end
      end
  end.

(** Store the value in [HL] through the address in [DE]. *)
Definition store_indirect (rt : CowType) : M unit :=
  if type_size checker rt =? 1 then
    emit (ins "MOV" "A,L") ;; emit (ins "STAX" "D")
  else
    emit (ins0 "XCHG") ;; emit (ins "MOV" "M,E") ;;
    emit (ins "INX" "H") ;; emit (ins "MOV" "M,D").

Definition gen_assignment (target value : Expr) : M unit :=
  gen_expr value THL ;;
  match target with
  | Identifier _ name =>
      var <- get_var name ;;
      match var with
      | Some var => store_to (var_size var) (mangle_name name)
      | None => ret tt
      end
  | ArrayAccess rt array index =>
      emit (ins "PUSH" "H") ;;
      gen_array_address gen_expr array index ;;
      emit (ins0 "XCHG") ;;
      emit (ins "POP" "H") ;;
      store_indirect rt
  | FieldAccess rt record field =>
      emit (ins "PUSH" "H") ;;
      gen_field_address gen_expr record field ;;
      emit (ins0 "XCHG") ;;
      emit (ins "POP" "H") ;;
      store_indirect rt
  | Dereference rt pointer =>
      emit (ins "PUSH" "H") ;;
      gen_expr pointer THL ;;
      emit (ins0 "XCHG") ;;
      emit (ins "POP" "H") ;;
      store_indirect rt
  | _ => ret tt
  end.

(** [for i, target in enumerate(stmt.targets)] *)
Fixpoint gen_multi_targets (i : nat) (targets : list Expr) : M unit :=
  match targets with
  | [] => ret tt
  | target :: rest =>
      when (negb (Nat.eqb i 0)) (emit (ins "POP" "H")) ;;
      match target with
      | Identifier _ name =>
          var <- get_var name ;;
          let mangled := mangle_name name in
          match var with
          | Some var => store_to (var_size var) mangled
          | None => emit (ins "SHLD" mangled)
          end
      | _ => ret tt
      end ;;
      gen_multi_targets (S i) rest
  end.

Definition gen_multi_assignment (targets : list Expr) (value : Expr)
    : M unit :=
  gen_expr value THL ;;
  gen_multi_targets 0 targets.

Definition nonempty {A} (l : list A) : bool :=
  match l with [] => false | _ => true end.

(** The [elseifs] loop of [gen_if]; returns the last value of [else_label]. *)
Fixpoint gen_elseifs (gen_stmt : Stmt -> M unit)
    (elseifs : list (Expr * list Stmt)) (else_body : list Stmt)
    (else_label end_label : string) : M string :=
  match elseifs with
  | [] => ret else_label
  | (cond, body) :: rest =>
      emit_label else_label ;;
      next_label <- (if (nonempty rest || nonempty else_body)%bool
                     then new_label "ELIF" else ret end_label) ;;
      gen_expr cond TA ;;
      emit (ins "ORA" "A") ;;
      emit (ins "JZ" next_label) ;;
      for_each body gen_stmt ;;
      emit (ins "JMP" end_label) ;;
      gen_elseifs gen_stmt rest else_body next_label end_label
  end.

Definition gen_if (gen_stmt : Stmt -> M unit) (condition : Expr)
    (then_body : list Stmt) (elseifs : list (Expr * list Stmt))
    (else_body : list Stmt) : M unit :=
  else_label <- new_label "ELSE" ;;
  end_label <- new_label "ENDIF" ;;
  gen_expr condition TA ;;
  emit (ins "ORA" "A") ;;
  (if (nonempty elseifs || nonempty else_body)%bool
   then emit (ins "JZ" else_label) else emit (ins "JZ" end_label)) ;;
  for_each then_body gen_stmt ;;
  when (nonempty elseifs || nonempty else_body)
    (emit (ins "JMP" end_label)) ;;
  else_label <- gen_elseifs gen_stmt elseifs else_body else_label end_label ;;
  when (nonempty else_body)
    (emit_label else_label ;; for_each else_body gen_stmt) ;;
  emit_label end_label.

(** [self.break_labels.append(l)] and [self.break_labels.pop()]; the label
    stacks grow at the end of the list, and [pop] on an empty list raises. *)
Definition push_break (l : string) : M unit :=
  modify (fun s => set_break_labels (break_labels s ++ [l]) s).
Definition push_continue (l : string) : M unit :=
  modify (fun s => set_continue_labels (continue_labels s ++ [l]) s).
Definition pop_break : M unit :=
  fun s => match break_labels s with
           | [] => Raised IndexError
           | l => Ok tt (set_break_labels (removelast l) s)
           end.
Definition pop_continue : M unit :=
  fun s => match continue_labels s with
           | [] => Raised IndexError
           | l => Ok tt (set_continue_labels (removelast l) s)
           end.

Definition gen_while (gen_stmt : Stmt -> M unit) (condition : Expr)
    (body : list Stmt) : M unit :=
  loop_label <- new_label "WHILE" ;;
  end_label <- new_label "ENDW" ;;
  push_break end_label ;;
  push_continue loop_label ;;
  emit_label loop_label ;;
  gen_expr condition TA ;;
  emit (ins "ORA" "A") ;;
  emit (ins "JZ" end_label) ;;
  for_each body gen_stmt ;;
  emit (ins "JMP" loop_label) ;;
  emit_label end_label ;;
  pop_break ;;
  pop_continue.

Definition gen_loop (gen_stmt : Stmt -> M unit) (body : list Stmt) : M unit :=
  loop_label <- new_label "LOOP" ;;
  end_label <- new_label "ENDL" ;;
  push_break end_label ;;
  push_continue loop_label ;;
  emit_label loop_label ;;
  for_each body gen_stmt ;;
  emit (ins "JMP" loop_label) ;;
  emit_label end_label ;;
  pop_break ;;
  pop_continue.

Definition gen_case_value (next_when : string) (val : Expr) : M unit :=
  emit (ins "POP" "H") ;;
  emit (ins "PUSH" "H") ;;
  gen_expr val THL ;;
  emit (ins0 "XCHG") ;;
  emit (ins "POP" "H") ;;
  emit (ins "PUSH" "H") ;;
  emit (ins "MOV" "A,H") ;;
  emit (ins "CMP" "D") ;;
  emit (ins "JNZ" next_when) ;;
  emit (ins "MOV" "A,L") ;;
  emit (ins "CMP" "E") ;;
  emit (ins "JNZ" next_when).

Definition gen_case (gen_stmt : Stmt -> M unit) (expr : Expr)
    (whens : list (list Expr * list Stmt)) (else_body : list Stmt)
    : M unit :=
  end_label <- new_label "ENDC" ;;
  gen_expr expr THL ;;
  emit (ins "PUSH" "H") ;;
  for_each whens (fun w =>
    let (values, body) := w in
    next_when <- new_label "WHEN" ;;
    for_each values (gen_case_value next_when) ;;
    emit (ins "POP" "H") ;;
    for_each body gen_stmt ;;
    emit (ins "JMP" end_label) ;;
    emit_label next_when) ;;
  emit (ins "POP" "H") ;;
  when (nonempty else_body) (for_each else_body gen_stmt) ;;
  emit_label end_label.

(** The text that stands for one part of an [@asm] statement. *)
Definition asm_part (part : string + Expr) : string :=
  match part with
  | inl text => text
  | inr (Identifier _ name) =>
      match dict_get name (constants checker) with
      | Some value => str_int value
      | None =>
          if dict_mem name (subroutines checker) then mangle_sub_name name
          else mangle_name name
      end
  | inr _ => "???"
  end.

Definition starts_with_space (s : string) : bool :=
  match first_char s with Some c => isspace c | None => false end.
Definition ends_with_space (s : string) : bool :=
  match last_char s with Some c => isspace c | None => false end.
Definition nonempty_str (s : string) : bool :=
  match s with EmptyString => false | _ => true end.

(** The joining loop of [gen_asm], carrying [asm_line] and the index. *)
Fixpoint asm_join (i : nat) (parts : list string) (asm_line : string)
    : string :=
  match parts with
  | [] => asm_line
  | part :: rest =>
      let asm_line :=
        if (negb (Nat.eqb i 0) && nonempty_str part
            && negb (starts_with_space part)
            && nonempty_str asm_line && negb (ends_with_space asm_line))%bool
        then asm_line +++ TAB else asm_line in
      asm_join (S i) rest (asm_line +++ part)
  end.

Definition gen_asm (parts : list (string + Expr)) : M unit :=
  emit (TAB +++ asm_join 0 (map asm_part parts) EmptyString).

(** ** Subroutines and the program *)

(** The prologue loop of [gen_sub]: copy each parameter from the stack to
    its data-segment slot, carrying [offset]. *)
Fixpoint gen_param_copies (params : list (string * CowType)) (offset : Z)
    : M unit :=
  match params with
  | [] => ret tt
  | (param_name, _) :: rest =>
      var <- get_var param_name ;;
      match var with
      | Some var =>
          let mangled := mangle_name param_name in
          emit (ins "LXI" ("H," +++ str_int offset)) ;;
          emit (ins "DAD" "SP") ;;
          (if var_size var =? 1 then
             emit (ins "MOV" "A,M") ;;
             emit (ins "STA" mangled)
           else
             load_word ;;
             emit (ins "SHLD" mangled)) ;;
          gen_param_copies rest (offset + 2)
      | None => gen_param_copies rest offset
      end
  end.

(** Load the first return slot into [HL]. *)
Definition gen_return_value (returns : list (string * CowType)) : M unit :=
  match returns with
  | [] => ret tt
  | (ret_var, _) :: _ =>
      var <- get_var ret_var ;;
      let mangled_ret := mangle_name ret_var in
      match var with
      | Some var =>
          if var_size var =? 1 then
            emit (ins "LDA" mangled_ret) ;;
            emit (ins "MOV" "L,A") ;;
            emit (ins "MVI" "H,0")
          else emit (ins "LHLD" mangled_ret)
      | None => emit (ins "LHLD" mangled_ret)
      end
  end.

Definition resolve_decls (l : list (string * TypeExpr))
    : list (string * CowType) :=
  map (fun p => (fst p, resolve_type checker (snd p))) l.

Definition allocate_all (l : list (string * CowType)) : M unit :=
  for_each l (fun p => allocate_var (fst p) (snd p) ;; ret tt).

Definition gen_sub_body (gen_stmt : Stmt -> M unit)
    (gen_sub : SubDecl -> M unit) (decl : SubDecl) : M unit :=
  match sd_body decl with
  | None => ret tt
  | Some body =>
      modify (fun s => set_current_sub (Some (sd_name decl)) s) ;;
      let (params, returns) :=
        match dict_get (sd_name decl) (subroutines checker) with
        | Some sub_info => (sub_params sub_info, sub_returns sub_info)
        | None => (resolve_decls (sd_params decl),
                   resolve_decls (sd_returns decl))
        end in
      emit EmptyString ;;
      emit ("; Subroutine " +++ sd_name decl) ;;
      match sd_extern_name decl with
      | Some extern_name =>
          if nonempty_str extern_name then
            emit (ins "PUBLIC" extern_name) ;;
            emit_label extern_name
          else ret tt
      | None => ret tt
      end ;;
      emit_label (mangle_sub_name (sd_name decl)) ;;
      allocate_all params ;;
      allocate_all returns ;;
      gen_param_copies params 2 ;;
      for_each body gen_stmt ;;
      gen_return_value returns ;;
      emit (ins0 "RET") ;;
      s <- get ;;
      when (nonempty (nested_subs s))
        (modify (fun s => set_nested_subs [] s) ;;
         for_each (nested_subs s) gen_sub) ;;
      modify (fun s => set_current_sub None s)
  end.

Definition gen_stmt_body (gen_stmt : Stmt -> M unit)
    (gen_sub : SubDecl -> M unit) (stmt : Stmt) : M unit :=
  match stmt with
  | VarDecl name vd_resolved type_name init =>
      gen_var_decl name vd_resolved type_name init
  | ConstDecl => ret tt
  | Assignment target value => gen_assignment target value
  | MultiAssignment targets value => gen_multi_assignment targets value
  | IfStmt condition then_body elseifs else_body =>
      gen_if gen_stmt condition then_body elseifs else_body
  | WhileStmt condition body => gen_while gen_stmt condition body
  | LoopStmt body => gen_loop gen_stmt body
  | BreakStmt =>
      s <- get ;;
      when (nonempty (break_labels s))
        (emit (ins "JMP" (last (break_labels s) EmptyString)))
  | ContinueStmt =>
      s <- get ;;
      when (nonempty (continue_labels s))
        (emit (ins "JMP" (last (continue_labels s) EmptyString)))
  | ReturnStmt => emit (ins0 "RET")
  | CaseStmt expr whens else_body => gen_case gen_stmt expr whens else_body
  | ExprStmt expr => gen_expr expr THL
  | AsmStmt parts => gen_asm parts
  | NestedSubStmt sub =>
      modify (fun s => set_nested_subs (nested_subs s ++ [sub]) s)
  | SubDeclStmt sub => gen_sub sub
  | RecordDecl | TypedefDecl => ret tt
  | OtherStmt => ret tt
  end.

(** [gen_stmt] and [gen_sub] call each other, and [gen_sub] also runs the
    subroutines queued in the state; both recurse on [fuel]. *)
Fixpoint gen_stmt (fuel : nat) (stmt : Stmt) {struct fuel} : M unit :=
  match fuel with
  | O => out_of_fuel
  | S f => gen_stmt_body (gen_stmt f) (gen_sub f) stmt
  end
with gen_sub (fuel : nat) (decl : SubDecl) {struct fuel} : M unit :=
  match fuel with
  | O => out_of_fuel
  | S f => gen_sub_body (gen_stmt f) (gen_sub f) decl
  end.

(** The pre-pass of [gen_program] that allocates the global variables. *)
Definition allocate_globals (stmts : list Stmt) : M unit :=
  for_each stmts (fun stmt =>
    match stmt with
    | VarDecl name _ _ _ =>
        match lookup_var checker name with
        | Some typ => allocate_var name typ ;; ret tt
        | None => ret tt
        end
    | _ => ret tt
    end).

Definition ds_line (entry : string * VariableInfo) : string :=
  mangle_name (fst entry) +++ ":" +++ TAB +++ "DS" +++ TAB
    +++ str_int (var_size (snd entry)).

(** [','.join(str(ord(c)) for c in value)] *)
Definition bytes_str (value : string) : string :=
  join "," (map (fun c => str_int (Z.of_nat (nat_of_ascii c)))
                (list_ascii_of_string value)).

Definition db_line (entry : string * string) : string :=
  let (value, label) := entry in
  if nonempty_str (bytes_str value) then
    label +++ ":" +++ TAB +++ "DB" +++ TAB +++ bytes_str value +++ ",0"
  else label +++ ":" +++ TAB +++ "DB" +++ TAB +++ "0".

Definition header : list string :=
  ["; Generated by ucow"; EmptyString; ins0 ".8080"; EmptyString;
   ins0 "CSEG"; EmptyString; ins "JMP" "_main"; EmptyString;
   ins "INCLUDE" "'runtime.mac'"; EmptyString]%string.

Definition NL : string := String (ascii_of_nat 10) EmptyString.

Definition gen_program (fuel : nat) (program : Program) : M string :=
  for_each header emit ;;
  allocate_globals (statements program) ;;
  for_each (declarations program) (fun decl =>
    match decl with
    | SubDeclStmt d => gen_sub fuel d
    | _ => ret tt
    end) ;;
  emit EmptyString ;;
  emit "; Main program" ;;
  emit_label "_main" ;;
  for_each (statements program) (gen_stmt fuel) ;;
  emit (ins "JMP" "0") ;;
  emit EmptyString ;;
  emit "; Data segment" ;;
  emit_label "_data" ;;
  s <- get ;;
  for_each (variables s) (fun entry => emit (ds_line entry)) ;;
  for_each (string_literals s) (fun entry => emit (db_line entry)) ;;
  emit EmptyString ;;
  emit (ins0 "END") ;;
  s <- get ;;
  ret (join NL (output s)).

(** [generate(program, checker)]: a fresh generator runs [gen_program]. *)
Definition generate (fuel : nat) (program : Program) : Outcome string :=
  gen_program fuel program init_state.

End Generator.

(** * Properties *)

(** ** Decimal rendering and label text *)

Definition is_digit (c : ascii) : bool :=
  let n := nat_of_ascii c in (Nat.leb 48 n && Nat.leb n 57)%bool.

Definition ends_with_digit (s : string) : bool :=
  match last_char s with Some c => is_digit c | None => false end.

Lemma str_int_inj (a b : Z) : str_int a = str_int b -> a = b.
Proof.
  unfold str_int. intros H.
  apply DecimalZ.to_int_inj.
  assert (G : forall z, NilZero.int_of_string (NilZero.string_of_int (Z.to_int z))
                        = Some (Z.to_int z)).
  { intros z. apply NilZero.isi; destruct z; simpl; try discriminate;
      intros E; injection E; apply DecimalPos.Unsigned.to_uint_nonnil. }
  pose proof (G a) as Ga. rewrite H, G in Ga. now injection Ga.
Qed.









(** The default prefix of [new_label] and the prefixes the generator passes
    to it. *)
Definition label_prefixes : list string :=
  ["L"; "STR"; "SHL"; "SHLE"; "SHR"; "SHRE"; "TRUE"; "END"; "FALSE"; "ELSE";
   "ENDIF"; "ELIF"; "WHILE"; "ENDW"; "LOOP"; "ENDL"; "ENDC"; "WHEN"]%string.

Lemma label_prefixes_no_digit :
  forallb (fun p => negb (ends_with_digit p)) label_prefixes = true.
Proof. reflexivity. Qed.

(** ** Induction on expressions, through argument lists *)

Section ExprInd.
Variable P : Expr -> Prop.
Hypothesis HNumber : forall rt v, P (NumberLiteral rt v).
Hypothesis HString : forall rt v, P (StringLiteral rt v).
Hypothesis HNil : forall rt, P (NilLiteral rt).
Hypothesis HIdent : forall rt n, P (Identifier rt n).
Hypothesis HBinary : forall rt op l r, P l -> P r -> P (BinaryOp rt op l r).
Hypothesis HUnary : forall rt op e, P e -> P (UnaryOp rt op e).
Hypothesis HCompare : forall rt op l r, P l -> P r -> P (Comparison rt op l r).
Hypothesis HLogical : forall rt op l r, P l -> P r -> P (LogicalOp rt op l r).
Hypothesis HNot : forall rt e, P e -> P (NotOp rt e).
Hypothesis HCast : forall rt e, P e -> P (Cast rt e).
Hypothesis HArray : forall rt a i, P a -> P i -> P (ArrayAccess rt a i).
Hypothesis HField : forall rt r f, P r -> P (FieldAccess rt r f).
Hypothesis HDeref : forall rt p, P p -> P (Dereference rt p).
Hypothesis HAddr : forall rt e, P e -> P (AddressOf rt e).
Hypothesis HCall : forall rt t args, P t -> Forall P args -> P (Call rt t args).
Hypothesis HSizeOf : forall rt t, P (SizeOf rt t).
Hypothesis HBytesOf : forall rt t, P (BytesOf rt t).
Hypothesis HNext : forall rt p, P p -> P (Next rt p).
Hypothesis HPrev : forall rt p, P p -> P (Prev rt p).
Hypothesis HInit : forall rt l, P (ArrayInitializer rt l).
Hypothesis HOther : forall rt c, P (OtherExpr rt c).

Fixpoint Expr_nested_ind (e : Expr) : P e :=
  match e with
  | NumberLiteral rt v => HNumber rt v
  | StringLiteral rt v => HString rt v
  | NilLiteral rt => HNil rt
  | Identifier rt n => HIdent rt n
  | BinaryOp rt op l r =>
      HBinary rt op l r (Expr_nested_ind l) (Expr_nested_ind r)
  | UnaryOp rt op x => HUnary rt op x (Expr_nested_ind x)
  | Comparison rt op l r =>
      HCompare rt op l r (Expr_nested_ind l) (Expr_nested_ind r)
  | LogicalOp rt op l r =>
      HLogical rt op l r (Expr_nested_ind l) (Expr_nested_ind r)
  | NotOp rt x => HNot rt x (Expr_nested_ind x)
  | Cast rt x => HCast rt x (Expr_nested_ind x)
  | ArrayAccess rt a i =>
      HArray rt a i (Expr_nested_ind a) (Expr_nested_ind i)
  | FieldAccess rt r f => HField rt r f (Expr_nested_ind r)
  | Dereference rt p => HDeref rt p (Expr_nested_ind p)
  | AddressOf rt x => HAddr rt x (Expr_nested_ind x)
  | Call rt t args =>
      HCall rt t args (Expr_nested_ind t)
        ((fix go (l : list Expr) : Forall P l :=
            match l with
            | [] => Forall_nil P
            | x :: r => Forall_cons x (Expr_nested_ind x) (go r)
            end) args)
  | SizeOf rt t => HSizeOf rt t
  | BytesOf rt t => HBytesOf rt t
  | Next rt p => HNext rt p (Expr_nested_ind p)
  | Prev rt p => HPrev rt p (Expr_nested_ind p)
  | ArrayInitializer rt l => HInit rt l
  | OtherExpr rt c => HOther rt c
  end.
End ExprInd.

(** ** How the state evolves

    Lowering changes the state only through a handful of primitive moves.
    [dstep] lists those that touch the output, the label counter, the
    variable table and the string pool; expression lowering uses no other. *)

Section Evolution.

Variable checker : TypeChecker.

Inductive dstep : GenState -> GenState -> Prop :=
| dstep_emit line s :
    dstep s (set_output (output s ++ [line]) s)
| dstep_label s :
    dstep s (set_label_counter (label_counter s + 1) s)
| dstep_alloc name typ s :
    dstep s (set_variables
               (dict_set name
                  (mkVariable name typ (data_offset s)
                              (type_size checker typ))
                  (variables s))
               (data_offset s + type_size checker typ) s)
| dstep_string value s :
    dict_get value (string_literals s) = None ->
    dstep s (set_string_literals
               (dict_set value ("STR" +++ str_int (label_counter s + 1))
                         (string_literals s))
               (set_label_counter (label_counter s + 1) s)).

Inductive dreach : GenState -> GenState -> Prop :=
| dreach_refl s : dreach s s
| dreach_step s1 s2 s3 : dstep s1 s2 -> dreach s2 s3 -> dreach s1 s3.

(** Statements also move the control fields: the label stacks, the queue of
    nested subroutines and the current subroutine's name. *)
Inductive step : GenState -> GenState -> Prop :=
| step_data s s' : dstep s s' -> step s s'
| step_control cur br co ns s : step s (set_control cur br co ns s).

Inductive reach : GenState -> GenState -> Prop :=
| reach_refl s : reach s s
| reach_step s1 s2 s3 : step s1 s2 -> reach s2 s3 -> reach s1 s3.

Lemma dreach_trans s1 s2 s3 : dreach s1 s2 -> dreach s2 s3 -> dreach s1 s3.
Proof. induction 1; eauto using dreach. Qed.

Lemma reach_trans s1 s2 s3 : reach s1 s2 -> reach s2 s3 -> reach s1 s3.
Proof. induction 1; eauto using reach. Qed.

Lemma dreach_one s s' : dstep s s' -> dreach s s'.
Proof. eauto using dreach. Qed.

Lemma reach_one s s' : step s s' -> reach s s'.
Proof. eauto using reach. Qed.

Lemma dreach_reach s s' : dreach s s' -> reach s s'.
Proof. induction 1; eauto using reach, step. Qed.

(** Expression-level moves leave the control fields alone. *)
Definition same_control (s s' : GenState) : Prop :=
  current_sub s' = current_sub s /\ break_labels s' = break_labels s
  /\ continue_labels s' = continue_labels s /\ nested_subs s' = nested_subs s.

Lemma dstep_control s s' : dstep s s' -> same_control s s'.
Proof. destruct 1; repeat split. Qed.

Lemma dreach_control s s' : dreach s s' -> same_control s s'.
Proof.
  induction 1 as [|s1 s2 s3 H _ IH]; [repeat split|].
  apply dstep_control in H. unfold same_control in *.
  intuition congruence.
Qed.

(** *** What every move preserves *)

Lemma reach_output s s' : reach s s' -> exists d, output s' = output s ++ d.
Proof.
  induction 1 as [s|s1 s2 s3 H _ [d IH]].
  - exists []. now rewrite app_nil_r.
  - destruct H as [s s' H|]; [destruct H|]; simpl in IH;
      rewrite IH; try rewrite <- app_assoc; eauto.
Qed.

Lemma reach_label_counter s s' :
  reach s s' -> label_counter s <= label_counter s'.
Proof.
  induction 1 as [s|s1 s2 s3 H _ IH]; [lia|].
  destruct H as [s s' H|]; [destruct H|]; simpl in IH; lia.
Qed.

End Evolution.

(** ** Expression lowering always succeeds

    [esound m]: from every state [m] returns normally, having made only
    [dstep] moves. *)

Section Soundness.

Variable checker : TypeChecker.

Definition esound {A} (m : M A) : Prop :=
  forall s, exists a s', m s = Ok a s' /\ dreach checker s s'.

Lemma esound_ret {A} (a : A) : esound (ret a).
Proof. intros s. exists a, s. split; [reflexivity | constructor]. Qed.

Lemma esound_bind {A B} (m : M A) (k : A -> M B) :
  esound m -> (forall a, esound (k a)) -> esound (bind m k).
Proof.
  intros Hm Hk s. destruct (Hm s) as [a [s1 [E1 R1]]].
  destruct (Hk a s1) as [b [s2 [E2 R2]]].
  exists b, s2. unfold bind. rewrite E1. split; [exact E2|].
  eapply dreach_trans; eauto.
Qed.

Lemma esound_get : esound get.
Proof. intros s. exists s, s. split; [reflexivity | constructor]. Qed.

Lemma esound_emit line : esound (emit line).
Proof.
  intros s. eexists; eexists. split; [reflexivity|].
  apply dreach_one. constructor.
Qed.

Lemma esound_emit_label l : esound (emit_label l).
Proof.
  intros s. eexists; eexists. split; [reflexivity|].
  apply dreach_one. constructor.
Qed.

Lemma esound_new_label p : esound (new_label p).
Proof.
  intros s. eexists; eexists. split; [reflexivity|].
  apply dreach_one. constructor.
Qed.

Lemma esound_get_var n : esound (get_var n).
Proof. intros s. eexists; eexists. split; [reflexivity | constructor]. Qed.

Lemma esound_allocate_var n t : esound (allocate_var checker n t).
Proof.
  intros s. eexists; eexists. split; [reflexivity|].
  apply dreach_one. constructor.
Qed.

Lemma esound_get_string_label v : esound (get_string_label v).
Proof.
  intros s. unfold get_string_label.
  destruct (dict_get v (string_literals s)) eqn:E.
  - eexists; eexists. split; [reflexivity | constructor].
  - simpl.
    destruct (dict_get v (dict_set v _ (string_literals s)));
      (eexists; eexists; split; [reflexivity|]);
      apply dreach_one; now constructor.
Qed.

Lemma esound_for_each {A} (l : list A) (f : A -> M unit) :
  (forall x, In x l -> esound (f x)) -> esound (for_each l f).
Proof.
  induction l as [|x l IH]; intros H; simpl.
  - apply esound_ret.
  - apply esound_bind; [apply H; now left|].
    intros _. apply IH. intros y Hy. apply H. now right.
Qed.

Lemma esound_sequence (l : list (M unit)) :
  Forall esound l -> esound (sequence_ l).
Proof.
  induction 1; simpl; [apply esound_ret|].
  apply esound_bind; auto.
Qed.

End Soundness.

Create HintDb esound discriminated.
#[global] Hint Resolve esound_ret esound_get esound_emit esound_emit_label
  esound_new_label esound_get_var esound_allocate_var
  esound_get_string_label : esound.

Ltac head_of t := match t with ?f _ => head_of f | _ => t end.

(** One step of a syntax-directed proof of [esound]. *)
Ltac esound_step :=
  match goal with
  | |- esound _ (bind _ _) => apply esound_bind; [| intros ?]
  | |- esound _ _ => solve [auto with esound]
  | |- esound _ (gen_expr _ _ _) => fail 1
  | |- esound _ (when _ _) => unfold when
  | |- esound _ (if ?b then _ else _) => destruct b
  | |- esound _ (match ?x with _ => _ end) => destruct x
  | |- esound _ ?m => let h := head_of m in unfold h
  end.

Ltac esound_auto := repeat esound_step.

Lemma esound_add_field_offset ck fields field :
  esound ck (add_field_offset fields field).
Proof. induction fields; simpl; esound_auto. Qed.
#[global] Hint Resolve esound_add_field_offset : esound.

Lemma esound_call_cleanup ck n : esound ck (call_cleanup n).
Proof. esound_auto. Qed.
#[global] Hint Resolve esound_call_cleanup : esound.

(** [&] looks one level into its operand, so the induction carries the
    property of an operand's own operands along. *)
Definition with_operands (P : Expr -> Prop) (e : Expr) : Prop :=
  P e /\ match e with
         | FieldAccess _ r _ => P r
         | ArrayAccess _ a i => P a /\ P i
         | _ => True
         end.

Lemma gen_expr_sound_deep ck (e : Expr) :
  with_operands (fun e => forall target, esound ck (gen_expr ck e target)) e.
Proof.
  induction e using Expr_nested_ind; unfold with_operands in *;
    (split; [intros target; cbn [gen_expr] | try tauto]);
    try solve [intuition esound_auto].
  - (* AddressOf *)
    destruct IHe as [IH1 IH2].
    destruct e; try solve [esound_auto]; intuition esound_auto.
  - (* Call *)
    unfold gen_call.
    apply esound_bind.
    + apply esound_sequence. apply Forall_rev. apply Forall_map.
      eapply Forall_impl; [|eassumption].
      intros a [Ha _]. cbv beta. esound_auto.
    + intros _. destruct IHe as [IH _]. esound_auto.
Qed.

Theorem gen_expr_sound ck (e : Expr) (target : Target) :
  esound ck (gen_expr ck e target).
Proof. apply gen_expr_sound_deep. Qed.
#[global] Hint Resolve gen_expr_sound : esound.

(** The statement forms that lower without recursion into statements. *)

Lemma esound_store_to ck size dest : esound ck (store_to size dest).
Proof. esound_auto. Qed.
#[global] Hint Resolve esound_store_to : esound.

Lemma esound_gen_array_init_loop ck mangled elem_size elements offset :
  esound ck (gen_array_init_loop ck mangled elem_size elements offset).
Proof.
  revert offset. induction elements; intros offset; simpl; esound_auto.
Qed.
#[global] Hint Resolve esound_gen_array_init_loop : esound.

Lemma esound_gen_var_decl ck name rt tn init :
  esound ck (gen_var_decl ck name rt tn init).
Proof. esound_auto. Qed.

Lemma esound_gen_assignment ck target value :
  esound ck (gen_assignment ck target value).
Proof. esound_auto. Qed.

Lemma esound_gen_multi_targets ck i targets :
  esound ck (gen_multi_targets i targets).
Proof. revert i. induction targets; intros i; simpl; esound_auto. Qed.
#[global] Hint Resolve esound_gen_multi_targets : esound.

Lemma esound_gen_multi_assignment ck targets value :
  esound ck (gen_multi_assignment ck targets value).
Proof. esound_auto. Qed.

Lemma esound_gen_asm ck parts : esound ck (gen_asm ck parts).
Proof. esound_auto. Qed.

Lemma esound_gen_case_value ck next_when val :
  esound ck (gen_case_value ck next_when val).
Proof. esound_auto. Qed.

Lemma esound_case_values ck next_when values :
  esound ck (for_each values (gen_case_value ck next_when)).
Proof. apply esound_for_each. intros x _. esound_auto. Qed.
#[global] Hint Resolve esound_case_values : esound.

Lemma esound_gen_param_copies ck params offset :
  esound ck (gen_param_copies params offset).
Proof.
  revert offset. induction params as [|[n t] params IH]; intros offset; simpl;
    esound_auto.
Qed.

Lemma esound_gen_return_value ck returns :
  esound ck (gen_return_value returns).
Proof. esound_auto. Qed.

Lemma esound_allocate_all ck l : esound ck (allocate_all ck l).
Proof.
  unfold allocate_all. apply esound_for_each. intros x _. esound_auto.
Qed.

Lemma esound_allocate_globals ck stmts : esound ck (allocate_globals ck stmts).
Proof.
  unfold allocate_globals. apply esound_for_each. intros x _. esound_auto.
Qed.

#[global] Hint Resolve esound_gen_var_decl esound_gen_assignment
  esound_gen_multi_assignment esound_gen_asm esound_gen_case_value
  esound_gen_param_copies esound_gen_return_value esound_allocate_all
  esound_allocate_globals : esound.


(** ** Fuel that suffices

    [gen_stmt] hands the same fuel to every statement of a block, so a
    statement needs its own size plus the sizes of the subroutines that are
    waiting in the queue when it starts. *)

Fixpoint stmt_size (st : Stmt) : nat :=
  let block := fix block (l : list Stmt) : nat :=
    match l with
    | [] => O
    | x :: r => (stmt_size x + block r)%nat
    end in
  match st with
  | IfStmt _ then_body elseifs else_body =>
      S (block then_body
         + (fix arms (l : list (Expr * list Stmt)) : nat :=
              match l with
              | [] => O
              | (_, b) :: r => (block b + arms r)%nat
              end) elseifs
         + block else_body)
  | WhileStmt _ body | LoopStmt body => S (block body)
  | CaseStmt _ whens else_body =>
      S ((fix arms (l : list (list Expr * list Stmt)) : nat :=
            match l with
            | [] => O
            | (_, b) :: r => (block b + arms r)%nat
            end) whens
         + block else_body)
  | NestedSubStmt d | SubDeclStmt d => S (sub_size d)
  | _ => 1%nat
  end
with sub_size (d : SubDecl) : nat :=
  match d with
  | mkSubDecl _ _ _ _ body =>
      S (match body with
         | None => O
         | Some b =>
             (fix block (l : list Stmt) : nat :=
                match l with
                | [] => O
                | x :: r => (stmt_size x + block r)%nat
                end) b
         end)
  end.

Definition block_size (l : list Stmt) : nat := list_sum (map stmt_size l).

Definition arms_size {A} (l : list (A * list Stmt)) : nat :=
  list_sum (map (fun arm => block_size (snd arm)) l).

Definition queue_size (s : GenState) : nat :=
  list_sum (map sub_size (nested_subs s)).

Definition program_size (p : Program) : nat :=
  (block_size (declarations p) + block_size (statements p))%nat.

Lemma block_size_eq (l : list Stmt) :
  (fix block (l : list Stmt) : nat :=
     match l with
     | [] => O
     | x :: r => (stmt_size x + block r)%nat
     end) l = block_size l.
Proof. induction l as [|x l IH]; [reflexivity|]. unfold block_size. simpl. now rewrite IH. Qed.

Lemma arms_size_eq {A} (l : list (A * list Stmt)) :
  (fix arms (l : list (A * list Stmt)) : nat :=
     match l with
     | [] => O
     | (_, b) :: r =>
         ((fix block (l : list Stmt) : nat :=
             match l with
             | [] => O
             | x :: r => (stmt_size x + block r)%nat
             end) b + arms r)%nat
     end) l = arms_size l.
Proof.
  induction l as [|[c b] l IH]; [reflexivity|].
  unfold arms_size. simpl. now rewrite IH, block_size_eq.
Qed.

Lemma stmt_size_if c tb eis eb :
  stmt_size (IfStmt c tb eis eb)
  = S (block_size tb + arms_size eis + block_size eb).
Proof. simpl. now rewrite !block_size_eq, arms_size_eq. Qed.

Lemma stmt_size_while c b : stmt_size (WhileStmt c b) = S (block_size b).
Proof. simpl. now rewrite block_size_eq. Qed.

Lemma stmt_size_loop b : stmt_size (LoopStmt b) = S (block_size b).
Proof. simpl. now rewrite block_size_eq. Qed.

Lemma stmt_size_case e ws eb :
  stmt_size (CaseStmt e ws eb) = S (arms_size ws + block_size eb).
Proof. simpl. now rewrite !block_size_eq, arms_size_eq. Qed.

Lemma sub_size_body n x p r b :
  sub_size (mkSubDecl n x p r (Some b)) = S (block_size b).
Proof. simpl. now rewrite block_size_eq. Qed.

Lemma stmt_size_pos st : (1 <= stmt_size st)%nat.
Proof. destruct st; simpl; lia. Qed.

(** ** Statement lowering succeeds with enough fuel *)

Section Totality.

Variable checker : TypeChecker.

(** What a statement leaves behind: a reachable state with both label
    stacks as they were. *)
Definition sreach (s s' : GenState) : Prop :=
  reach checker s s' /\ break_labels s' = break_labels s
  /\ continue_labels s' = continue_labels s.

(** [spec f n m]: when the queue leaves [n] units of the fuel [f] free, [m]
    returns normally and lets the queue grow by at most [n]. *)
Definition spec (f n : nat) {A} (m : M A) : Prop :=
  forall s, (queue_size s + n <= f)%nat ->
    exists a s', m s = Ok a s' /\ sreach s s'
                 /\ (queue_size s' <= queue_size s + n)%nat.

Lemma sreach_refl s : sreach s s.
Proof. repeat split. constructor. Qed.

Lemma sreach_trans s1 s2 s3 : sreach s1 s2 -> sreach s2 s3 -> sreach s1 s3.
Proof.
  intros [R1 [B1 C1]] [R2 [B2 C2]]. repeat split; try congruence.
  eapply reach_trans; eauto.
Qed.

Lemma dreach_sreach s s' :
  dreach checker s s' -> sreach s s' /\ queue_size s' = queue_size s.
Proof.
  intros H. pose proof (dreach_control _ _ _ H) as [_ [B [C N]]].
  unfold queue_size. rewrite N. repeat split; auto.
  now apply dreach_reach.
Qed.

Lemma spec_esound f n {A} (m : M A) : esound checker m -> spec f n m.
Proof.
  intros H s _. destruct (H s) as [a [s' [E R]]].
  apply dreach_sreach in R. destruct R as [R Q].
  exists a, s'. repeat split; try apply R; auto. lia.
Qed.

Lemma spec_weaken f n n' {A} (m : M A) :
  spec f n m -> (n <= n')%nat -> spec f n' m.
Proof.
  intros H Hn s Hs. destruct (H s) as [a [s' [E [R Q]]]]; [lia|].
  exists a, s'. repeat split; try apply R; auto. lia.
Qed.

Lemma spec_bind f n1 n {A B} (m : M A) (k : A -> M B) :
  spec f n1 m -> (forall a, spec f (n - n1) (k a)) -> (n1 <= n)%nat ->
  spec f n (bind m k).
Proof.
  intros Hm Hk Hn s Hs.
  destruct (Hm s) as [a [s1 [E1 [R1 Q1]]]]; [lia|].
  destruct (Hk a s1) as [b [s2 [E2 [R2 Q2]]]]; [lia|].
  exists b, s2. unfold bind. rewrite E1.
  split; [exact E2|]. split; [eapply sreach_trans; eauto | lia].
Qed.

Lemma spec_bind_e f n {A B} (m : M A) (k : A -> M B) :
  esound checker m -> (forall a, spec f n (k a)) -> spec f n (bind m k).
Proof.
  intros Hm Hk. apply (spec_bind f 0 n); [now apply spec_esound | | lia].
  intros a. rewrite Nat.sub_0_r. apply Hk.
Qed.

Lemma spec_control f n (g : GenState -> GenState) :
  (forall s, exists cur, g s = set_control cur (break_labels s)
                                 (continue_labels s) (nested_subs s) s) ->
  spec f n (modify g).
Proof.
  intros Hg s _. destruct (Hg s) as [cur E].
  exists tt, (g s). unfold modify. split; [reflexivity|].
  rewrite E. unfold queue_size. repeat split; simpl; try lia.
  apply reach_one. apply step_control.
Qed.

Lemma spec_for_each f {A} (size : A -> nat) (l : list A) (g : A -> M unit) :
  (forall x, In x l -> spec f (size x) (g x)) ->
  spec f (list_sum (map size l)) (for_each l g).
Proof.
  induction l as [|x l IH]; intros H; simpl.
  - apply spec_esound, esound_ret.
  - apply (spec_bind f (size x)); [apply H; now left | | lia].
    intros _. replace (size x + list_sum (map size l) - size x)%nat
      with (list_sum (map size l)) by lia.
    apply IH. intros y Hy. apply H. now right.
Qed.

(** Inside a loop: [spec_in_loop f n m] is [spec] for code that runs with
    one more label on each stack and pops both at its end. *)
Definition spec_in_loop (f n : nat) {A} (m : M A) : Prop :=
  forall s B C b c,
    break_labels s = B ++ [b] -> continue_labels s = C ++ [c] ->
    (queue_size s + n <= f)%nat ->
    exists a s', m s = Ok a s' /\ reach checker s s'
                 /\ break_labels s' = B /\ continue_labels s' = C
                 /\ (queue_size s' <= queue_size s + n)%nat.

Lemma pop_break_last s B b :
  break_labels s = B ++ [b] -> pop_break s = Ok tt (set_break_labels B s).
Proof.
  intros H. unfold pop_break. rewrite H.
  rewrite <- (removelast_last B b) at 2.
  destruct (B ++ [b]) eqn:E; [destruct B; discriminate | reflexivity].
Qed.

Lemma pop_continue_last s C c :
  continue_labels s = C ++ [c] ->
  pop_continue s = Ok tt (set_continue_labels C s).
Proof.
  intros H. unfold pop_continue. rewrite H.
  rewrite <- (removelast_last C c) at 2.
  destruct (C ++ [c]) eqn:E; [destruct C; discriminate | reflexivity].
Qed.

Lemma spec_in_loop_pops f n : spec_in_loop f n (pop_break ;; pop_continue).
Proof.
  intros s B C b c HB HC _.
  unfold bind. rewrite (pop_break_last s B b HB).
  rewrite (pop_continue_last _ C c) by exact HC.
  eexists; eexists. split; [reflexivity|].
  unfold queue_size. simpl. repeat split; try lia.
  eapply reach_step; [apply step_control|].
  apply reach_one; apply step_control.
Qed.

Lemma spec_in_loop_bind f n1 n {A B} (m : M A) (k : A -> M B) :
  spec f n1 m -> (forall a, spec_in_loop f (n - n1) (k a)) -> (n1 <= n)%nat ->
  spec_in_loop f n (bind m k).
Proof.
  intros Hm Hk Hn s B0 C0 b c HB HC Hs.
  destruct (Hm s) as [a [s1 [E1 [[R1 [B1 C1]] Q1]]]]; [lia|].
  destruct (Hk a s1 B0 C0 b c) as [x [s2 [E2 [R2 [B2 [C2 Q2]]]]]];
    try congruence; [lia|].
  exists x, s2. unfold bind. rewrite E1.
  split; [exact E2|]. repeat split; auto; [|lia].
  eapply reach_trans; eauto.
Qed.

Lemma spec_in_loop_bind_e f n {A B} (m : M A) (k : A -> M B) :
  esound checker m -> (forall a, spec_in_loop f n (k a)) ->
  spec_in_loop f n (bind m k).
Proof.
  intros Hm Hk. apply (spec_in_loop_bind f 0 n); [now apply spec_esound | | lia].
  intros a. rewrite Nat.sub_0_r. apply Hk.
Qed.

Lemma spec_push f n b c {A} (m : M A) :
  spec_in_loop f n m -> spec f n (push_break b ;; push_continue c ;; m).
Proof.
  intros H s Hs. unfold bind, push_break, push_continue, modify.
  match goal with |- context [m ?s1] => set (s1' := s1) end.
  destruct (H s1' (break_labels s) (continue_labels s) b c)
    as [a [s2 [E [R [B [C Q]]]]]]; try reflexivity; [exact Hs|].
  exists a, s2. split; [exact E|]. repeat split; auto.
  eapply reach_step; [apply step_control|].
  eapply reach_step; [apply step_control|]. exact R.
Qed.

End Totality.

Lemma spec_S ck f n {A} (m : M A) : spec ck f n m -> spec ck (S f) (S n) m.
Proof.
  intros H s Hs. destruct (H s) as [a [s' [E [R Q]]]]; [lia|].
  exists a, s'. repeat split; try apply R; auto. lia.
Qed.

Lemma spec_when ck f n b (m : M unit) :
  spec ck f n m -> spec ck f n (when b m).
Proof. destruct b; [auto | intros _; apply spec_esound, esound_ret]. Qed.

Create HintDb spec discriminated.

(** The cost of the first action of a sequence, found by unification. *)
Ltac spec_head :=
  match goal with
  | |- spec _ _ _ (when _ _) => apply spec_when; spec_head
  | |- spec _ _ _ (bind _ _) =>
      apply spec_bind_e; [solve [esound_auto] | intros ?; spec_head]
  | |- spec _ _ _ _ => solve [eauto with spec]
  end.

(** One step of a syntax-directed proof of [spec]: code that lowers only
    expressions costs nothing, a block of statements costs its size. *)
Ltac spec_step :=
  match goal with
  | |- spec _ _ _ (bind get _) => fail 1
  | |- spec _ _ _ (bind _ _) =>
      first [ apply spec_bind_e; [solve [esound_auto] | intros ?]
            | eapply spec_bind; [solve [spec_head] | intros ? | try lia] ]
  | |- spec _ _ _ _ => solve [apply spec_esound; esound_auto]
  | |- spec _ _ _ _ => solve [eapply spec_weaken; [eauto with spec | lia]]
  | |- spec _ _ _ (when _ _) => unfold when
  | |- spec _ _ _ (if ?b then _ else _) => destruct b
  | |- spec _ _ _ (match ?x with _ => _ end) => destruct x
  end.

Ltac loop_step :=
  match goal with
  | |- spec_in_loop _ _ _ (bind pop_break _) => apply spec_in_loop_pops
  | |- spec_in_loop _ _ _ (bind _ _) =>
      first [ apply spec_in_loop_bind_e; [solve [esound_auto] | intros ?]
            | eapply spec_in_loop_bind;
              [solve [eauto with spec] | intros ? | try lia] ]
  end.

Section Blocks.

Variable ck : TypeChecker.
Variable f : nat.
Variable gs : Stmt -> M unit.
Variable gsub : SubDecl -> M unit.
Hypothesis Hgs : forall st, spec ck f (stmt_size st) (gs st).
Hypothesis Hgsub : forall d, spec ck f (sub_size d) (gsub d).

Lemma spec_block (l : list Stmt) : spec ck f (block_size l) (for_each l gs).
Proof. apply spec_for_each. intros x _. apply Hgs. Qed.
#[local] Hint Resolve spec_block : spec.

Lemma spec_gen_elseifs elseifs else_body else_label end_label :
  spec ck f (arms_size elseifs)
       (gen_elseifs ck gs elseifs else_body else_label end_label).
Proof.
  revert else_label.
  induction elseifs as [|[cond body] rest IH]; intros else_label; simpl.
  - apply spec_esound, esound_ret.
  - unfold arms_size. simpl. fold (arms_size rest).
    repeat spec_step.
Qed.
#[local] Hint Resolve spec_gen_elseifs : spec.

Lemma spec_gen_if condition then_body elseifs else_body :
  spec ck f (block_size then_body + arms_size elseifs + block_size else_body)
       (gen_if ck gs condition then_body elseifs else_body).
Proof. unfold gen_if. repeat spec_step. Qed.

Lemma spec_gen_while condition body :
  spec ck f (block_size body) (gen_while ck gs condition body).
Proof.
  unfold gen_while. repeat spec_step.
  apply spec_push. repeat loop_step.
Qed.

Lemma spec_gen_loop body : spec ck f (block_size body) (gen_loop gs body).
Proof.
  unfold gen_loop. repeat spec_step.
  apply spec_push. repeat loop_step.
Qed.

Lemma spec_gen_case expr whens else_body :
  spec ck f (arms_size whens + block_size else_body)
       (gen_case ck gs expr whens else_body).
Proof.
  unfold gen_case. repeat spec_step.
  eapply spec_bind; [| intros ? | apply Nat.le_add_r].
  - unfold arms_size.
    apply (spec_for_each ck f (fun arm => block_size (snd arm))).
    intros [values body] _. simpl. repeat spec_step.
  - repeat spec_step.
Qed.

(** The queue is emptied before its subroutines run, so draining it needs
    nothing beyond what the queue already holds. *)
Lemma spec_drain n (k : M unit) :
  spec ck f n k ->
  spec ck f n
    (s <- get ;;
     when (nonempty (nested_subs s))
       (modify (fun s => set_nested_subs [] s) ;;
        for_each (nested_subs s) gsub) ;;
     k).
Proof.
  intros Hk s Hs. unfold bind at 1. unfold get.
  destruct (nested_subs s) as [|d q] eqn:E.
  - cbn [nonempty when]. unfold bind, ret. apply Hk, Hs.
  - cbn [nonempty when]. unfold bind, modify.
    destruct (spec_for_each ck f sub_size (d :: q) gsub
                (fun x _ => Hgsub x) (set_nested_subs [] s))
      as [a [s1 [E1 [[R1 [B1 C1]] Q1]]]].
    { unfold queue_size in *. rewrite E in Hs. simpl in *. lia. }
    rewrite E1.
    assert (Q1' : (queue_size s1 <= queue_size s)%nat).
    { unfold queue_size in *. rewrite E. simpl in *. lia. }
    destruct (Hk s1) as [b [s2 [E2 [[R2 [B2 C2]] Q2]]]]; [lia|].
    exists b, s2. split; [exact E2|]. split.
    + split; [| simpl in B1, C1; split; congruence].
      eapply reach_step; [apply step_control|].
      eapply reach_trans; eauto.
    + lia.
Qed.

Lemma spec_gen_sub_body decl :
  spec ck (S f) (sub_size decl) (gen_sub_body ck gs gsub decl).
Proof.
  destruct decl as [name ext params returns [body|]]; unfold gen_sub_body;
    cbn [sd_body sd_name sd_extern_name sd_params sd_returns].
  - rewrite sub_size_body. apply spec_S.
    eapply spec_bind; [apply (spec_control ck f 0) | intros ? | apply Nat.le_0_l].
    { intros s. eexists. reflexivity. }
    rewrite Nat.sub_0_r.
    match goal with
    | |- context [let (_, _) := ?x in _] => destruct x as [ps rs]
    end.
    repeat spec_step.
    apply spec_drain.
    apply spec_control. intros s. eexists. reflexivity.
  - apply spec_esound, esound_ret.
Qed.

Lemma spec_gen_stmt_body st :
  spec ck (S f) (stmt_size st) (gen_stmt_body ck gs gsub st).
Proof.
  destruct st; unfold gen_stmt_body;
    try solve [apply spec_esound; esound_auto].
  - rewrite stmt_size_if. apply spec_S, spec_gen_if.
  - rewrite stmt_size_while. apply spec_S, spec_gen_while.
  - rewrite stmt_size_loop. apply spec_S, spec_gen_loop.
  - rewrite stmt_size_case. apply spec_S, spec_gen_case.
  - (* NestedSubStmt *)
    intros s Hs. exists tt. eexists. split; [reflexivity|].
    unfold queue_size in *. simpl. rewrite map_app, list_sum_app. simpl.
    repeat split; try lia.
    apply reach_one. apply step_control.
  - (* SubDeclStmt *)
    cbn [stmt_size]. apply spec_S, Hgsub.
Qed.

End Blocks.

(** With fuel for its own size and for the queue, a statement or a
    subroutine is lowered without running out of fuel and without an
    exception, and the label stacks are back where they were. *)
Theorem gen_total ck (fuel : nat) :
  (forall st, spec ck fuel (stmt_size st) (gen_stmt ck fuel st))
  /\ (forall d, spec ck fuel (sub_size d) (gen_sub ck fuel d)).
Proof.
  induction fuel as [|f [IHs IHd]].
  - split; intros x s Hs; exfalso.
    + pose proof (stmt_size_pos x). lia.
    + destruct x. simpl in Hs. lia.
  - split; intros x; cbn [gen_stmt gen_sub].
    + now apply spec_gen_stmt_body.
    + now apply spec_gen_sub_body.
Qed.

(** ** Dictionaries *)

Section DictFacts.
Context {V : Type}.
Implicit Types (d : list (string * V)) (k : string) (v : V).

Lemma dict_get_None k d : dict_get k d = None <-> ~ In k (keys d).
Proof.
  induction d as [|[k' v'] d IH]; simpl; [tauto|].
  destruct (String.eqb_spec k k') as [->|N].
  - split; [discriminate | intros H; exfalso; apply H; now left].
  - rewrite IH. split; [intros H [E|I]; [congruence | tauto] | tauto].
Qed.

Lemma dict_get_In k v d : dict_get k d = Some v -> In (k, v) d.
Proof.
  induction d as [|[k' v'] d IH]; simpl; [discriminate|].
  destruct (String.eqb_spec k k') as [->|N].
  - intros [= ->]. now left.
  - intros H. right. auto.
Qed.

Lemma dict_get_set_same k v d : dict_get k (dict_set k v d) = Some v.
Proof.
  induction d as [|[k' v'] d IH]; simpl.
  - now rewrite String.eqb_refl.
  - destruct (String.eqb_spec k k') as [->|N]; simpl.
    + now rewrite String.eqb_refl.
    + apply String.eqb_neq in N. now rewrite N.
Qed.

Lemma dict_get_set_other k k' v d :
  k <> k' -> dict_get k' (dict_set k v d) = dict_get k' d.
Proof.
  intros N. induction d as [|[k0 v0] d IH]; simpl.
  - apply not_eq_sym, String.eqb_neq in N. now rewrite N.
  - destruct (String.eqb_spec k k0) as [->|N0]; simpl.
    + apply not_eq_sym, String.eqb_neq in N. now rewrite N.
    + now rewrite IH.
Qed.

Lemma dict_set_absent k v d :
  dict_get k d = None -> dict_set k v d = d ++ [(k, v)].
Proof.
  induction d as [|[k' v'] d IH]; simpl; [reflexivity|].
  destruct (String.eqb_spec k k'); [discriminate|].
  intros H. now rewrite IH.
Qed.

Lemma keys_set_present k v v0 d :
  dict_get k d = Some v0 -> keys (dict_set k v d) = keys d.
Proof.
  induction d as [|[k' v'] d IH]; simpl; [discriminate|].
  destruct (String.eqb_spec k k'); [reflexivity|].
  intros H. simpl. now rewrite IH.
Qed.

Lemma keys_set_incl k v d k' : In k' (keys d) -> In k' (keys (dict_set k v d)).
Proof.
  destruct (dict_get k d) eqn:E.
  - now rewrite (keys_set_present _ _ _ _ E).
  - rewrite (dict_set_absent _ _ _ E). unfold keys. rewrite map_app.
    intros H. apply in_or_app. now left.
Qed.

Lemma keys_set_NoDup k v d : NoDup (keys d) -> NoDup (keys (dict_set k v d)).
Proof.
  intros H. destruct (dict_get k d) eqn:E.
  - now rewrite (keys_set_present _ _ _ _ E).
  - rewrite (dict_set_absent _ _ _ E). unfold keys. rewrite map_app. simpl.
    apply dict_get_None in E.
    clear - H E. induction d as [|[k' v'] d IH]; simpl in *.
    + constructor; [tauto | constructor].
    + inversion H; subst. constructor.
      * rewrite in_app_iff. simpl. intros [I|[I|[]]]; [tauto|].
        subst. tauto.
      * apply IH; tauto.
Qed.

Lemma dict_set_In k v d k' v' :
  In (k', v') (dict_set k v d) -> (k' = k /\ v' = v) \/ In (k', v') d.
Proof.
  induction d as [|[k0 v0] d IH]; simpl.
  - intros [[= <- <-]|[]]. now left.
  - destruct (String.eqb_spec k k0) as [->|N]; simpl.
    + intros [[= <- <-]|I]; [now left | right; now right].
    + intros [E|I]; [right; now left|].
      destruct (IH I); [now left | right; now right].
Qed.

(** With distinct keys, a key's entry is the only one the key selects. *)
Lemma filter_key_unique k v d :
  NoDup (keys d) -> dict_get k d = Some v ->
  filter (fun e => String.eqb (fst e) k) d = [(k, v)].
Proof.
  induction d as [|[k' v'] d IH]; simpl; [discriminate|].
  intros ND. inversion ND as [|? ? Hn ND']; subst.
  rewrite (String.eqb_sym k' k).
  destruct (String.eqb_spec k k') as [->|N].
  - intros [= ->]. f_equal.
    clear IH ND ND'. induction d as [|[k0 v0] d IH]; simpl in *; [reflexivity|].
    destruct (String.eqb_spec k0 k') as [->|N0]; [tauto|].
    apply IH. tauto.
  - intros H. now apply IH.
Qed.

Lemma dict_get_split k v d :
  NoDup (keys d) -> dict_get k d = Some v ->
  exists pre post, d = pre ++ (k, v) :: post
                   /\ ~ In k (keys pre) /\ ~ In k (keys post).
Proof.
  induction d as [|[k' v'] d IH]; simpl; [discriminate|].
  intros ND. inversion ND as [|? ? Hn ND']; subst.
  destruct (String.eqb_spec k k') as [->|N].
  - intros [= ->]. exists [], d. simpl. tauto.
  - intros H. destruct (IH ND' H) as [pre [post [E [A B]]]].
    exists ((k', v') :: pre), post. subst d. simpl.
    repeat split; auto. intros [X|X]; [congruence | tauto].
Qed.
End DictFacts.

(** ** Invariants of a generation run *)

Section Invariants.

Variable ck : TypeChecker.

Definition var_entry_ok (e : string * VariableInfo) : Prop :=
  var_name (snd e) = fst e
  /\ var_size (snd e) = type_size ck (var_type (snd e)).

Definition str_entry_ok (counter : Z) (e : string * string) : Prop :=
  exists n, snd e = "STR" +++ str_int n /\ 1 <= n <= counter.

Record wf (s : GenState) : Prop := mkWf {
  wf_counter : 0 <= label_counter s;
  wf_var_keys : NoDup (keys (variables s));
  wf_var_entries : Forall var_entry_ok (variables s);
  wf_str_keys : NoDup (keys (string_literals s));
  wf_str_labels : NoDup (map snd (string_literals s));
  wf_str_entries :
    Forall (str_entry_ok (label_counter s)) (string_literals s)
}.

Lemma wf_init : wf init_state.
Proof. constructor; simpl; try constructor; lia. Qed.

Lemma str_entry_ok_mono c c' e : c <= c' -> str_entry_ok c e -> str_entry_ok c' e.
Proof. intros H [n [E B]]. exists n. split; [exact E | lia]. Qed.

Lemma wf_dstep s s' : dstep ck s s' -> wf s -> wf s'.
Proof.
  intros H [Hc Hk He Hsk Hsl Hse]. destruct H; constructor; simpl; auto;
    try lia.
  - (* new label: entries stay below the counter *)
    eapply Forall_impl; [|exact Hse]. intros e. apply str_entry_ok_mono. lia.
  - (* allocate: keys *)
    now apply keys_set_NoDup.
  - (* allocate: entries *)
    apply Forall_forall. intros [k v] I.
    apply dict_set_In in I. destruct I as [[-> ->]|I].
    + split; reflexivity.
    + rewrite Forall_forall in He. now apply He.
  - (* string: keys *)
    now apply keys_set_NoDup.
  - (* string: labels *)
    rewrite (dict_set_absent _ _ _ H), map_app. simpl.
    apply NoDup_app; [exact Hsl | repeat constructor; simpl; tauto |].
    intros l I [<-|[]].
    apply in_map_iff in I. destruct I as [e [E I]].
    rewrite Forall_forall in Hse. destruct (Hse e I) as [n [En Bn]].
    rewrite E in En. simpl in En. injection En as En.
    apply str_int_inj in En. lia.
  - (* string: entries *)
    rewrite (dict_set_absent _ _ _ H). apply Forall_app. split.
    + eapply Forall_impl; [|exact Hse]. intros e. apply str_entry_ok_mono. lia.
    + repeat constructor. exists (label_counter s + 1). simpl. split; [reflexivity | lia].
Qed.

Lemma wf_step s s' : step ck s s' -> wf s -> wf s'.
Proof.
  destruct 1 as [s s' H|]; [now apply wf_dstep|].
  intros [Hc Hk He Hsk Hsl Hse]. constructor; simpl; auto.
Qed.

Lemma wf_reach s s' : reach ck s s' -> wf s -> wf s'.
Proof. induction 1; eauto using wf_step. Qed.

(** A variable, once allocated, stays in the table. *)
Lemma reach_var_keys s s' k :
  reach ck s s' -> In k (keys (variables s)) -> In k (keys (variables s')).
Proof.
  induction 1 as [s|s1 s2 s3 H _ IH]; [auto|]. intros I. apply IH.
  destruct H as [s s' H|]; [destruct H|]; simpl; auto.
  now apply keys_set_incl.
Qed.

(** A string, once interned, keeps its label. *)
Lemma reach_string_label s s' v l :
  reach ck s s' -> dict_get v (string_literals s) = Some l ->
  dict_get v (string_literals s') = Some l.
Proof.
  induction 1 as [s|s1 s2 s3 H _ IH]; [auto|]. intros G. apply IH.
  destruct H as [s s' H|]; [destruct H|]; simpl; auto.
  rewrite dict_get_set_other; [exact G|]. congruence.
Qed.

End Invariants.

(** ** The shape of a generated program *)

Definition main_intro : list string :=
  [EmptyString; "; Main program"; "_main:"]%string.

Definition data_intro : list string :=
  [ins "JMP" "0"; EmptyString; "; Data segment"; "_data:"]%string.

Definition outro : list string := [EmptyString; ins0 "END"].

Lemma set_output_same s : set_output (output s) s = s.
Proof. now destruct s. Qed.

Lemma for_each_emit {A} (g : A -> string) (l : list A) s :
  for_each l (fun x => emit (g x)) s
  = Ok tt (set_output (output s ++ map g l) s).
Proof.
  revert s. induction l as [|x l IH]; intros s; cbn [for_each map].
  - unfold ret. now rewrite app_nil_r, set_output_same.
  - unfold bind, emit, modify. rewrite IH. cbn [output set_output].
    now rewrite <- app_assoc.
Qed.

Lemma for_each_emit_lines (l : list string) s :
  for_each l emit s = Ok tt (set_output (output s ++ l) s).
Proof.
  rewrite <- (map_id l) at 2. apply (for_each_emit (fun x => x)).
Qed.

(** Running a sequence whose first action is known. *)
Lemma bind_run {A B} (m : M A) (k : A -> M B) s a s1 :
  m s = Ok a s1 -> bind m k s = k a s1.
Proof. intros H. unfold bind. now rewrite H. Qed.

Lemma bind_emit {B} line (k : unit -> M B) s :
  bind (emit line) k s = k tt (set_output (output s ++ [line]) s).
Proof. reflexivity. Qed.

Lemma bind_emit_label {B} l (k : unit -> M B) s :
  bind (emit_label l) k s = k tt (set_output (output s ++ [l +++ ":"]) s).
Proof. reflexivity. Qed.

Lemma bind_get {B} (k : GenState -> M B) s : bind get k s = k s s.
Proof. reflexivity. Qed.

Lemma bind_ret {A B} (a : A) (k : A -> M B) s : bind (ret a) k s = k a s.
Proof. reflexivity. Qed.

Lemma bind_modify {B} g (k : unit -> M B) s :
  bind (modify g) k s = k tt (g s).
Proof. reflexivity. Qed.

Lemma bind_new_label {B} p (k : string -> M B) s :
  bind (new_label p) k s
  = k (p +++ str_int (label_counter s + 1))
      (set_label_counter (label_counter s + 1) s).
Proof. reflexivity. Qed.

(** A sequence that returns has run its first action to a state from
    which the rest returns. *)
Lemma bind_ok {A B} (m : M A) (k : A -> M B) s b s' :
  bind m k s = Ok b s' -> exists a s1, m s = Ok a s1 /\ k a s1 = Ok b s'.
Proof.
  unfold bind. destruct (m s) as [a s1| |]; try discriminate. eauto.
Qed.

(** Lines emitted one after the other are appended together. *)
Lemma set_output_app s a b :
  set_output (output (set_output (output s ++ a) s) ++ b)
             (set_output (output s ++ a) s)
  = set_output (output s ++ a ++ b) s.
Proof. unfold set_output. cbn. now rewrite <- app_assoc. Qed.

Lemma reach_set_output ck s lines :
  reach ck s (set_output (output s ++ lines) s).
Proof.
  destruct (esound_for_each ck lines emit (fun x _ => esound_emit ck x) s)
    as [[] [s' [E D]]].
  rewrite for_each_emit_lines in E. injection E as <-.
  now apply dreach_reach.
Qed.

Section ProgramShape.

Variable ck : TypeChecker.

(** A statement met while a block is lowered is lowered from a state the
    block reached, and the block's final state is reached from there. *)
Lemma for_each_spec_In f {A} (size : A -> nat) (l : list A) (g : A -> M unit)
    (x : A) s :
  (forall y, In y l -> spec ck f (size y) (g y)) ->
  (queue_size s + list_sum (map size l) <= f)%nat -> In x l ->
  exists sa sb sF,
    for_each l g s = Ok tt sF /\ reach ck s sa /\ g x sa = Ok tt sb
    /\ reach ck sb sF.
Proof.
  revert s. induction l as [|y l IH]; intros s H Hs I; [destruct I|].
  simpl in Hs.
  destruct (H y (or_introl eq_refl) s) as [[] [s1 [E1 [[R1 _] Q1]]]]; [lia|].
  destruct (spec_for_each ck f size l g (fun z Hz => H z (or_intror Hz)) s1)
    as [[] [s2 [E2 [[R2 _] Q2]]]]; [lia|].
  destruct I as [->|I].
  - exists s, s1, s2. simpl. unfold bind. rewrite E1.
    repeat split; auto. constructor.
  - destruct (IH s1 (fun z Hz => H z (or_intror Hz))) as [sa [sb [sF [E [Ra [Eb Rb]]]]]];
      [lia | exact I |].
    exists sa, sb, sF. simpl. unfold bind. rewrite E1.
    repeat split; auto. eapply reach_trans; eauto.
Qed.

Lemma spec_gen_decl fuel decl :
  spec ck fuel (stmt_size decl)
    (match decl with
     | SubDeclStmt d => gen_sub ck fuel d
     | _ => ret tt
     end).
Proof.
  destruct decl; try (apply spec_esound, esound_ret).
  eapply spec_weaken; [apply gen_total | simpl; lia].
Qed.

(** [generate] returns for every program, given fuel for the program's
    size; its output is the header, the subroutines, the main program and
    the data segment built from the final variable table and string pool. *)
Theorem generate_shape (fuel : nat) (p : Program) :
  (program_size p <= fuel)%nat ->
  exists out sF s4 s5 subs,
    generate ck fuel p = Ok out sF
    /\ out = join NL (output sF)
    /\ reach ck init_state s4
    /\ output s4 = header ++ subs ++ main_intro
    /\ (queue_size s4 + block_size (statements p) <= fuel)%nat
    /\ for_each (statements p) (gen_stmt ck fuel) s4 = Ok tt s5
    /\ reach ck s4 s5
    /\ reach ck s5 sF
    /\ variables sF = variables s5
    /\ string_literals sF = string_literals s5
    /\ output sF = output s5 ++ data_intro
                   ++ map ds_line (variables sF)
                   ++ map db_line (string_literals sF) ++ outro.
Proof.
  intros Hf. unfold program_size in Hf.
  unfold generate, gen_program.
  (* header *)
  rewrite (bind_run _ _ _ _ _ (for_each_emit_lines header init_state)).
  pose proof (reach_set_output ck init_state header) as R1.
  change (output init_state ++ header) with header in *.
  set (s1 := set_output header init_state) in *.
  assert (Q1 : queue_size s1 = O) by reflexivity.
  assert (O1 : output s1 = header) by reflexivity.
  clearbody s1.
  (* globals *)
  destruct (esound_allocate_globals ck (statements p) s1)
    as [[] [s2 [E2 D2]]].
  rewrite (bind_run _ _ _ _ _ E2).
  apply dreach_sreach in D2. destruct D2 as [[R2 _] Q2].
  (* subroutines *)
  destruct (spec_for_each ck fuel stmt_size (declarations p) _
              (fun x _ => spec_gen_decl fuel x) s2)
    as [[] [s3 [E3 [[R3 _] Q3]]]].
  { fold (block_size (declarations p)). lia. }
  rewrite (bind_run _ _ _ _ _ E3).
  fold (block_size (declarations p)) in Q3.
  destruct (reach_output ck _ _ (reach_trans ck _ _ _ R2 R3)) as [subs O3].
  rewrite O1 in O3.
  (* main program *)
  rewrite !bind_emit, bind_emit_label.
  match goal with
  | |- context [bind (for_each (statements p) _) _ ?s] => set (s4 := s)
  end.
  assert (R34 : reach ck s3 s4).
  { unfold s4. eapply reach_trans; [|apply reach_set_output].
    eapply reach_trans; apply reach_set_output. }
  assert (Q4 : queue_size s4 = queue_size s3) by reflexivity.
  assert (O4 : output s4 = header ++ subs ++ main_intro).
  { unfold s4. cbn [output set_output]. rewrite O3.
    rewrite <- !app_assoc. reflexivity. }
  clearbody s4.
  destruct (spec_for_each ck fuel stmt_size (statements p) _
              (fun x _ => proj1 (gen_total ck fuel) x) s4)
    as [[] [s5 [E5 [[R5 _] Q5]]]].
  { fold (block_size (statements p)). lia. }
  rewrite (bind_run _ _ _ _ _ E5).
  (* data segment *)
  rewrite !bind_emit, bind_emit_label, bind_get.
  rewrite (bind_run _ _ _ _ _ (for_each_emit _ _ _)).
  rewrite (bind_run _ _ _ _ _ (for_each_emit _ _ _)).
  rewrite !bind_emit, bind_get. unfold ret.
  eexists; eexists; exists s4, s5, subs.
  split; [reflexivity|]. split; [reflexivity|].
  split; [eauto using reach_trans|].
  split; [exact O4|].
  split; [fold (block_size (statements p)) in *; lia|].
  split; [exact E5|]. split; [exact R5|].
  split.
  { repeat (eapply reach_trans; [|apply reach_set_output]). constructor. }
  split; [reflexivity|]. split; [reflexivity|].
  cbn [output set_output variables string_literals].
  rewrite <- !app_assoc. reflexivity.
Qed.

End ProgramShape.

(** ** The frame of an expression

    The same syntax-directed argument as for [esound], for any relation on
    states that is a preorder and holds across the three moves expression
    lowering makes: emit a line, take a label, intern a new string. *)

Create HintDb keeps discriminated.

Section ExprFrame.

Variable ck : TypeChecker.
Variable R : GenState -> GenState -> Prop.
Hypothesis R_refl : forall s, R s s.
Hypothesis R_trans : forall s1 s2 s3, R s1 s2 -> R s2 s3 -> R s1 s3.
Hypothesis R_emit : forall line s, R s (set_output (output s ++ [line]) s).
Hypothesis R_label :
  forall s, R s (set_label_counter (label_counter s + 1) s).
Hypothesis R_string :
  forall value s, dict_get value (string_literals s) = None ->
    R s (set_string_literals
           (dict_set value ("STR" +++ str_int (label_counter s + 1))
                     (string_literals s))
           (set_label_counter (label_counter s + 1) s)).

Definition keeps {A} (m : M A) : Prop :=
  forall s, exists a s', m s = Ok a s' /\ R s s'.

Lemma keeps_ret {A} (a : A) : keeps (ret a).
Proof. intros s. exists a, s. auto. Qed.

Lemma keeps_bind {A B} (m : M A) (k : A -> M B) :
  keeps m -> (forall a, keeps (k a)) -> keeps (bind m k).
Proof.
  intros Hm Hk s. destruct (Hm s) as [a [s1 [E1 R1]]].
  destruct (Hk a s1) as [b [s2 [E2 R2]]].
  exists b, s2. unfold bind. rewrite E1. eauto.
Qed.

Lemma keeps_emit line : keeps (emit line).
Proof. intros s. eexists; eexists. split; [reflexivity | apply R_emit]. Qed.

Lemma keeps_emit_label l : keeps (emit_label l).
Proof. intros s. eexists; eexists. split; [reflexivity | apply R_emit]. Qed.

Lemma keeps_new_label p : keeps (new_label p).
Proof. intros s. eexists; eexists. split; [reflexivity | apply R_label]. Qed.

Lemma keeps_get_var n : keeps (get_var n).
Proof. intros s. eexists; eexists. split; [reflexivity | apply R_refl]. Qed.

Lemma keeps_get_string_label v : keeps (get_string_label v).
Proof.
  intros s. unfold get_string_label.
  destruct (dict_get v (string_literals s)) eqn:E.
  - eexists; eexists. split; [reflexivity | apply R_refl].
  - simpl.
    destruct (dict_get v (dict_set v _ (string_literals s)));
      (eexists; eexists; split; [reflexivity|]); now apply R_string.
Qed.

Lemma keeps_sequence (l : list (M unit)) :
  Forall keeps l -> keeps (sequence_ l).
Proof.
  induction 1; simpl; [apply keeps_ret|]. apply keeps_bind; auto.
Qed.

#[local] Hint Resolve keeps_ret keeps_emit keeps_emit_label keeps_new_label
  keeps_get_var keeps_get_string_label : keeps.

Ltac keeps_step :=
  match goal with
  | |- keeps (bind _ _) => apply keeps_bind; [| intros ?]
  | |- keeps _ => solve [auto with keeps]
  | |- keeps (gen_expr _ _ _) => fail 1
  | |- keeps (when _ _) => unfold when
  | |- keeps (if ?b then _ else _) => destruct b
  | |- keeps (match ?x with _ => _ end) => destruct x
  | |- keeps ?m => let h := head_of m in unfold h
  end.

Ltac keeps_auto := repeat keeps_step.

Lemma keeps_add_field_offset fields field :
  keeps (add_field_offset fields field).
Proof. induction fields; simpl; keeps_auto. Qed.
#[local] Hint Resolve keeps_add_field_offset : keeps.

Lemma gen_expr_keeps_deep (e : Expr) :
  with_operands (fun e => forall target, keeps (gen_expr ck e target)) e.
Proof.
  induction e using Expr_nested_ind; unfold with_operands in *;
    (split; [intros target; cbn [gen_expr] | try tauto]);
    try solve [intuition keeps_auto].
  - destruct IHe as [IH1 IH2].
    destruct e; try solve [keeps_auto]; intuition keeps_auto.
  - unfold gen_call.
    apply keeps_bind.
    + apply keeps_sequence. apply Forall_rev. apply Forall_map.
      eapply Forall_impl; [|eassumption].
      intros a [Ha _]. cbv beta. keeps_auto.
    + intros _. destruct IHe as [IH _]. keeps_auto.
Qed.

Lemma gen_expr_keeps (e : Expr) (target : Target) :
  keeps (gen_expr ck e target).
Proof. apply gen_expr_keeps_deep. Qed.

End ExprFrame.

(** The frame of an expression: lines are only added, the counter only
    grows, interned strings keep their labels, and nothing else moves. *)
Definition expr_frame (s s' : GenState) : Prop :=
  (exists d, output s' = output s ++ d)
  /\ data s' = data s
  /\ variables s' = variables s
  /\ data_offset s' = data_offset s
  /\ current_sub s' = current_sub s
  /\ break_labels s' = break_labels s
  /\ continue_labels s' = continue_labels s
  /\ nested_subs s' = nested_subs s
  /\ label_counter s <= label_counter s'
  /\ (forall v l, dict_get v (string_literals s) = Some l ->
                  dict_get v (string_literals s') = Some l).

Lemma expr_frame_refl s : expr_frame s s.
Proof.
  unfold expr_frame. repeat split; auto; try lia.
  exists []. now rewrite app_nil_r.
Qed.

Lemma expr_frame_trans s1 s2 s3 :
  expr_frame s1 s2 -> expr_frame s2 s3 -> expr_frame s1 s3.
Proof.
  unfold expr_frame.
  intros [[d1 O1] [D1 [V1 [F1 [C1 [B1 [K1 [N1 [L1 S1]]]]]]]]]
         [[d2 O2] [D2 [V2 [F2 [C2 [B2 [K2 [N2 [L2 S2]]]]]]]]].
  repeat split; try congruence; try lia; auto.
  exists (d1 ++ d2). now rewrite O2, O1, app_assoc.
Qed.

Lemma gen_expr_framed ck (e : Expr) (target : Target) (s : GenState) :
  exists s', gen_expr ck e target s = Ok tt s' /\ expr_frame s s'.
Proof.
  destruct (gen_expr_keeps ck expr_frame expr_frame_refl expr_frame_trans)
    with (e := e) (target := target) (s := s) as [[] [s' [E F]]].
  - intros line s0. unfold expr_frame. simpl. repeat split; auto; try lia.
    eauto.
  - intros s0. unfold expr_frame. simpl. repeat split; auto; try lia.
    exists []. now rewrite app_nil_r.
  - intros value s0 G. unfold expr_frame. simpl.
    repeat split; auto; try lia.
    + exists []. now rewrite app_nil_r.
    + intros v l H. rewrite dict_get_set_other; [exact H | congruence].
  - exists s'. auto.
Qed.

(** ** Subroutines: heading, code, queue *)

Lemma esound_queue ck {A} (m : M A) (s : GenState) :
  esound ck m ->
  exists a s' d, m s = Ok a s' /\ output s' = output s ++ d
                 /\ queue_size s' = queue_size s.
Proof.
  intros H. destruct (H s) as [a [s' [E D]]].
  destruct (reach_output ck _ _ (dreach_reach ck _ _ D)) as [d O].
  apply dreach_sreach in D. destruct D as [_ Q].
  exists a, s', d. auto.
Qed.

(** The parameters and returns a subroutine is lowered with: those the
    checker records for its name, else those of the declaration. *)
Definition sub_signature ck (decl : SubDecl)
    : list (string * CowType) * list (string * CowType) :=
  match dict_get (sd_name decl) (subroutines ck) with
  | Some sub_info => (sub_params sub_info, sub_returns sub_info)
  | None => (resolve_decls ck (sd_params decl),
             resolve_decls ck (sd_returns decl))
  end.

(** The lines that announce an extern alias. *)
Definition extern_lines (extern_name : option string) : list string :=
  match extern_name with
  | Some e => if nonempty_str e then [ins "PUBLIC" e; e +++ ":"] else []
  | None => []
  end.

(** The state in which the code of a subroutine starts: its name is the
    current one and its heading has been emitted. *)
Definition enter_sub (decl : SubDecl) (s : GenState) : GenState :=
  set_output (output s
              ++ [EmptyString; "; Subroutine " +++ sd_name decl]
              ++ extern_lines (sd_extern_name decl)
              ++ [mangle_sub_name (sd_name decl) +++ ":"])
             (set_current_sub (Some (sd_name decl)) s).

(** The code of a subroutine up to its [RET]: slots, parameter copies,
    body and the load of the return value. *)
Definition sub_code ck (gen_stmt : Stmt -> M unit)
    (params returns : list (string * CowType)) (body : list Stmt) : M unit :=
  allocate_all ck params ;;
  allocate_all ck returns ;;
  gen_param_copies params 2 ;;
  for_each body gen_stmt ;;
  gen_return_value returns.

(** The end of [gen_sub]: the nested subroutines that wait, then leaving
    the subroutine. *)
Definition drain_and_leave (gsub : SubDecl -> M unit) : M unit :=
  s <- get ;;
  when (nonempty (nested_subs s))
    (modify (fun s => set_nested_subs [] s) ;;
     for_each (nested_subs s) gsub) ;;
  modify (fun s => set_current_sub None s).

(** [drains ck fuel]: a subroutine that returns leaves the queue empty, when
    it has a body or found the queue empty. *)
Definition drains ck (fuel : nat) : Prop :=
  forall d s s', (sub_size d + queue_size s <= fuel)%nat ->
    gen_sub ck fuel d s = Ok tt s' ->
    sd_body d <> None \/ nested_subs s = [] -> nested_subs s' = [].

Lemma gen_sub_until_ret ck (f : nat) name ext params returns body s :
  (block_size body + queue_size s <= f)%nat ->
  let d := mkSubDecl name ext params returns (Some body) in
  exists s6,
    sub_code ck (gen_stmt ck f) (fst (sub_signature ck d))
             (snd (sub_signature ck d)) body (enter_sub d s) = Ok tt s6
    /\ gen_sub ck (S f) d s
       = drain_and_leave (gen_sub ck f)
           (set_output (output s6 ++ [ins0 "RET"]) s6)
    /\ (queue_size s6 <= f)%nat.
Proof.
  intros Hf d.
  destruct (sub_signature ck d) as [ps rs] eqn:Sig. cbn [fst snd].
  set (s1 := enter_sub d s).
  assert (Q1 : queue_size s1 = queue_size s) by reflexivity.
  destruct (esound_queue ck (allocate_all ck ps) s1 (esound_allocate_all ck ps))
    as [[] [s2 [da [E2 [O2 Q2]]]]].
  destruct (esound_queue ck (allocate_all ck rs) s2 (esound_allocate_all ck rs))
    as [[] [s3 [db [E3 [O3 Q3]]]]].
  destruct (esound_queue ck (gen_param_copies ps 2) s3
              (esound_gen_param_copies ck ps 2))
    as [[] [s4 [dc [E4 [O4 Q4]]]]].
  destruct (spec_block ck f (gen_stmt ck f)
              (proj1 (gen_total ck f)) body s4)
    as [[] [s5 [E5 [_ Q5]]]]; [lia|].
  destruct (esound_queue ck (gen_return_value rs) s5
              (esound_gen_return_value ck rs))
    as [[] [s6 [de [E6 [O6 Q6]]]]].
  exists s6. split; [|split; [|lia]].
  - unfold sub_code.
    rewrite (bind_run _ _ _ _ _ E2), (bind_run _ _ _ _ _ E3),
      (bind_run _ _ _ _ _ E4), (bind_run _ _ _ _ _ E5). exact E6.
  - change (gen_sub ck (S f) d)
      with (gen_sub_body ck (gen_stmt ck f) (gen_sub ck f) d).
    unfold gen_sub_body. fold (sub_signature ck d). rewrite Sig.
    unfold d. cbn [sd_body sd_name sd_extern_name sd_params sd_returns].
    fold d. rewrite bind_modify, !bind_emit.
    match goal with
    | |- context [bind ?m _ ?st] =>
        assert (X : m st
                    = Ok tt (set_output (output st ++ extern_lines ext) st))
    end.
    { destruct ext as [e|]; cbn [extern_lines].
      - destruct (nonempty_str e).
        + rewrite bind_emit. unfold emit_label, modify.
          now rewrite set_output_app.
        + unfold ret. now rewrite app_nil_r, set_output_same.
      - unfold ret. now rewrite app_nil_r, set_output_same. }
    rewrite (bind_run _ _ _ _ _ X), bind_emit_label. clear X.
    rewrite !set_output_app.
    change (set_output ?o (set_current_sub (Some name) s)) with s1.
    rewrite (bind_run _ _ _ _ _ E2), (bind_run _ _ _ _ _ E3),
      (bind_run _ _ _ _ _ E4), (bind_run _ _ _ _ _ E5),
      (bind_run _ _ _ _ _ E6), bind_emit.
    reflexivity.
Qed.

Lemma for_each_drained ck (f : nat) (l : list SubDecl) :
  drains ck f ->
  forall s s', nested_subs s = [] ->
    (list_sum (map sub_size l) <= f)%nat ->
    for_each l (gen_sub ck f) s = Ok tt s' -> nested_subs s' = [].
Proof.
  intros D. induction l as [|x r IH]; intros s s' N L E.
  - injection E as <-. exact N.
  - cbn [for_each] in E. unfold bind in E.
    destruct (gen_sub ck f x s) as [[] s1| |] eqn:E1; try discriminate.
    change (sub_size x + list_sum (map sub_size r) <= f)%nat in L.
    apply (IH s1 s'); [|lia|exact E].
    apply (D x s s1); [|exact E1|now right].
    unfold queue_size. rewrite N.
    change (list_sum (map sub_size [])) with 0%nat. lia.
Qed.

Lemma drain_and_leave_empties ck (f : nat) (s s' : GenState) :
  drains ck f -> (queue_size s <= f)%nat ->
  drain_and_leave (gen_sub ck f) s = Ok tt s' ->
  nested_subs s' = [] /\ current_sub s' = None.
Proof.
  intros D Q E. unfold drain_and_leave in E. rewrite bind_get in E.
  destruct (nested_subs s) as [|d q] eqn:N; cbn [nonempty when] in E.
  - rewrite bind_ret in E. injection E as <-. split; [exact N|reflexivity].
  - unfold bind at 1 in E. rewrite bind_modify in E.
    destruct (for_each (d :: q) (gen_sub ck f) (set_nested_subs [] s))
      as [[] s1| |] eqn:E1; try discriminate.
    injection E as <-. split; [|reflexivity].
    apply (for_each_drained ck f (d :: q) D (set_nested_subs [] s) s1);
      [reflexivity| |exact E1].
    unfold queue_size in Q. now rewrite N in Q.
Qed.

(** A subroutine with a body leaves no nested subroutine waiting. *)
Lemma gen_sub_drains ck (fuel : nat) : drains ck fuel.
Proof.
  induction fuel as [|f IH]; intros d s s' Q E H.
  - discriminate E.
  - destruct d as [name ext params returns [body|]].
    + rewrite sub_size_body in Q.
      destruct (gen_sub_until_ret ck f name ext params returns body s)
        as [s6 [_ [E7 Q6]]]; [lia|].
      rewrite E7 in E.
      apply (drain_and_leave_empties ck f
               (set_output (output s6 ++ [ins0 "RET"]) s6) s' IH Q6 E).
    + destruct H as [H|H]; [now elim H|].
      injection E as <-. exact H.
Qed.

Lemma set_nested_subs_same s : nested_subs s = [] -> set_nested_subs [] s = s.
Proof. destruct s. cbn. now intros ->. Qed.

(** ** The parts of [gen_program] *)

(** What [gen_program] does after the subroutine declarations. *)
Definition gen_program_main ck (fuel : nat) (program : Program) : M string :=
  emit EmptyString ;;
  emit "; Main program" ;;
  emit_label "_main" ;;
  for_each (statements program) (gen_stmt ck fuel) ;;
  emit (ins "JMP" "0") ;;
  emit EmptyString ;;
  emit "; Data segment" ;;
  emit_label "_data" ;;
  s <- get ;;
  for_each (variables s) (fun entry => emit (ds_line entry)) ;;
  for_each (string_literals s) (fun entry => emit (db_line entry)) ;;
  emit EmptyString ;;
  emit (ins0 "END") ;;
  s <- get ;;
  ret (join NL (output s)).

(** The lowering of one entry of [program.declarations]. *)
Definition gen_decl ck (fuel : nat) (decl : Stmt) : M unit :=
  match decl with
  | SubDeclStmt d => gen_sub ck fuel d
  | _ => ret tt
  end.

Lemma gen_program_unfold ck fuel p :
  gen_program ck fuel p
  = (for_each header emit ;;
     allocate_globals ck (statements p) ;;
     for_each (declarations p) (gen_decl ck fuel) ;;
     gen_program_main ck fuel p).
Proof. reflexivity. Qed.

Lemma for_each_app_run {A} (a b : list A) (f : A -> M unit) s s1 :
  for_each a f s = Ok tt s1 -> for_each (a ++ b) f s = for_each b f s1.
Proof.
  revert s. induction a as [|x a IH]; intros s E.
  - injection E as <-. reflexivity.
  - change (for_each ((x :: a) ++ b) f s)
      with (bind (f x) (fun _ => for_each (a ++ b) f) s).
    change (bind (f x) (fun _ => for_each a f) s = Ok tt s1) in E.
    unfold bind in *. destruct (f x s) as [[] s0| |]; try discriminate.
    now apply IH.
Qed.

Lemma for_each_app_ok {A} (a b : list A) (f : A -> M unit) s s' :
  for_each (a ++ b) f s = Ok tt s' ->
  exists s1, for_each a f s = Ok tt s1 /\ for_each b f s1 = Ok tt s'.
Proof.
  revert s. induction a as [|x a IH]; intros s E.
  - exists s. split; [reflexivity | exact E].
  - change (bind (f x) (fun _ => for_each (a ++ b) f) s = Ok tt s') in E.
    apply bind_ok in E. destruct E as [[] [s0 [E0 E1]]].
    destruct (IH _ E1) as [s1 [Ea Eb]]. exists s1. split; [|exact Eb].
    change (bind (f x) (fun _ => for_each a f) s = Ok tt s1).
    now rewrite (bind_run _ _ _ _ _ E0).
Qed.

(** ** Slots that later code may allocate

    The variable table has one key space for globals, locals, parameters
    and returns.  [stmt_ok sub_ok decl_ok] checks a statement, with all the
    statements and subroutines nested in it, for the slots it may allocate:
    [sub_ok] judges the parameters and returns of every subroutine with a
    body, [decl_ok] the name and type of every variable declaration. *)

(** The type a declaration allocates its variable with. *)
Definition decl_type ck (vd_resolved : CowType) (type_name : option TypeExpr)
    (init : option Expr) : CowType :=
  let var_type :=
    if truthy_type vd_resolved then vd_resolved
    else match type_name with
         | Some tn => resolve_type ck tn
         | None =>
             match init with
             | Some e => if truthy_type (resolved_type e)
                         then resolved_type e else TNone
             | None => TNone
             end
         end in
  if truthy_type var_type then var_type else UINT16.

Section SlotCheck.

Variable ck : TypeChecker.
Variables sub_ok decl_ok : string -> CowType -> bool.

Definition sig_ok (d : SubDecl) : bool :=
  forallb (fun p => sub_ok (fst p) (snd p))
          (fst (sub_signature ck d) ++ snd (sub_signature ck d)).

Fixpoint stmt_ok (st : Stmt) : bool :=
  let block := fix block (l : list Stmt) : bool :=
    match l with
    | [] => true
    | x :: r => (stmt_ok x && block r)%bool
    end in
  match st with
  | VarDecl name rt tn init => decl_ok name (decl_type ck rt tn init)
  | IfStmt _ then_body elseifs else_body =>
      (block then_body
       && (fix arms (l : list (Expr * list Stmt)) : bool :=
             match l with
             | [] => true
             | (_, b) :: r => (block b && arms r)%bool
             end) elseifs
       && block else_body)%bool
  | WhileStmt _ body | LoopStmt body => block body
  | CaseStmt _ whens else_body =>
      ((fix arms (l : list (list Expr * list Stmt)) : bool :=
          match l with
          | [] => true
          | (_, b) :: r => (block b && arms r)%bool
          end) whens
       && block else_body)%bool
  | NestedSubStmt d | SubDeclStmt d => sub_decl_ok d
  | _ => true
  end
with sub_decl_ok (d : SubDecl) : bool :=
  match d with
  | mkSubDecl _ _ _ _ body =>
      match body with
      | None => true
      | Some b =>
          (sig_ok d
           && (fix block (l : list Stmt) : bool :=
                 match l with
                 | [] => true
                 | x :: r => (stmt_ok x && block r)%bool
                 end) b)%bool
      end
  end.

Definition block_ok (l : list Stmt) : bool := forallb stmt_ok l.

Definition arms_ok {A} (l : list (A * list Stmt)) : bool :=
  forallb (fun arm => block_ok (snd arm)) l.

Lemma block_ok_eq (l : list Stmt) :
  (fix block (l : list Stmt) : bool :=
     match l with
     | [] => true
     | x :: r => (stmt_ok x && block r)%bool
     end) l = block_ok l.
Proof.
  induction l as [|x l IH]; [reflexivity|].
  unfold block_ok. cbn [forallb]. now rewrite IH.
Qed.

Lemma arms_ok_eq {A} (l : list (A * list Stmt)) :
  (fix arms (l : list (A * list Stmt)) : bool :=
     match l with
     | [] => true
     | (_, b) :: r =>
         ((fix block (l : list Stmt) : bool :=
             match l with
             | [] => true
             | x :: r => (stmt_ok x && block r)%bool
             end) b && arms r)%bool
     end) l = arms_ok l.
Proof.
  induction l as [|[c b] l IH]; [reflexivity|].
  unfold arms_ok. cbn [forallb snd]. now rewrite IH, block_ok_eq.
Qed.

Lemma stmt_ok_if c tb eis eb :
  stmt_ok (IfStmt c tb eis eb)
  = (block_ok tb && arms_ok eis && block_ok eb)%bool.
Proof. cbn [stmt_ok]. now rewrite !block_ok_eq, arms_ok_eq. Qed.

Lemma stmt_ok_while c b : stmt_ok (WhileStmt c b) = block_ok b.
Proof. cbn [stmt_ok]. now rewrite block_ok_eq. Qed.

Lemma stmt_ok_loop b : stmt_ok (LoopStmt b) = block_ok b.
Proof. cbn [stmt_ok]. now rewrite block_ok_eq. Qed.

Lemma stmt_ok_case e ws eb :
  stmt_ok (CaseStmt e ws eb) = (arms_ok ws && block_ok eb)%bool.
Proof. cbn [stmt_ok]. now rewrite !block_ok_eq, arms_ok_eq. Qed.

Lemma sub_decl_ok_body n x p r b :
  sub_decl_ok (mkSubDecl n x p r (Some b))
  = (sig_ok (mkSubDecl n x p r (Some b)) && block_ok b)%bool.
Proof. cbn [sub_decl_ok]. now rewrite block_ok_eq. Qed.

Lemma block_ok_In l x : block_ok l = true -> In x l -> stmt_ok x = true.
Proof. unfold block_ok. rewrite forallb_forall. auto. Qed.

Lemma arms_ok_In {A} (l : list (A * list Stmt)) a b :
  arms_ok l = true -> In (a, b) l -> block_ok b = true.
Proof.
  unfold arms_ok. rewrite forallb_forall. intros H I. exact (H _ I).
Qed.

End SlotCheck.

(** ** What lowering preserves of the variable table

    [pres m]: when [m] returns, a property [J] of the variable table that
    held before holds after, and the subroutines in the queue are still all
    checked.  The property has to survive the allocations the check lets
    through: a slot of a subroutine that [sub_ok] accepts, and a declared
    variable that [decl_ok] accepts and that is not yet in the table. *)

Create HintDb pres discriminated.

Section Preserve.

Variable ck : TypeChecker.
Variable J : list (string * VariableInfo) -> Prop.
Variables sub_ok decl_ok : string -> CowType -> bool.
Hypothesis J_sub :
  forall k t off V, sub_ok k t = true -> J V ->
    J (dict_set k (mkVariable k t off (type_size ck t)) V).
Hypothesis J_decl :
  forall k t off V, decl_ok k t = true -> dict_get k V = None -> J V ->
    J (dict_set k (mkVariable k t off (type_size ck t)) V).

Definition Jq (s : GenState) : Prop :=
  J (variables s)
  /\ forallb (sub_decl_ok ck sub_ok decl_ok) (nested_subs s) = true.

Definition pres {A} (m : M A) : Prop :=
  forall s a s', Jq s -> m s = Ok a s' -> Jq s'.

Lemma pres_ret {A} (a : A) : pres (ret a).
Proof. intros s b s' H E. inversion E; subst. exact H. Qed.

Lemma pres_bind {A B} (m : M A) (k : A -> M B) :
  pres m -> (forall a, pres (k a)) -> pres (bind m k).
Proof.
  intros Hm Hk s b s' H E. apply bind_ok in E.
  destruct E as [a [s1 [E1 E2]]]. eapply Hk; [|exact E2]. eapply Hm; eauto.
Qed.

Lemma pres_for_each {A} (l : list A) (f : A -> M unit) :
  (forall x, In x l -> pres (f x)) -> pres (for_each l f).
Proof.
  induction l as [|x l IH]; intros H; cbn [for_each].
  - apply pres_ret.
  - apply pres_bind; [apply H; now left|].
    intros _. apply IH. intros y Hy. apply H. now right.
Qed.

(** Whatever leaves the table and the queue alone preserves. *)
Lemma pres_same {A} (m : M A) :
  (forall s a s', m s = Ok a s' ->
     variables s' = variables s /\ nested_subs s' = nested_subs s) ->
  pres m.
Proof.
  intros H s a s' [HJ HQ] E. destruct (H s a s' E) as [V N].
  unfold Jq. now rewrite V, N.
Qed.

Lemma pres_get : pres get.
Proof. apply pres_same. intros s a s' E. inversion E. split; reflexivity. Qed.

Lemma pres_emit line : pres (emit line).
Proof. apply pres_same. intros s a s' E. inversion E. split; reflexivity. Qed.

Lemma pres_emit_label l : pres (emit_label l).
Proof. apply pres_same. intros s a s' E. inversion E. split; reflexivity. Qed.

Lemma pres_new_label p : pres (new_label p).
Proof. apply pres_same. intros s a s' E. inversion E. split; reflexivity. Qed.

Lemma pres_get_var n : pres (get_var n).
Proof. apply pres_same. intros s a s' E. inversion E. split; reflexivity. Qed.

Lemma pres_push_break l : pres (push_break l).
Proof. apply pres_same. intros s a s' E. inversion E. split; reflexivity. Qed.

Lemma pres_push_continue l : pres (push_continue l).
Proof. apply pres_same. intros s a s' E. inversion E. split; reflexivity. Qed.

Lemma pres_pop_break : pres pop_break.
Proof.
  apply pres_same. intros s a s'. unfold pop_break.
  destruct (break_labels s); [discriminate|]. intros E; inversion E. split; reflexivity.
Qed.

Lemma pres_pop_continue : pres pop_continue.
Proof.
  apply pres_same. intros s a s'. unfold pop_continue.
  destruct (continue_labels s); [discriminate|]. intros E; inversion E. split; reflexivity.
Qed.

Lemma pres_get_string_label v : pres (get_string_label v).
Proof.
  apply pres_same. intros s a s'. unfold get_string_label.
  destruct (dict_get v (string_literals s)).
  - intros E; inversion E. split; reflexivity.
  - cbn. destruct (dict_get v (dict_set v _ (string_literals s)));
      intros E; inversion E; split; reflexivity.
Qed.

Lemma pres_gen_expr e target : pres (gen_expr ck e target).
Proof.
  apply pres_same. intros s a s' E.
  destruct (gen_expr_framed ck e target s)
    as [s0 [E0 [_ [_ [V [_ [_ [_ [_ [N _]]]]]]]]]].
  rewrite E0 in E. inversion E; subst. split; assumption.
Qed.

#[local] Hint Resolve pres_ret pres_get pres_emit pres_emit_label
  pres_new_label pres_get_var pres_push_break pres_push_continue
  pres_pop_break pres_pop_continue pres_get_string_label pres_gen_expr
  : pres.

Ltac pres_step :=
  match goal with
  | |- pres (bind _ _) => apply pres_bind; [| intros ?]
  | |- pres _ => solve [auto with pres]
  | |- pres (gen_expr _ _ _) => fail 1
  | |- pres (when _ _) => unfold when
  | |- pres (if ?b then _ else _) => destruct b
  | |- pres (match ?x with _ => _ end) => destruct x
  | |- pres ?m => let h := head_of m in unfold h
  end.

Ltac pres_auto := repeat pres_step.

Lemma pres_add_field_offset fields field :
  pres (add_field_offset fields field).
Proof. induction fields; cbn [add_field_offset]; pres_auto. Qed.
#[local] Hint Resolve pres_add_field_offset : pres.

Lemma pres_gen_array_init_loop mangled elem_size elements offset :
  pres (gen_array_init_loop ck mangled elem_size elements offset).
Proof.
  revert offset.
  induction elements; intros offset; cbn [gen_array_init_loop]; pres_auto.
Qed.
#[local] Hint Resolve pres_gen_array_init_loop : pres.

Lemma pres_gen_multi_targets i targets : pres (gen_multi_targets i targets).
Proof.
  revert i. induction targets; intros i; cbn [gen_multi_targets]; pres_auto.
Qed.
#[local] Hint Resolve pres_gen_multi_targets : pres.

Lemma pres_gen_assignment target value :
  pres (gen_assignment ck target value).
Proof. pres_auto. Qed.

Lemma pres_gen_multi_assignment targets value :
  pres (gen_multi_assignment ck targets value).
Proof. pres_auto. Qed.

Lemma pres_gen_asm parts : pres (gen_asm ck parts).
Proof. pres_auto. Qed.

Lemma pres_gen_case_value next_when val :
  pres (gen_case_value ck next_when val).
Proof. pres_auto. Qed.

Lemma pres_gen_param_copies params offset :
  pres (gen_param_copies params offset).
Proof.
  revert offset. induction params as [|[n t] params IH]; intros offset;
    cbn [gen_param_copies]; pres_auto.
Qed.

Lemma pres_gen_return_value returns : pres (gen_return_value returns).
Proof. pres_auto. Qed.

#[local] Hint Resolve pres_gen_assignment pres_gen_multi_assignment
  pres_gen_asm pres_gen_case_value pres_gen_param_copies
  pres_gen_return_value : pres.

(** A declaration allocates only a name that is not in the table. *)
Lemma pres_gen_var_decl name rt tn init :
  decl_ok name (decl_type ck rt tn init) = true ->
  pres (gen_var_decl ck name rt tn init).
Proof.
  intros Hd. unfold gen_var_decl. cbv zeta. fold (decl_type ck rt tn init).
  intros s a s' H E. apply bind_ok in E. destruct E as [v [s1 [E1 E2]]].
  unfold get_var in E1. inversion E1; subst v s1. clear E1.
  destruct (dict_get name (variables s)) eqn:G.
  - inversion E2; subst. exact H.
  - apply bind_ok in E2. destruct E2 as [var [s2 [E2 E3]]].
    unfold allocate_var in E2. inversion E2; subst var s2. clear E2.
    match type of E3 with
    | ?m ?st = _ => assert (P : pres m) by pres_auto; apply (P st a s')
    end; [|exact E3].
    destruct H as [HJ HQ]. split; [|exact HQ].
    cbn [variables set_variables]. now apply J_decl.
Qed.

Lemma pres_allocate_all (l : list (string * CowType)) :
  forallb (fun p => sub_ok (fst p) (snd p)) l = true ->
  pres (allocate_all ck l).
Proof.
  intros H. unfold allocate_all. apply pres_for_each. intros [k t] I.
  rewrite forallb_forall in H. specialize (H _ I). cbn [fst snd] in *.
  apply pres_bind; [|intros _; apply pres_ret].
  intros s a s' [HJ HQ] E. inversion E; subst. split; [|exact HQ].
  cbn [variables set_variables]. now apply J_sub.
Qed.

(** *** Statements *)

Section PreserveBlocks.

Variable gs : Stmt -> M unit.
Variable gsub : SubDecl -> M unit.
Hypothesis Hgs :
  forall st, stmt_ok ck sub_ok decl_ok st = true -> pres (gs st).
Hypothesis Hgsub :
  forall d, sub_decl_ok ck sub_ok decl_ok d = true -> pres (gsub d).

Lemma pres_block (l : list Stmt) :
  block_ok ck sub_ok decl_ok l = true -> pres (for_each l gs).
Proof.
  intros H. apply pres_for_each. intros x I. apply Hgs.
  eapply block_ok_In; eauto.
Qed.

Lemma pres_gen_elseifs elseifs else_body else_label end_label :
  arms_ok ck sub_ok decl_ok elseifs = true ->
  pres (gen_elseifs ck gs elseifs else_body else_label end_label).
Proof.
  revert else_label.
  induction elseifs as [|[cond body] rest IH]; intros else_label H;
    cbn [gen_elseifs].
  - apply pres_ret.
  - unfold arms_ok in H. cbn [forallb snd] in H.
    apply andb_prop in H. destruct H as [Hb Hr].
    pose proof (pres_block body Hb). pose proof (IH) as IH'.
    repeat first [ apply IH; exact Hr | assumption | pres_step ].
Qed.

Lemma pres_gen_if condition then_body elseifs else_body :
  stmt_ok ck sub_ok decl_ok (IfStmt condition then_body elseifs else_body)
  = true ->
  pres (gen_if ck gs condition then_body elseifs else_body).
Proof.
  rewrite stmt_ok_if. intros H.
  apply andb_prop in H. destruct H as [H He].
  apply andb_prop in H. destruct H as [Ht Ha].
  pose proof (pres_block _ Ht). pose proof (pres_block _ He).
  pose proof (fun l1 l2 =>
                pres_gen_elseifs elseifs else_body l1 l2 Ha) as Pe.
  unfold gen_if. repeat first [ apply Pe | assumption | pres_step ].
Qed.

Lemma pres_gen_while condition body :
  block_ok ck sub_ok decl_ok body = true ->
  pres (gen_while ck gs condition body).
Proof.
  intros H. pose proof (pres_block _ H).
  unfold gen_while. repeat first [ assumption | pres_step ].
Qed.

Lemma pres_gen_loop body :
  block_ok ck sub_ok decl_ok body = true -> pres (gen_loop gs body).
Proof.
  intros H. pose proof (pres_block _ H).
  unfold gen_loop. repeat first [ assumption | pres_step ].
Qed.

Lemma pres_gen_case expr whens else_body :
  stmt_ok ck sub_ok decl_ok (CaseStmt expr whens else_body) = true ->
  pres (gen_case ck gs expr whens else_body).
Proof.
  rewrite stmt_ok_case. intros H.
  apply andb_prop in H. destruct H as [Hw He].
  pose proof (pres_block _ He).
  unfold gen_case.
  apply pres_bind; [auto with pres | intros end_label].
  apply pres_bind; [auto with pres | intros _].
  apply pres_bind; [auto with pres | intros _].
  apply pres_bind.
  - apply pres_for_each. intros [values body] I.
    pose proof (pres_block _ (arms_ok_In ck sub_ok decl_ok _ _ _ Hw I)).
    apply pres_bind; [auto with pres | intros next_when].
    apply pres_bind.
    + apply pres_for_each. intros v _. auto with pres.
    + intros _. repeat first [ assumption | pres_step ].
  - intros _. repeat first [ assumption | pres_step ].
Qed.

Lemma pres_drain (k : M unit) :
  pres k ->
  pres (s <- get ;;
        when (nonempty (nested_subs s))
          (modify (fun s => set_nested_subs [] s) ;;
           for_each (nested_subs s) gsub) ;;
        k).
Proof.
  intros Hk s a s' H E. rewrite bind_get in E.
  destruct (nested_subs s) as [|d q] eqn:N; cbn [nonempty when] in E.
  - rewrite bind_ret in E. eapply Hk; eauto.
  - apply bind_ok in E. destruct E as [[] [s1 [E1 E2]]].
    rewrite bind_modify in E1. eapply Hk; [|exact E2].
    destruct H as [HJ HQ]. rewrite N in HQ.
    eapply (pres_for_each (d :: q) gsub); [| |exact E1].
    + intros x I. apply Hgsub. rewrite forallb_forall in HQ. auto.
    + split; [exact HJ | reflexivity].
Qed.

Lemma pres_gen_sub_body decl :
  sub_decl_ok ck sub_ok decl_ok decl = true ->
  pres (gen_sub_body ck gs gsub decl).
Proof.
  destruct decl as [name ext params returns [body|]]; intros H;
    unfold gen_sub_body;
    cbn [sd_body sd_name sd_extern_name sd_params sd_returns];
    [|apply pres_ret].
  rewrite sub_decl_ok_body in H. apply andb_prop in H. destruct H as [Hs Hb].
  unfold sig_ok, sub_signature in Hs. cbn [sd_name sd_params sd_returns] in Hs.
  apply pres_bind.
  { apply pres_same. intros s a s' E. inversion E. split; reflexivity. }
  intros _.
  match goal with
  | |- context [let (_, _) := ?x in _] => destruct x as [ps rs]
  end.
  cbn [fst snd] in Hs. rewrite forallb_app in Hs.
  apply andb_prop in Hs. destruct Hs as [Hp Hr].
  pose proof (pres_allocate_all ps Hp). pose proof (pres_allocate_all rs Hr).
  pose proof (pres_block _ Hb).
  assert (Pd : pres (s <- get ;;
                     when (nonempty (nested_subs s))
                       (modify (fun s => set_nested_subs [] s) ;;
                        for_each (nested_subs s) gsub) ;;
                     modify (fun s => set_current_sub None s))).
  { apply pres_drain. apply pres_same. intros s a s' E. inversion E.
    split; reflexivity. }
  repeat first [ assumption | pres_step ].
Qed.

Lemma pres_gen_stmt_body st :
  stmt_ok ck sub_ok decl_ok st = true ->
  pres (gen_stmt_body ck gs gsub st).
Proof.
  destruct st; intros H; unfold gen_stmt_body;
    try solve [auto with pres | pres_auto].
  - now apply pres_gen_var_decl.
  - now apply pres_gen_if.
  - apply pres_gen_while. now rewrite <- stmt_ok_while with (c := condition).
  - apply pres_gen_loop. now rewrite <- stmt_ok_loop.
  - now apply pres_gen_case.
  - (* NestedSubStmt *)
    intros s a s' [HJ HQ] E. inversion E; subst s'. split; [exact HJ|].
    cbn [nested_subs set_nested_subs set_control].
    change (sub_decl_ok ck sub_ok decl_ok sub = true) in H.
    rewrite forallb_app, HQ. cbn [forallb]. now rewrite H.
Qed.

End PreserveBlocks.

(** Whatever the fuel, a checked statement or subroutine preserves. *)
Lemma pres_gen (fuel : nat) :
  (forall st, stmt_ok ck sub_ok decl_ok st = true ->
              pres (gen_stmt ck fuel st))
  /\ (forall d, sub_decl_ok ck sub_ok decl_ok d = true ->
                pres (gen_sub ck fuel d)).
Proof.
  induction fuel as [|f [IHs IHd]].
  - split; intros x _ s a s' _ E; discriminate E.
  - split; intros x H; cbn [gen_stmt gen_sub].
    + now apply pres_gen_stmt_body.
    + now apply pres_gen_sub_body.
Qed.

Lemma pres_decls (fuel : nat) (decls : list Stmt) :
  block_ok ck sub_ok decl_ok decls = true ->
  pres (for_each decls (gen_decl ck fuel)).
Proof.
  intros H. apply pres_for_each. intros x I.
  pose proof (block_ok_In _ _ _ _ _ H I) as Hx.
  destruct x; try apply pres_ret.
  apply (proj2 (pres_gen fuel)). exact Hx.
Qed.

Lemma pres_stmts (fuel : nat) (stmts : list Stmt) :
  block_ok ck sub_ok decl_ok stmts = true ->
  pres (for_each stmts (gen_stmt ck fuel)).
Proof.
  intros H. apply pres_for_each. intros x I.
  apply (proj1 (pres_gen fuel)). eapply block_ok_In; eauto.
Qed.

Lemma pres_gen_program_main (fuel : nat) (p : Program) :
  block_ok ck sub_ok decl_ok (statements p) = true ->
  pres (gen_program_main ck fuel p).
Proof.
  intros H. pose proof (pres_stmts fuel _ H).
  unfold gen_program_main.
  repeat first [ assumption
               | apply pres_for_each; intros ? _
               | pres_step ].
Qed.

(** From the end of the pre-pass to the end of the program. *)
Lemma pres_after_globals (fuel : nat) (p : Program) :
  block_ok ck sub_ok decl_ok (declarations p ++ statements p) = true ->
  pres (for_each (declarations p) (gen_decl ck fuel) ;;
        gen_program_main ck fuel p).
Proof.
  unfold block_ok. rewrite forallb_app. intros H.
  apply andb_prop in H. destruct H as [Hd Hs].
  apply pres_bind; [now apply pres_decls|].
  intros _. now apply pres_gen_program_main.
Qed.

End Preserve.

(** ** The size a name keeps in the variable table *)

(** The declarations of a program leave the queue empty. *)
Lemma decls_drained ck (fuel : nat) (decls : list Stmt) s s' :
  nested_subs s = [] -> (block_size decls <= fuel)%nat ->
  for_each decls (gen_decl ck fuel) s = Ok tt s' -> nested_subs s' = [].
Proof.
  revert s. induction decls as [|x decls IH]; intros s N Hf E.
  - inversion E; subst. exact N.
  - change (bind (gen_decl ck fuel x) (fun _ => for_each decls (gen_decl ck fuel))
                 s = Ok tt s') in E.
    apply bind_ok in E. destruct E as [[] [s0 [E0 E1]]].
    change (stmt_size x + block_size decls <= fuel)%nat in Hf.
    apply (IH s0); [|lia|exact E1].
    destruct x; try (inversion E0; subst; exact N).
    cbn [gen_decl] in E0.
    change (S (sub_size sub) + block_size decls <= fuel)%nat in Hf.
    apply (gen_sub_drains ck fuel sub s s0); [|exact E0|now right].
    unfold queue_size. rewrite N.
    change (list_sum (map sub_size [])) with 0%nat. lia.
Qed.

Section SizedSlot.

Variable ck : TypeChecker.
Variable name : string.
Variable sz : Z.

(** A slot that is another name's, or has the size [sz]. *)
Definition slot_agrees (k : string) (t : CowType) : bool :=
  (negb (String.eqb k name) || (type_size ck t =? sz))%bool.

Definition any_slot (k : string) (t : CowType) : bool := true.

(** The name has the size [sz] in the table. *)
Definition sized (V : list (string * VariableInfo)) : Prop :=
  exists var, dict_get name V = Some var /\ var_size var = sz.

(** The name has the size [sz] in the table, if it is there. *)
Definition sized_if_present (V : list (string * VariableInfo)) : Prop :=
  forall var, dict_get name V = Some var -> var_size var = sz.

Lemma slot_agrees_same t : slot_agrees name t = true -> type_size ck t = sz.
Proof.
  unfold slot_agrees. rewrite String.eqb_refl. cbn [negb orb].
  apply Z.eqb_eq.
Qed.

Lemma sized_alloc k t off V :
  slot_agrees k t = true -> sized V ->
  sized (dict_set k (mkVariable k t off (type_size ck t)) V).
Proof.
  intros H [var [G S]]. unfold sized.
  destruct (String.eqb_spec k name) as [->|N].
  - eexists. split; [apply dict_get_set_same|].
    cbn [var_size]. now apply slot_agrees_same.
  - exists var. now rewrite dict_get_set_other.
Qed.

Lemma sized_decl k t off V :
  any_slot k t = true -> dict_get k V = None -> sized V ->
  sized (dict_set k (mkVariable k t off (type_size ck t)) V).
Proof.
  intros _ A [var [G S]]. exists var. split; [|exact S].
  rewrite dict_get_set_other; [exact G|]. intros ->. congruence.
Qed.

Lemma sized_if_present_alloc k t off V :
  slot_agrees k t = true -> sized_if_present V ->
  sized_if_present (dict_set k (mkVariable k t off (type_size ck t)) V).
Proof.
  intros H HV var. destruct (String.eqb_spec k name) as [->|N].
  - rewrite dict_get_set_same. intros [= <-].
    cbn [var_size]. now apply slot_agrees_same.
  - rewrite dict_get_set_other by exact N. apply HV.
Qed.

Lemma sized_if_present_decl k t off V :
  slot_agrees k t = true -> dict_get k V = None -> sized_if_present V ->
  sized_if_present (dict_set k (mkVariable k t off (type_size ck t)) V).
Proof. intros H _. now apply sized_if_present_alloc. Qed.

(** The last slot of the name among parameters and returns. *)
Definition last_slot (l : list (string * CowType)) : option CowType :=
  match find (fun p => String.eqb (fst p) name) (List.rev l) with
  | Some p => Some (snd p)
  | None => None
  end.

Lemma last_slot_snoc l k t :
  last_slot (l ++ [(k, t)])
  = if String.eqb k name then Some t else last_slot l.
Proof.
  unfold last_slot. rewrite rev_app_distr.
  change (List.rev [(k, t)] ++ List.rev l) with ((k, t) :: List.rev l).
  change (find (fun p => String.eqb (fst p) name) ((k, t) :: List.rev l))
    with (if String.eqb k name then Some (k, t)
          else find (fun p => String.eqb (fst p) name) (List.rev l)).
  now destruct (String.eqb k name).
Qed.

(** After the slots of a subroutine are allocated, a name among them has
    the size of its last slot. *)
Lemma allocate_all_last (l : list (string * CowType)) (t : CowType) s s' :
  last_slot l = Some t -> type_size ck t = sz ->
  allocate_all ck l s = Ok tt s' -> sized (variables s').
Proof.
  intros HL HT. revert t HL HT s s'.
  induction l as [|[k t0] l IH] using rev_ind; intros t HL HT s s' E;
    [discriminate HL|].
  rewrite last_slot_snoc in HL. unfold allocate_all in E.
  apply for_each_app_ok in E. destruct E as [s1 [E1 E2]].
  cbn [for_each fst snd] in E2.
  assert (E3 : s' = set_variables
                      (dict_set k (mkVariable k t0 (data_offset s1)
                                              (type_size ck t0))
                                (variables s1))
                      (data_offset s1 + type_size ck t0) s1).
  { unfold bind, allocate_var, ret in E2. now inversion E2. }
  subst s'. cbn [variables set_variables].
  destruct (String.eqb_spec k name) as [->|N].
  - injection HL as ->. eexists. split; [apply dict_get_set_same|]. exact HT.
  - destruct (IH t HL HT s s1 E1) as [var [G S]].
    exists var. now rewrite dict_get_set_other.
Qed.

(** The pre-pass gives a global the type the checker records for it. *)
Lemma allocate_globals_sized (T : CowType) (stmts : list Stmt) s s' :
  lookup_var ck name = Some T -> type_size ck T = sz ->
  allocate_globals ck stmts s = Ok tt s' ->
  sized (variables s)
  \/ (exists rt tn init, In (VarDecl name rt tn init) stmts) ->
  sized (variables s').
Proof.
  intros HL HT. revert s. unfold allocate_globals.
  induction stmts as [|x stmts IH]; intros s E H.
  - inversion E; subst. destruct H as [H|[rt' [tn' [init' []]]]]. exact H.
  - cbn [for_each] in E. apply bind_ok in E. destruct E as [[] [s0 [E0 E1]]].
    apply (IH s0 E1). clear IH E1.
    destruct x;
      try (inversion E0; subst s0;
           destruct H as [H|[rt' [tn' [init' [I|I]]]]];
           [now left | discriminate I | right; eauto]).
    match type of E0 with
    | context [lookup_var ck ?k] =>
        destruct (String.eqb_spec k name) as [->|N];
          [rewrite HL in E0 | destruct (lookup_var ck k) as [t|] eqn:L]
    end.
    + (* the name itself, with the checker's type *)
      unfold bind, allocate_var, ret in E0. inversion E0; subst s0.
      left. cbn [variables set_variables].
      eexists. split; [apply dict_get_set_same | exact HT].
    + (* another global *)
      unfold bind, allocate_var, ret in E0. inversion E0; subst s0.
      cbn [variables set_variables].
      destruct H as [[var [G S]]|[rt' [tn' [init' [I|I]]]]].
      * left. exists var. now rewrite dict_get_set_other.
      * injection I as I _ _ _. congruence.
      * right. eauto.
    + (* a declaration the checker does not know *)
      inversion E0; subst s0.
      destruct H as [H|[rt' [tn' [init' [I|I]]]]].
      * now left.
      * injection I as I _ _ _. congruence.
      * right. eauto.
Qed.

(** Without an entry of the checker the pre-pass does not touch the
    name. *)
Lemma allocate_globals_untouched (stmts : list Stmt) s s' :
  lookup_var ck name = None ->
  allocate_globals ck stmts s = Ok tt s' ->
  dict_get name (variables s') = dict_get name (variables s).
Proof.
  intros HL. revert s. unfold allocate_globals.
  induction stmts as [|x stmts IH]; intros s E.
  - now inversion E.
  - cbn [for_each] in E. apply bind_ok in E. destruct E as [[] [s0 [E0 E1]]].
    rewrite (IH s0 E1). clear IH E1.
    destruct x; try (now inversion E0).
    match type of E0 with
    | context [lookup_var ck ?k] =>
        destruct (lookup_var ck k) as [t|] eqn:L; [|now inversion E0];
        destruct (String.eqb_spec k name) as [->|N]; [congruence|]
    end.
    unfold bind, allocate_var, ret in E0. inversion E0; subst s0.
    cbn [variables set_variables]. now rewrite dict_get_set_other.
Qed.

End SizedSlot.

(** The slots that share the name of a global agree with the size [sz]:
    the checker records a type of that size for the name, or it records
    none and every declaration of the name has that size; and no
    subroutine with a body has a parameter or return of that name with
    another size. *)
Definition slots_agree ck (name : string) (sz : Z) (p : Program) : bool :=
  let code := declarations p ++ statements p in
  match lookup_var ck name with
  | Some T =>
      ((type_size ck T =? sz)
       && block_ok ck (slot_agrees ck name sz) any_slot code)%bool
  | None =>
      block_ok ck (slot_agrees ck name sz) (slot_agrees ck name sz) code
  end.

Lemma block_size_app (a b : list Stmt) :
  block_size (a ++ b) = (block_size a + block_size b)%nat.
Proof. unfold block_size. now rewrite map_app, list_sum_app. Qed.

Lemma esound_queue_empty ck {A} (m : M A) s a s' :
  esound ck m -> m s = Ok a s' -> nested_subs s = [] -> nested_subs s' = [].
Proof.
  intros H E N. destruct (H s) as [a0 [s0 [E0 D]]].
  rewrite E0 in E. inversion E; subst.
  destruct (dreach_control _ _ _ D) as [_ [_ [_ Q]]]. congruence.
Qed.

(** The run of [generate], cut after the pre-pass. *)
Lemma generate_after_globals ck fuel p out sF :
  generate ck fuel p = Ok out sF ->
  exists s2,
    allocate_globals ck (statements p) (set_output header init_state)
    = Ok tt s2
    /\ nested_subs s2 = []
    /\ (for_each (declarations p) (gen_decl ck fuel) ;;
        gen_program_main ck fuel p) s2 = Ok out sF.
Proof.
  unfold generate. rewrite gen_program_unfold.
  rewrite (bind_run _ _ _ _ _ (for_each_emit_lines header init_state)).
  intros E. apply bind_ok in E. destruct E as [[] [s2 [E2 E3]]].
  exists s2. split; [exact E2|]. split; [|exact E3].
  eapply esound_queue_empty; [apply esound_allocate_globals | exact E2 |].
  reflexivity.
Qed.

(** A global keeps the size [sz] to the end of the run when the slots of
    its name agree with it. *)
Lemma generate_global_sized ck fuel p name sz rt tn init out sF var :
  In (VarDecl name rt tn init) (statements p) ->
  slots_agree ck name sz p = true ->
  generate ck fuel p = Ok out sF ->
  dict_get name (variables sF) = Some var -> var_size var = sz.
Proof.
  intros Hin Hs E G.
  destruct (generate_after_globals ck fuel p out sF E) as [s2 [E2 [N2 E3]]].
  unfold slots_agree in Hs.
  destruct (lookup_var ck name) as [T|] eqn:L.
  - apply andb_prop in Hs. destruct Hs as [HT Hb]. apply Z.eqb_eq in HT.
    assert (A : sized name sz (variables s2)).
    { eapply allocate_globals_sized; eauto. }
    destruct (pres_after_globals ck (sized name sz)
                (slot_agrees ck name sz) any_slot
                (sized_alloc ck name sz) (sized_decl ck name sz)
                fuel p Hb s2 out sF) as [[var' [G' S']] _];
      [split; [exact A | now rewrite N2] | exact E3 |].
    congruence.
  - assert (A : sized_if_present name sz (variables s2)).
    { intros v. rewrite (allocate_globals_untouched ck name _ _ _ L E2).
      discriminate. }
    destruct (pres_after_globals ck (sized_if_present name sz)
                (slot_agrees ck name sz) (slot_agrees ck name sz)
                (sized_if_present_alloc ck name sz)
                (sized_if_present_decl ck name sz)
                fuel p Hs s2 out sF) as [HJ _];
      [split; [exact A | now rewrite N2] | exact E3 |].
    now apply HJ.
Qed.

(** A name among the parameters and returns of a subroutine has, at the
    end of the run, the size of its last slot there, when no subroutine
    lowered later gives the name a slot of another size. *)
Lemma generate_slot_sized ck fuel p before after d body n T out sF :
  declarations p = before ++ SubDeclStmt d :: after ->
  sd_body d = Some body ->
  last_slot n (fst (sub_signature ck d) ++ snd (sub_signature ck d)) = Some T ->
  block_ok ck (slot_agrees ck n (type_size ck T)) any_slot
           (body ++ after ++ statements p) = true ->
  (program_size p <= fuel)%nat ->
  generate ck fuel p = Ok out sF ->
  sized n (type_size ck T) (variables sF).
Proof.
  intros Hd Hbody HL Hok Hf E.
  set (sz := type_size ck T) in *.
  set (ok := slot_agrees ck n sz) in *.
  unfold block_ok in Hok. rewrite !forallb_app in Hok.
  apply andb_prop in Hok. destruct Hok as [Hb Hok].
  apply andb_prop in Hok. destruct Hok as [Ha Hs].
  pose proof (sized_alloc ck n sz) as Jsub.
  pose proof (sized_decl ck n sz) as Jdecl.
  destruct (generate_after_globals ck fuel p out sF E) as [s2 [E2 [N2 E3]]].
  apply bind_ok in E3. destruct E3 as [[] [s3 [Ed Em]]].
  rewrite Hd in Ed. apply for_each_app_ok in Ed.
  destruct Ed as [sb [Eb Ed]].
  change (bind (gen_decl ck fuel (SubDeclStmt d))
               (fun _ => for_each after (gen_decl ck fuel)) sb = Ok tt s3) in Ed.
  apply bind_ok in Ed. destruct Ed as [[] [sd [Egd Ea]]].
  cbn [gen_decl] in Egd.
  unfold program_size in Hf. rewrite Hd, block_size_app in Hf.
  change (block_size (SubDeclStmt d :: after))
    with (S (sub_size d) + block_size after)%nat in Hf.
  assert (Nb : nested_subs sb = []).
  { eapply (decls_drained ck fuel before); [exact N2 | lia | exact Eb]. }
  destruct d as [name ext params returns b]. cbn [sd_body] in Hbody. subst b.
  rewrite sub_size_body in Hf.
  destruct fuel as [|f]; [discriminate Egd|].
  destruct (gen_sub_until_ret ck f name ext params returns body sb)
    as [s6 [E6 [E7 _]]].
  { unfold queue_size. rewrite Nb.
    change (list_sum (map sub_size [])) with 0%nat. lia. }
  rewrite E7 in Egd. clear E7.
  set (d := mkSubDecl name ext params returns (Some body)) in *.
  destruct (sub_signature ck d) as [ps rs]. cbn [fst snd] in *.
  unfold sub_code in E6.
  apply bind_ok in E6. destruct E6 as [[] [sa [Eps E6]]].
  apply bind_ok in E6. destruct E6 as [[] [sr [Ers E6]]].
  assert (Nr : nested_subs sr = []).
  { eapply esound_queue_empty; [apply (esound_allocate_all ck rs) | exact Ers|].
    eapply esound_queue_empty; [apply (esound_allocate_all ck ps) | exact Eps|].
    exact Nb. }
  assert (Jr : Jq ck (sized n sz) ok any_slot sr).
  { split; [|now rewrite Nr].
    apply (allocate_all_last ck n sz (ps ++ rs) T (enter_sub d sb) sr HL);
      [reflexivity|].
    unfold allocate_all in *.
    now rewrite (for_each_app_run _ _ _ _ _ Eps). }
  assert (J6 : Jq ck (sized n sz) ok any_slot s6).
  { assert (P : pres ck (sized n sz) ok any_slot
                  (gen_param_copies ps 2 ;;
                   for_each body (gen_stmt ck f) ;; gen_return_value rs)).
    { apply pres_bind; [apply pres_gen_param_copies|]. intros _.
      apply pres_bind; [now apply (pres_stmts ck _ ok any_slot Jsub Jdecl)|].
      intros _. apply pres_gen_return_value. }
    exact (P sr tt s6 Jr E6). }
  assert (Jd : Jq ck (sized n sz) ok any_slot sd).
  { assert (P : pres ck (sized n sz) ok any_slot
                  (drain_and_leave (gen_sub ck f))).
    { unfold drain_and_leave. apply pres_drain.
      - intros x. apply (proj2 (pres_gen ck _ ok any_slot Jsub Jdecl f)).
      - apply pres_same. intros s a s' X. inversion X. split; reflexivity. }
    exact (P (set_output (output s6 ++ [ins0 "RET"]) s6) tt sd J6 Egd). }
  assert (J3 : Jq ck (sized n sz) ok any_slot s3).
  { exact (pres_decls ck _ ok any_slot Jsub Jdecl (S f) after Ha
             sd tt s3 Jd Ea). }
  apply (pres_gen_program_main ck _ ok any_slot Jsub Jdecl (S f) p Hs
           s3 out sF J3 Em).
Qed.

(** * The specification's claims *)

(** A small checker for the worked examples: integers have their declared
    size, pointers and interfaces two bytes, an array its element count
    times the element size; [f] is a known subroutine [f(a: uint16):
    (r: uint16)], and [x] a global of type [uint16]. *)
Fixpoint sample_type_size (t : CowType) : Z :=
  match t with
  | IntType size _ => size
  | ArrayType element count => count * sample_type_size element
  | _ => 2
  end.

Definition UINT8 : CowType := IntType 1 false.

Definition sample_checker : TypeChecker :=
  mkChecker sample_type_size
    (fun tn => if String.eqb tn "uint8" then UINT8 else UINT16)
    []
    [("f"%string, mkSubInfo [("a"%string, UINT16)] [("r"%string, UINT16)])]
    []
    (fun name => if String.eqb name "x" then Some UINT16 else None).

Definition output_of {A} (r : Outcome A) : list string :=
  match r with Ok _ s => output s | _ => [] end.

(** ** Return statements *)

(** A [return] statement emits [RET] and nothing else, whatever the
    enclosing subroutine declares. *)
Lemma gen_stmt_return ck fuel s :
  gen_stmt ck (S fuel) ReturnStmt s
  = Ok tt (set_output (output s ++ [ins0 "RET"]) s).
Proof. reflexivity. Qed.

Definition sub_with_early_return : SubDecl :=
  mkSubDecl "g" None [] [("r"%string, "uint16"%string)] (Some [ReturnStmt]).

(** C2 (fails on the code).  In a subroutine [g] that declares the return
    value [r], the [return] statement of the body is lowered to a bare
    [RET]: the first return slot is loaded into [HL] only by the epilogue
    that follows. *)
Theorem return_in_sub_with_result :
  output_of (gen_sub sample_checker 2 sub_with_early_return init_state)
  = [EmptyString; "; Subroutine g"; "g:";
     ins0 "RET";
     ins "LHLD" "v_r"; ins0 "RET"]%string.
Proof. vm_compute. reflexivity. Qed.

(** ** [break] and [continue] outside a loop *)

(** C9.  A [break] lowered while the break-label stack is empty, and a
    [continue] lowered while the continue-label stack is empty, returns
    normally and leaves the whole state, hence the output, unchanged. *)
Theorem break_continue_outside_loop ck fuel (stmt : Stmt) (s : GenState) :
  (stmt = BreakStmt /\ break_labels s = [])
  \/ (stmt = ContinueStmt /\ continue_labels s = []) ->
  gen_stmt ck (S fuel) stmt s = Ok tt s.
Proof.
  intros [[-> H]|[-> H]]; cbn [gen_stmt gen_stmt_body];
    rewrite bind_get, H; reflexivity.
Qed.

Lemma break_continue_outside_loop_witness :
  gen_stmt sample_checker 1 BreakStmt init_state = Ok tt init_state.
Proof.
  apply (break_continue_outside_loop sample_checker 0 BreakStmt init_state).
  left. split; reflexivity.
Defined.

(** Inside a loop the statement does emit its jump. *)
Example break_inside_loop :
  output_of (gen_stmt sample_checker 3 (LoopStmt [BreakStmt]) init_state)
  = ["LOOP1:"; ins "JMP" "ENDL2"; ins "JMP" "LOOP1"; "ENDL2:"]%string.
Proof. vm_compute. reflexivity. Qed.

(** ** Address-of *)

Definition addressable (e : Expr) : bool :=
  match e with
  | Identifier _ _ | FieldAccess _ _ _ | ArrayAccess _ _ _ => true
  | _ => false
  end.

(** C3 (as amended).  [&] applied to anything but an identifier, a field
    access or an array access is lowered to nothing: the generator returns
    normally with the state unchanged. *)
Theorem address_of_unsupported_is_silent ck rt (operand : Expr)
    (target : Target) (s : GenState) :
  addressable operand = false ->
  gen_expr ck (AddressOf rt operand) target s = Ok tt s.
Proof. destruct operand; intros H; try discriminate; reflexivity. Qed.

Lemma address_of_unsupported_is_silent_witness :
  gen_expr sample_checker (AddressOf TNone (NumberLiteral UINT16 5)) THL
           init_state = Ok tt init_state.
Proof.
  apply (address_of_unsupported_is_silent sample_checker TNone
           (NumberLiteral UINT16 5) THL init_state).
  reflexivity.
Defined.

(** C3 (as stated) fails: taking the address of a number literal raises
    nothing; lowering carries on and the enclosing statement completes. *)
Lemma address_of_literal_not_rejected :
  let stmt := ExprStmt (AddressOf TNone (NumberLiteral UINT16 5)) in
  gen_stmt sample_checker 1 stmt init_state = Ok tt init_state
  /\ forall e, gen_stmt sample_checker 1 stmt init_state <> Raised e.
Proof. split; [reflexivity | discriminate]. Qed.

(** ** Calls: stack balance

    The 8080 stack instructions that a call site emits around [CALL], run on
    the stack pointer, [HL] and the stack memory (one 16-bit word per
    address pair, little endian, addressed by its low byte's address). *)

Inductive StackInstr : Type :=
| PUSH_H | POP_D | POP_H | LXI_H (n : Z) | DAD_SP | SPHL.

Definition render (i : StackInstr) : string :=
  match i with
  | PUSH_H => ins "PUSH" "H"
  | POP_D => ins "POP" "D"
  | POP_H => ins "POP" "H"
  | LXI_H n => ins "LXI" ("H," +++ str_int n)
  | DAD_SP => ins "DAD" "SP"
  | SPHL => ins0 "SPHL"
  end.

Record Machine := mkMachine {
  SP : Z;
  HL : Z;
  stack_word : Z -> Z
}.

Definition wrap16 (z : Z) : Z := z mod 65536.

Definition exec (i : StackInstr) (m : Machine) : Machine :=
  match i with
  | PUSH_H =>
      let sp := wrap16 (SP m - 2) in
      mkMachine sp (HL m)
        (fun a => if a =? sp then HL m else stack_word m a)
  | POP_D => mkMachine (wrap16 (SP m + 2)) (HL m) (stack_word m)
  | POP_H => mkMachine (wrap16 (SP m + 2)) (stack_word m (SP m)) (stack_word m)
  | LXI_H n => mkMachine (SP m) (wrap16 n) (stack_word m)
  | DAD_SP => mkMachine (SP m) (wrap16 (HL m + SP m)) (stack_word m)
  | SPHL => mkMachine (HL m) (HL m) (stack_word m)
  end.

Definition run (code : list StackInstr) (m : Machine) : Machine :=
  fold_left (fun m i => exec i m) code m.

(** The cleanup that [gen_call] emits after [CALL] for [n] arguments. *)
Definition cleanup_code (n : nat) : list StackInstr :=
  match n with
  | O => []
  | 1%nat => [POP_D]
  | 2%nat => [POP_D; POP_D]
  | _ => [PUSH_H; LXI_H (Z.of_nat n * 2 + 2); DAD_SP; SPHL; POP_H]
  end.

Lemma call_cleanup_emits (n : nat) (s : GenState) :
  call_cleanup n s
  = Ok tt (set_output (output s ++ map render (cleanup_code n)) s).
Proof.
  destruct n as [|[|[|n]]].
  - cbn. now rewrite app_nil_r, set_output_same.
  - reflexivity.
  - change (call_cleanup 2 s)
      with ((emit (ins "POP" "D") ;; emit (ins "POP" "D")) s).
    rewrite bind_emit. unfold emit, modify. cbn [output set_output map render].
    rewrite <- app_assoc. reflexivity.
  - unfold call_cleanup, cleanup_code. cbn [Nat.eqb negb when].
    assert (E2 : (Z.of_nat (S (S (S n))) * 2 =? 2) = false)
      by (apply Z.eqb_neq; lia).
    assert (E4 : (Z.of_nat (S (S (S n))) * 2 =? 4) = false)
      by (apply Z.eqb_neq; lia).
    rewrite E2, E4.
    rewrite !bind_emit. unfold emit, modify. cbn [output set_output map render].
    rewrite <- !app_assoc. reflexivity.
Qed.

(** One or two arguments are removed exactly; from three arguments on the
    emitted sequence moves the stack pointer past one word too many. *)
Lemma cleanup_small (n : nat) (m : Machine) :
  (n <= 2)%nat ->
  SP (run (cleanup_code n) m) = Nat.iter n (fun sp => wrap16 (sp + 2)) (SP m).
Proof. intros H. destruct n as [|[|[|n]]]; try lia; reflexivity. Qed.

Lemma cleanup_large (n : nat) (m : Machine) :
  (3 <= n)%nat -> Z.of_nat n * 2 + 2 < 65536 -> 0 <= SP m < 65536 ->
  SP (run (cleanup_code n) m) = wrap16 (SP m + Z.of_nat n * 2 + 2)
  /\ HL (run (cleanup_code n) m)
     = stack_word m (wrap16 (SP m + Z.of_nat n * 2)).
Proof.
  intros H Hn Hsp. destruct n as [|[|[|n]]]; try lia.
  unfold cleanup_code, run. cbn [fold_left exec SP HL stack_word].
  set (k := Z.of_nat (S (S (S n))) * 2) in *.
  unfold wrap16.
  assert (E : ((k + 2) mod 65536 + (SP m - 2) mod 65536) mod 65536
              = (SP m + k) mod 65536).
  { rewrite <- Z.add_mod by lia. f_equal. lia. }
  rewrite E. split.
  - now rewrite Z.add_mod_idemp_l by lia.
  - destruct (Z.eqb_spec ((SP m + k) mod 65536) ((SP m - 2) mod 65536))
      as [X|X]; [|reflexivity].
    exfalso. revert X. clear E. Z.div_mod_to_equations. lia.
Qed.

(** C4 (fails on the code).  For [f(1, 2, 3)] six bytes are pushed before
    [CALL], but the cleanup that follows moves the stack pointer up by
    eight, and the [POP H] that should restore the return value loads the
    word that lay above the arguments. *)
Theorem call_three_arguments_unbalanced :
  output_of (gen_expr sample_checker
               (Call UINT16 (Identifier TNone "f")
                     [NumberLiteral UINT16 1; NumberLiteral UINT16 2;
                      NumberLiteral UINT16 3])
               THL init_state)
  = [ins "LXI" "H,3"; ins "PUSH" "H"; ins "LXI" "H,2"; ins "PUSH" "H";
     ins "LXI" "H,1"; ins "PUSH" "H"; ins "CALL" "f"]%string
    ++ map render (cleanup_code 3)
  /\ cleanup_code 3 = [PUSH_H; LXI_H 8; DAD_SP; SPHL; POP_H]
  /\ forall (return_value : Z) (w : Z -> Z),
       let m := run (cleanup_code 3) (mkMachine 32768 return_value w) in
       SP m = 32768 + 8 /\ HL m = w (32768 + 6).
Proof.
  split; [vm_compute; reflexivity|]. split; [reflexivity|].
  intros return_value w. split; reflexivity.
Qed.

(** Up to two arguments the cleanup is exact. *)
Example call_two_arguments_balanced (hl : Z) (w : Z -> Z) :
  SP (run (cleanup_code 2) (mkMachine 32768 hl w)) = 32768 + 4
  /\ HL (run (cleanup_code 2) (mkMachine 32768 hl w)) = hl.
Proof. split; reflexivity. Qed.

(** ** Calls: order of argument evaluation *)

(** Evaluate one argument into [HL] and push it. *)
Definition eval_and_push ck (arg : Expr) : M unit :=
  gen_expr ck arg THL ;; emit (ins "PUSH" "H").

Lemma sequence_map {A} (g : A -> M unit) (l : list A) :
  sequence_ (map g l) = for_each l g.
Proof. induction l as [|x l IH]; simpl; [reflexivity | now rewrite IH]. Qed.

(** The argument loop of [gen_call] is the source's
    [for arg in reversed(expr.args)]. *)
Lemma gen_call_args_loop ck (args : list Expr) :
  sequence_ (List.rev (map (eval_and_push ck) args))
  = for_each (List.rev args) (eval_and_push ck).
Proof. now rewrite <- map_rev, sequence_map. Qed.

(** What follows the call instruction: the cleanup of the pushed words,
    and the move to [A] when the caller asked for [A] and the result is
    wider than a byte. *)
Definition narrow_result ck (rt : CowType) (target : Target) : list string :=
  if (is_A target && truthy_type rt && (type_size ck rt >? 1))%bool
  then [ins "MOV" "A,L"] else [].

Lemma call_tail_run ck rt (n : nat) (target : Target) (s : GenState) :
  (call_cleanup n ;;
   when (is_A target && truthy_type rt)
     (when (type_size ck rt >? 1) (emit (ins "MOV" "A,L")))) s
  = Ok tt (set_output (output s ++ map render (cleanup_code n)
                                ++ narrow_result ck rt target) s).
Proof.
  rewrite (bind_run _ _ _ _ _ (call_cleanup_emits n s)).
  unfold narrow_result.
  destruct (is_A target), (truthy_type rt), (type_size ck rt >? 1);
    cbn [andb when]; unfold emit, modify, ret;
    rewrite ?set_output_app, ?app_nil_r; reflexivity.
Qed.

(** C1 (as amended).  A call lowers its arguments in reverse index order:
    for [args[n-1]] down to [args[0]] it evaluates the argument into [HL]
    and pushes it at once.  From the state the last push leaves, it emits
    the call itself: [CALL] with the mangled name for a known subroutine;
    for another name the load of the variable (or of the bare name) and
    [CALL _callhl]; for any other callee its lowering into [HL] and
    [CALL _callhl].  The cleanup of the pushed words and the move of the
    result to [A] are the last lines. *)
Theorem call_arguments_pushed_in_reverse ck rt (callee : Expr)
    (args : list Expr) (target : Target) (s : GenState) :
  exists s1,
    for_each (List.rev args) (eval_and_push ck) s = Ok tt s1
    /\ let after := map render (cleanup_code (List.length args))
                    ++ narrow_result ck rt target in
       match callee with
       | Identifier _ name =>
           let call :=
             if dict_mem name (subroutines ck)
             then [ins "CALL" (mangle_sub_name name)]
             else [match dict_get name (variables s1) with
                   | Some _ => ins "LHLD" (mangle_name name)
                   | None => ins "LXI" ("H," +++ name)
                   end; ins "CALL" "_callhl"] in
           gen_expr ck (Call rt callee args) target s
           = Ok tt (set_output (output s1 ++ call ++ after) s1)
       | _ =>
           exists sc,
             gen_expr ck callee THL s1 = Ok tt sc
             /\ gen_expr ck (Call rt callee args) target s
                = Ok tt (set_output
                           (output sc ++ [ins "CALL" "_callhl"] ++ after) sc)
       end.
Proof.
  assert (Ha : esound ck (for_each (List.rev args) (eval_and_push ck))).
  { apply esound_for_each. intros x _. unfold eval_and_push. esound_auto. }
  destruct (Ha s) as [[] [s1 [E1 _]]].
  exists s1. split; [exact E1|]. cbv zeta.
  assert (Hother :
    forall e,
      gen_call ck (gen_expr ck) rt e args target s
      = ((gen_expr ck e THL ;; emit (ins "CALL" "_callhl")) ;;
         call_cleanup (List.length args) ;;
         when (is_A target && truthy_type rt)
           (when (type_size ck rt >? 1) (emit (ins "MOV" "A,L")))) s1 ->
      exists sc,
        gen_expr ck e THL s1 = Ok tt sc
        /\ gen_call ck (gen_expr ck) rt e args target s
           = Ok tt (set_output
                      (output sc ++ [ins "CALL" "_callhl"]
                       ++ map render (cleanup_code (List.length args))
                       ++ narrow_result ck rt target) sc)).
  { intros e ->.
    destruct (gen_expr_sound ck e THL s1) as [[] [sc [Ec _]]].
    exists sc. split; [exact Ec|].
    unfold bind at 1. rewrite (bind_run _ _ _ _ _ Ec).
    unfold emit at 1, modify. rewrite call_tail_run, set_output_app.
    reflexivity. }
  assert (Hrun :
    forall e,
      gen_call ck (gen_expr ck) rt e args target s
      = (match e with
         | Identifier _ name =>
             if dict_mem name (subroutines ck) then
               emit (ins "CALL" (mangle_sub_name name))
             else
               var <- get_var name ;;
               match var with
               | Some _ => emit (ins "LHLD" (mangle_name name))
               | None => emit (ins "LXI" ("H," +++ name))
               end ;;
               emit (ins "CALL" "_callhl")
         | _ => gen_expr ck e THL ;; emit (ins "CALL" "_callhl")
         end ;;
         call_cleanup (List.length args) ;;
         when (is_A target && truthy_type rt)
           (when (type_size ck rt >? 1) (emit (ins "MOV" "A,L")))) s1).
  { intros e. unfold gen_call. fold (eval_and_push ck).
    rewrite gen_call_args_loop. now rewrite (bind_run _ _ _ _ _ E1). }
  change (gen_expr ck (Call rt callee args) target s)
    with (gen_call ck (gen_expr ck) rt callee args target s).
  destruct callee; try (apply Hother; exact (Hrun _)).
  (* the callee is a name *)
  rewrite Hrun.
  match goal with
  | |- context [dict_mem ?n (subroutines ck)] =>
      destruct (dict_mem n (subroutines ck));
        [| unfold bind at 1; unfold bind at 1, get_var at 1;
           destruct (dict_get n (variables s1)) ]
  end;
    unfold bind at 1, emit, modify;
    rewrite call_tail_run, ?set_output_app; reflexivity.
Qed.

(** With two arguments: the second is evaluated and pushed first. *)
Example call_two_arguments :
  output_of (gen_expr sample_checker
               (Call UINT16 (Identifier TNone "f")
                     [NumberLiteral UINT16 1; NumberLiteral UINT16 2])
               THL init_state)
  = [ins "LXI" "H,2"; ins "PUSH" "H"; ins "LXI" "H,1"; ins "PUSH" "H";
     ins "CALL" "f"; ins "POP" "D"; ins "POP" "D"]%string.
Proof. vm_compute. reflexivity. Qed.

(** [starts_with c out]: the lines [c] are the first lines of [out]. *)
Fixpoint starts_with (c out : list string) : bool :=
  match c, out with
  | [], _ => true
  | x :: c', y :: out' => (String.eqb x y && starts_with c' out')%bool
  | _ :: _, [] => false
  end.

(** What is left of [out] after the first occurrence of the lines [c]. *)
Fixpoint after_chunk (c out : list string) : option (list string) :=
  if starts_with c out then Some (skipn (List.length c) out)
  else match out with
       | [] => None
       | _ :: out' => after_chunk c out'
       end.

(** The chunks occur in [out] one after the other, in the order given. *)
Fixpoint in_source_order (chunks : list (list string)) (out : list string)
    : bool :=
  match chunks with
  | [] => true
  | c :: rest =>
      match after_chunk c out with
      | Some out' => in_source_order rest out'
      | None => false
      end
  end.

(** C1 (as stated) fails: for [f(1, 2)] the code that evaluates the first
    argument does not come before the code that evaluates the second; it
    comes after it. *)
Lemma call_arguments_not_in_source_order :
  let arg0 := NumberLiteral UINT16 1 in
  let arg1 := NumberLiteral UINT16 2 in
  let code e := output_of (gen_expr sample_checker e THL init_state) in
  let out := output_of (gen_expr sample_checker
                          (Call UINT16 (Identifier TNone "f") [arg0; arg1])
                          THL init_state) in
  in_source_order [code arg0; code arg1] out = false
  /\ in_source_order [code arg1; code arg0] out = true.
Proof. vm_compute. split; reflexivity. Qed.

(** ** Fresh labels *)




(** The counter is shared: a second prefix continues the numbering. *)
Example labels_of_a_loop_in_a_loop :
  output_of (gen_stmt sample_checker 4 (LoopStmt [LoopStmt []]) init_state)
  = ["LOOP1:"; "LOOP3:"; ins "JMP" "LOOP3"; "ENDL4:";
     ins "JMP" "LOOP1"; "ENDL2:"]%string.
Proof. vm_compute. reflexivity. Qed.

(** ** The variable table *)

(** The [DS] lines that the data segment holds for one name. *)
Definition ds_lines_for (name : string) (vars : list (string * VariableInfo))
    : list string :=
  map ds_line (filter (fun e => String.eqb (fst e) name) vars).

(** Allocating a name that is in the table replaces its entry where it
    stands. *)
Lemma allocate_var_replaces ck (name : string) (typ : CowType) (s : GenState)
    (old : VariableInfo) :
  NoDup (keys (variables s)) ->
  dict_get name (variables s) = Some old ->
  exists var s',
    allocate_var ck name typ s = Ok var s'
    /\ var = mkVariable name typ (data_offset s) (type_size ck typ)
    /\ dict_get name (variables s') = Some var
    /\ keys (variables s') = keys (variables s)
    /\ data_offset s' = data_offset s + type_size ck typ
    /\ ds_lines_for name (variables s')
       = [("v_" +++ name) +++ ":" +++ TAB +++ "DS" +++ TAB
            +++ str_int (type_size ck typ)].
Proof.
  intros ND G. eexists; eexists. split; [reflexivity|].
  split; [reflexivity|]. cbn [variables data_offset set_variables].
  split; [apply dict_get_set_same|].
  split; [eapply keys_set_present; eauto|].
  split; [reflexivity|].
  unfold ds_lines_for.
  rewrite (filter_key_unique name
             (mkVariable name typ (data_offset s) (type_size ck typ))).
  - reflexivity.
  - erewrite keys_set_present; eauto.
  - apply dict_get_set_same.
Qed.

(** C10.  The variable table is keyed by the unmangled name.  Allocating a
    name that is already in the table replaces its entry where it stands,
    adds no key, and still advances [data_offset].  So when a subroutine
    with a body has a parameter or return [n], whatever the subroutines
    before it allocated under that name, the generated program has one
    entry and one [DS] line for [n], [v_<n>], and its size is that of the
    last slot [n] of this subroutine, provided no subroutine lowered
    later has a slot [n] of another size. *)
Theorem allocate_var_again ck (fuel : nat) (p : Program)
    (before after : list Stmt) (d : SubDecl) (body : list Stmt)
    (n : string) (T : CowType) :
  declarations p = before ++ SubDeclStmt d :: after ->
  sd_body d = Some body ->
  last_slot n (fst (sub_signature ck d) ++ snd (sub_signature ck d))
  = Some T ->
  block_ok ck (slot_agrees ck n (type_size ck T)) any_slot
           (body ++ after ++ statements p) = true ->
  (program_size p <= fuel)%nat ->
  (forall typ s old,
     NoDup (keys (variables s)) ->
     dict_get n (variables s) = Some old ->
     exists var s',
       allocate_var ck n typ s = Ok var s'
       /\ var = mkVariable n typ (data_offset s) (type_size ck typ)
       /\ dict_get n (variables s') = Some var
       /\ keys (variables s') = keys (variables s)
       /\ data_offset s' = data_offset s + type_size ck typ
       /\ ds_lines_for n (variables s')
          = [("v_" +++ n) +++ ":" +++ TAB +++ "DS" +++ TAB
               +++ str_int (type_size ck typ)])
  /\ exists out sF code var pre post,
       generate ck fuel p = Ok out sF
       /\ output sF = code ++ ["_data:"%string]
                      ++ map ds_line (variables sF)
                      ++ map db_line (string_literals sF) ++ outro
       /\ variables sF = pre ++ (n, var) :: post
       /\ ~ In n (keys pre) /\ ~ In n (keys post)
       /\ var_size var = type_size ck T
       /\ ds_lines_for n (variables sF)
          = [("v_" +++ n) +++ ":" +++ TAB +++ "DS" +++ TAB
               +++ str_int (type_size ck T)].
Proof.
  intros Hd Hbody HL Hok Hf.
  split; [intros typ s old; apply allocate_var_replaces|].
  destruct (generate_shape ck fuel p Hf)
    as [out [sF [s4 [s5 [subs [E [_ [R4 [_ [_ [_ [R45 [R5 [_ [_ O]]]]]]]]]]]]]]].
  assert (RF : reach ck init_state sF) by eauto using reach_trans.
  pose proof (wf_reach ck _ _ RF (wf_init ck)) as W.
  destruct (generate_slot_sized ck fuel p before after d body n T out sF
              Hd Hbody HL Hok Hf E) as [var [G S]].
  destruct (dict_get_split n var (variables sF) (wf_var_keys ck _ W) G)
    as [pre [post [Ev [Npre Npost]]]].
  exists out, sF. eexists. exists var, pre, post.
  split; [exact E|].
  split.
  { rewrite O. unfold data_intro.
    change [ins "JMP" "0"; EmptyString; "; Data segment"%string; "_data:"%string]
      with ([ins "JMP" "0"; EmptyString; "; Data segment"%string]
            ++ ["_data:"%string]).
    rewrite !app_assoc. reflexivity. }
  split; [exact Ev|]. split; [exact Npre|]. split; [exact Npost|].
  split; [exact S|].
  unfold ds_lines_for.
  rewrite (filter_key_unique n var _ (wf_var_keys ck _ W) G).
  cbn [map]. unfold ds_line, mangle_name. cbn [fst snd].
  now rewrite S.
Qed.

Definition state_with_n : GenState :=
  set_variables [("n"%string, mkVariable "n" UINT8 0 1)] 1 init_state.

Definition sub_p : SubDecl :=
  mkSubDecl "p" None [("n"%string, "uint8"%string)] [] (Some []).
Definition sub_q : SubDecl :=
  mkSubDecl "q" None [("n"%string, "uint16"%string)] [] (Some []).

Definition two_subs_sharing_a_parameter : Program :=
  mkProgram [] [SubDeclStmt sub_p; SubDeclStmt sub_q].

Lemma allocate_var_again_witness :
  (forall typ s old,
     NoDup (keys (variables s)) ->
     dict_get "n" (variables s) = Some old ->
     exists var s',
       allocate_var sample_checker "n" typ s = Ok var s'
       /\ var = mkVariable "n" typ (data_offset s)
                           (type_size sample_checker typ)
       /\ dict_get "n" (variables s') = Some var
       /\ keys (variables s') = keys (variables s)
       /\ data_offset s' = data_offset s + type_size sample_checker typ
       /\ ds_lines_for "n" (variables s')
          = [("v_" +++ "n") +++ ":" +++ TAB +++ "DS" +++ TAB
               +++ str_int (type_size sample_checker typ)])
  /\ exists out sF code var pre post,
       generate sample_checker 4 two_subs_sharing_a_parameter = Ok out sF
       /\ output sF = code ++ ["_data:"%string]
                      ++ map ds_line (variables sF)
                      ++ map db_line (string_literals sF) ++ outro
       /\ variables sF = pre ++ ("n"%string, var) :: post
       /\ ~ In "n"%string (keys pre) /\ ~ In "n"%string (keys post)
       /\ var_size var = type_size sample_checker UINT16
       /\ ds_lines_for "n" (variables sF)
          = [("v_" +++ "n") +++ ":" +++ TAB +++ "DS" +++ TAB
               +++ str_int (type_size sample_checker UINT16)].
Proof.
  apply (allocate_var_again sample_checker 4 two_subs_sharing_a_parameter
           [SubDeclStmt sub_p] [] sub_q [] "n" UINT16).
  - reflexivity.
  - reflexivity.
  - reflexivity.
  - reflexivity.
  - vm_compute. repeat constructor.
Defined.

(** Two subroutines with a parameter [n]: both store to [v_n], and the data
    segment has the one line [v_n: DS 2] of the second. *)
Example shared_parameter_slot :
  output_of (generate sample_checker 3 two_subs_sharing_a_parameter)
  = header
    ++ [EmptyString; "; Subroutine p"; "p:"; ins "LXI" "H,2"; ins "DAD" "SP";
        ins "MOV" "A,M"; ins "STA" "v_n"; ins0 "RET";
        EmptyString; "; Subroutine q"; "q:"; ins "LXI" "H,2"; ins "DAD" "SP";
        ins "MOV" "E,M"; ins "INX" "H"; ins "MOV" "D,M"; ins0 "XCHG";
        ins "SHLD" "v_n"; ins0 "RET"]%string
    ++ main_intro ++ data_intro
    ++ [("v_n:" +++ TAB +++ "DS" +++ TAB +++ "2")%string] ++ outro.
Proof. vm_compute. reflexivity. Qed.

(** ** The string pool *)



Lemma string_append_assoc (a b c : string) : (a +++ b) +++ c = a +++ b +++ c.
Proof. induction a as [|x a IH]; simpl; [reflexivity | now rewrite IH]. Qed.






Definition hello_twice : Program :=
  mkProgram [ExprStmt (StringLiteral TNone "hi");
             ExprStmt (StringLiteral TNone "");
             ExprStmt (StringLiteral TNone "hi")] [].


(** The same literal twice, and the empty string: two [DB] lines. *)
Example string_pool_of_hello_twice :
  output_of (generate sample_checker 3 hello_twice)
  = header ++ main_intro
    ++ [ins "LXI" "H,STR1"; ins "LXI" "H,STR2"; ins "LXI" "H,STR1"]%string
    ++ data_intro
    ++ [("STR1:" +++ TAB +++ "DB" +++ TAB +++ "104,105,0")%string;
        ("STR2:" +++ TAB +++ "DB" +++ TAB +++ "0")%string]
    ++ outro.
Proof. vm_compute. reflexivity. Qed.

(** ** Global variables in the data segment *)

Lemma keys_set_same {V} (k : string) (v : V) (d : list (string * V)) :
  In k (keys (dict_set k v d)).
Proof.
  pose proof (dict_get_set_same k v d) as X.
  apply dict_get_In in X. apply (in_map fst) in X. exact X.
Qed.

Lemma gen_var_decl_allocates ck name rt tn init s s' :
  gen_var_decl ck name rt tn init s = Ok tt s' ->
  In name (keys (variables s')).
Proof.
  unfold gen_var_decl. cbv zeta. unfold bind at 1, get_var at 1.
  destruct (dict_get name (variables s)) as [v|] eqn:G.
  - intros [= <-]. apply dict_get_In in G.
    apply (in_map fst) in G. exact G.
  - unfold bind at 1, allocate_var at 1.
    match goal with
    | |- ?m ?s1 = _ -> _ =>
        assert (Hm : esound ck m) by esound_auto;
        destruct (Hm s1) as [[] [s2 [E2 D2]]]
    end.
    rewrite E2. intros [= <-].
    apply (reach_var_keys ck _ _ _ (dreach_reach ck _ _ D2)).
    cbn [variables set_variables]. apply keys_set_same.
Qed.

(** C7 (as amended).  For every variable declared at the top level, the
    data segment of the generated program has exactly one [DS] line for its
    name: the table holds the name once, each entry yields one line, and
    the other entries define other labels.  The size on the line is the
    size of the type under which the name was last allocated.  It is the
    declared size when the slots of the name agree with it: the checker
    records a type of that size for the name (or records none, and every
    declaration of the name has that size), and no subroutine with a body
    has a parameter or return of the name with another size. *)
Theorem global_var_one_ds_line ck (fuel : nat) (p : Program)
    (name : string) (rt : CowType) (tn : option TypeExpr) (init : option Expr) :
  In (VarDecl name rt tn init) (statements p) ->
  (program_size p <= fuel)%nat ->
  exists out sF code var pre post,
    generate ck fuel p = Ok out sF
    /\ output sF = code ++ ["_data:"%string]
                   ++ map ds_line (variables sF)
                   ++ map db_line (string_literals sF) ++ outro
    /\ variables sF = pre ++ (name, var) :: post
    /\ ~ In name (keys pre) /\ ~ In name (keys post)
    /\ (forall k w, In (k, w) (pre ++ post) ->
                    mangle_name k <> mangle_name name)
    /\ ds_lines_for name (variables sF)
       = [("v_" +++ name) +++ ":" +++ TAB +++ "DS" +++ TAB
            +++ str_int (type_size ck (var_type var))]
    /\ (slots_agree ck name (type_size ck (decl_type ck rt tn init)) p = true ->
        ds_lines_for name (variables sF)
        = [("v_" +++ name) +++ ":" +++ TAB +++ "DS" +++ TAB
             +++ str_int (type_size ck (decl_type ck rt tn init))]).
Proof.
  intros Hin Hf.
  destruct (generate_shape ck fuel p Hf)
    as [out [sF [s4 [s5 [subs [E [_ [R4 [_ [Q4 [E5 [R45 [R5 [_ [_ O]]]]]]]]]]]]]]].
  assert (RF : reach ck init_state sF) by eauto using reach_trans.
  pose proof (wf_reach ck _ _ RF (wf_init ck)) as W.
  (* the declaration is lowered on the way from [s4] to [s5] *)
  destruct (for_each_spec_In ck fuel stmt_size (statements p)
              (gen_stmt ck fuel) (VarDecl name rt tn init) s4
              (fun y _ => proj1 (gen_total ck fuel) y) Q4 Hin)
    as [sa [sb [s5' [E5' [Ra [Eb Rb]]]]]].
  rewrite E5 in E5'. injection E5' as <-.
  assert (K : In name (keys (variables sF))).
  { apply (reach_var_keys ck sb); [eauto using reach_trans|].
    destruct fuel as [|f]; [discriminate Eb|].
    cbn [gen_stmt gen_stmt_body] in Eb.
    eapply gen_var_decl_allocates; eauto. }
  destruct (dict_get name (variables sF)) as [var|] eqn:G;
    [|apply dict_get_None in G; contradiction].
  destruct (dict_get_split name var (variables sF) (wf_var_keys ck _ W) G)
    as [pre [post [Ev [Npre Npost]]]].
  exists out, sF. eexists. exists var, pre, post.
  split; [exact E|].
  split.
  { rewrite O. unfold data_intro.
    change [ins "JMP" "0"; EmptyString; "; Data segment"%string; "_data:"%string]
      with ([ins "JMP" "0"; EmptyString; "; Data segment"%string]
            ++ ["_data:"%string]).
    rewrite !app_assoc. reflexivity. }
  split; [exact Ev|]. split; [exact Npre|]. split; [exact Npost|].
  split.
  { intros k w I Hm. unfold mangle_name in Hm. injection Hm as ->.
    apply (in_map fst) in I. rewrite map_app in I.
    apply in_app_or in I. tauto. }
  assert (L : ds_lines_for name (variables sF)
              = [("v_" +++ name) +++ ":" +++ TAB +++ "DS" +++ TAB
                   +++ str_int (var_size var)]).
  { unfold ds_lines_for.
    now rewrite (filter_key_unique name var _ (wf_var_keys ck _ W) G). }
  split.
  - pose proof (wf_var_entries ck _ W) as Hent. rewrite Forall_forall in Hent.
    destruct (Hent (name, var) (dict_get_In _ _ _ G)) as [_ Hsize].
    cbn [fst snd] in Hsize. now rewrite L, Hsize.
  - intros Hs. rewrite L.
    now rewrite (generate_global_sized ck fuel p name _ rt tn init out sF var
                   Hin Hs E G).
Qed.

Definition global_and_other_parameter : Program :=
  mkProgram [VarDecl "x" TNone (Some "uint16"%string) None]
            [SubDeclStmt (mkSubDecl "h" None [("y"%string, "uint8"%string)] []
                                    (Some [VarDecl "x" UINT8 None None]))].

Lemma global_var_one_ds_line_witness :
  exists out sF code var pre post,
    generate sample_checker 4 global_and_other_parameter = Ok out sF
    /\ output sF = code ++ ["_data:"%string]
                   ++ map ds_line (variables sF)
                   ++ map db_line (string_literals sF) ++ outro
    /\ variables sF = pre ++ ("x"%string, var) :: post
    /\ ~ In "x"%string (keys pre) /\ ~ In "x"%string (keys post)
    /\ (forall k w, In (k, w) (pre ++ post) ->
                    mangle_name k <> mangle_name "x")
    /\ ds_lines_for "x" (variables sF)
       = [("v_" +++ "x") +++ ":" +++ TAB +++ "DS" +++ TAB
            +++ str_int (type_size sample_checker (var_type var))]
    /\ ds_lines_for "x" (variables sF)
       = [("v_" +++ "x") +++ ":" +++ TAB +++ "DS" +++ TAB +++ "2"]%string.
Proof.
  destruct (global_var_one_ds_line sample_checker 4 global_and_other_parameter
              "x" TNone (Some "uint16"%string) None)
    as [out [sF [code [var [pre [post [E [O [V [A [B [C [D S]]]]]]]]]]]]].
  - left. reflexivity.
  - vm_compute. repeat constructor.
  - exists out, sF, code, var, pre, post.
    split; [exact E|]. split; [exact O|]. split; [exact V|].
    split; [exact A|]. split; [exact B|]. split; [exact C|].
    split; [exact D|]. apply S. reflexivity.
Defined.

Lemma global_shadowed_slots_disagree :
  slots_agree sample_checker "x"
    (type_size sample_checker
       (decl_type sample_checker TNone (Some "uint16"%string) None))
    (mkProgram [VarDecl "x" TNone (Some "uint16"%string) None]
       [SubDeclStmt (mkSubDecl "h" None [("x"%string, "uint8"%string)] []
                               (Some []))])
  = false.
Proof. reflexivity. Qed.

Definition global_shadowed_by_parameter : Program :=
  mkProgram [VarDecl "x" TNone (Some "uint16"%string) None]
            [SubDeclStmt (mkSubDecl "h" None [("x"%string, "uint8"%string)] []
                                    (Some []))].

(** C7 (as stated) fails: the global [x] is declared with two bytes, a
    subroutine has a one-byte parameter [x], and the only [DS] line for
    [v_x] says one byte. *)
Lemma global_var_size_overwritten :
  let out := output_of (generate sample_checker 3 global_shadowed_by_parameter) in
  type_size sample_checker (resolve_type sample_checker "uint16"%string) = 2
  /\ lookup_var sample_checker "x"%string = Some UINT16
  /\ existsb (String.eqb ("v_x:" +++ TAB +++ "DS" +++ TAB +++ "2")) out = false
  /\ existsb (String.eqb ("v_x:" +++ TAB +++ "DS" +++ TAB +++ "1")) out = true.
Proof. vm_compute. repeat split; reflexivity. Qed.

(** ** The frame of the program *)













(** ** Worked scenarios of the specification *)

(** Array element store: [var arr: uint16[4]; arr[2] := 0x1234;] *)
Example scenario_array_store :
  let arr_t := ArrayType UINT16 4 in
  output_of
    (generate sample_checker 1
       (mkProgram
          [VarDecl "arr" arr_t None None;
           Assignment (ArrayAccess UINT16 (Identifier arr_t "arr")
                                   (NumberLiteral UINT16 2))
                      (NumberLiteral UINT16 4660)] []))
  = header ++ main_intro
    ++ [ins "LXI" "H,4660"; ins "PUSH" "H"; ins "LXI" "H,2"; ins "LXI" "D,2";
        ins "CALL" "_mul16"; ins "PUSH" "H"; ins "LXI" "H,v_arr";
        ins "POP" "D"; ins "DAD" "D"; ins0 "XCHG"; ins "POP" "H";
        ins0 "XCHG"; ins "MOV" "M,E"; ins "INX" "H"; ins "MOV" "M,D"]%string
    ++ data_intro ++ [("v_arr:" +++ TAB +++ "DS" +++ TAB +++ "8")%string]
    ++ outro.
Proof. vm_compute. reflexivity. Qed.

(** Indirect call through an interface variable: [var cb: intf; cb();] *)
Example scenario_indirect_call :
  output_of
    (generate sample_checker 1
       (mkProgram
          [VarDecl "cb" (InterfaceType "intf") None None;
           ExprStmt (Call TNone (Identifier TNone "cb") [])] []))
  = header ++ main_intro
    ++ [ins "LHLD" "v_cb"; ins "CALL" "_callhl"]%string
    ++ data_intro ++ [("v_cb:" +++ TAB +++ "DS" +++ TAB +++ "2")%string]
    ++ outro.
Proof. vm_compute. reflexivity. Qed.

(** Short-circuit [and] of two byte variables. *)
Example scenario_short_circuit_and :
  let s := match allocate_var sample_checker "a" UINT8 init_state with
           | Ok _ s => s
           | _ => init_state
           end in
  output_of
    (gen_expr sample_checker
       (LogicalOp UINT8 "and" (Identifier UINT8 "a") (Identifier UINT8 "a"))
       TA s)
  = [ins "LDA" "v_a"; ins "ORA" "A"; ins "JZ" "FALSE1";
     ins "LDA" "v_a"; ins "ORA" "A"; ins "JZ" "FALSE1";
     ins "MVI" "A,1"; ins "JMP" "END2"; "FALSE1:"; ins "XRA" "A";
     "END2:"]%string.
Proof. vm_compute. reflexivity. Qed.

(** * Further properties of the generator *)

(** ** What expression lowering leaves alone *)

(** X1.  Lowering an expression always returns normally.  It only adds
    lines to the output; it allocates no variable, moves no label stack
    and queues no subroutine; the label counter does not decrease and
    every string interned before keeps its label. *)
Theorem gen_expr_frame ck (e : Expr) (target : Target) (s : GenState) :
  exists s' d,
    gen_expr ck e target s = Ok tt s'
    /\ output s' = output s ++ d
    /\ variables s' = variables s
    /\ data_offset s' = data_offset s
    /\ current_sub s' = current_sub s
    /\ break_labels s' = break_labels s
    /\ continue_labels s' = continue_labels s
    /\ nested_subs s' = nested_subs s
    /\ label_counter s <= label_counter s'
    /\ (forall v l, dict_get v (string_literals s) = Some l ->
                    dict_get v (string_literals s') = Some l).
Proof.
  destruct (gen_expr_framed ck e target s)
    as [s' [E [[d O] [_ [V [F [C [B [K [N [L S]]]]]]]]]]].
  exists s', d. repeat split; auto.
Qed.

(** ** What statement lowering keeps *)

(** X2.  With fuel for its size and for the queued subroutines, lowering a
    statement returns normally: no exception from the label stacks, which
    are left as they were found.  Lines are only added to the output, the
    label counter does not decrease, no variable leaves the table and no
    interned string changes its label. *)
Theorem gen_stmt_frame ck (fuel : nat) (stmt : Stmt) (s : GenState) :
  (stmt_size stmt + queue_size s <= fuel)%nat ->
  exists s' d,
    gen_stmt ck fuel stmt s = Ok tt s'
    /\ output s' = output s ++ d
    /\ break_labels s' = break_labels s
    /\ continue_labels s' = continue_labels s
    /\ label_counter s <= label_counter s'
    /\ (forall k, In k (keys (variables s)) -> In k (keys (variables s')))
    /\ (forall v l, dict_get v (string_literals s) = Some l ->
                    dict_get v (string_literals s') = Some l).
Proof.
  intros Hf.
  destruct (proj1 (gen_total ck fuel) stmt s) as [[] [s' [E [[R [B C]] _]]]];
    [lia|].
  destruct (reach_output ck _ _ R) as [d O].
  exists s', d. repeat split; auto.
  - eapply reach_label_counter; eauto.
  - intros k. now apply (reach_var_keys ck).
  - intros v l. now apply (reach_string_label ck).
Qed.

Definition loop_in_loop : Stmt :=
  WhileStmt (NumberLiteral UINT8 1) [LoopStmt [BreakStmt]; ContinueStmt].

Lemma gen_stmt_frame_witness :
  exists s' d,
    gen_stmt sample_checker 4 loop_in_loop init_state = Ok tt s'
    /\ output s' = output init_state ++ d
    /\ break_labels s' = break_labels init_state
    /\ continue_labels s' = continue_labels init_state
    /\ label_counter init_state <= label_counter s'
    /\ (forall k, In k (keys (variables init_state)) ->
                  In k (keys (variables s')))
    /\ (forall v l, dict_get v (string_literals init_state) = Some l ->
                    dict_get v (string_literals s') = Some l).
Proof.
  apply (gen_stmt_frame sample_checker 4 loop_in_loop init_state).
  vm_compute. repeat constructor.
Defined.

(** ** Mangled names *)

Lemma upper_s_prefix_not_register (name : string) :
  in_strs (upper ("s_" +++ name)) register_names = false.
Proof. reflexivity. Qed.

Lemma upper_v_prefix_not_register (name : string) :
  in_strs (upper ("v_" +++ name)) register_names = false.
Proof. reflexivity. Qed.

(** X3.  Whatever the subroutine's name, the label [mangle_sub_name] gives
    it is not a register name of the 8080 in any letter case. *)
Theorem mangle_sub_name_avoids_registers (name : string) :
  in_strs (upper (mangle_sub_name name)) register_names = false.
Proof.
  unfold mangle_sub_name.
  destruct (in_strs (upper name) register_names) eqn:E;
    [apply upper_s_prefix_not_register | exact E].
Qed.

(** X4.  The prefix that rescues a register name collides with a name that
    already starts with it: a subroutine named after a register and the
    subroutine named [s_] plus that name are two names with one label. *)
Theorem mangle_sub_name_collides (name : string) :
  in_strs (upper name) register_names = true ->
  name <> "s_" +++ name
  /\ mangle_sub_name name = mangle_sub_name ("s_" +++ name).
Proof.
  intros H. split.
  - intros E. apply (f_equal String.length) in E. simpl in E. lia.
  - unfold mangle_sub_name.
    now rewrite H, upper_s_prefix_not_register.
Qed.

Lemma mangle_sub_name_collides_witness :
  "sp"%string <> "s_" +++ "sp"
  /\ mangle_sub_name "sp" = mangle_sub_name ("s_" +++ "sp").
Proof. apply (mangle_sub_name_collides "sp"). reflexivity. Defined.

(** X5.  Variable labels are in one-to-one correspondence with variable
    names, and none is a register name in any letter case. *)
Theorem mangle_name_injective (a b : string) :
  (mangle_name a = mangle_name b -> a = b)
  /\ in_strs (upper (mangle_name a)) register_names = false.
Proof.
  split; [|apply upper_v_prefix_not_register].
  unfold mangle_name. intros H. now injection H.
Qed.

(** ** Immediates *)

Lemma land_255 (v : Z) : Z.land v 255 = v mod 256.
Proof. change 255 with (Z.ones 8). now rewrite Z.land_ones by lia. Qed.

Lemma land_65535 (v : Z) : Z.land v 65535 = v mod 65536.
Proof. change 65535 with (Z.ones 16). now rewrite Z.land_ones by lia. Qed.

(** X6.  A number literal of any value, negative ones included, is lowered
    to one immediate load whose operand is the value reduced modulo the
    width of the destination: a byte for [A], a word for [HL]. *)
Theorem number_literal_masked ck rt (value : Z) (target : Target)
    (s : GenState) :
  exists n,
    gen_expr ck (NumberLiteral rt value) target s
    = Ok tt (set_output
               (output s
                ++ [match target with
                    | TA => ins "MVI" ("A," +++ str_int n)
                    | THL => ins "LXI" ("H," +++ str_int n)
                    end]) s)
    /\ n = value mod (match target with TA => 256 | THL => 65536 end)
    /\ 0 <= n < (match target with TA => 256 | THL => 65536 end).
Proof.
  destruct target.
  - exists (value mod 256). cbn [gen_expr]. unfold gen_number. cbn [is_A].
    rewrite land_255. repeat split; try reflexivity;
      apply Z.mod_pos_bound; lia.
  - exists (value mod 65536). cbn [gen_expr]. unfold gen_number. cbn [is_A].
    rewrite land_65535. repeat split; try reflexivity;
      apply Z.mod_pos_bound; lia.
Qed.

(** ** Calls with literal arguments *)

Lemma for_each_map {A B} (h : A -> B) (g : B -> M unit) (l : list A) :
  for_each (map h l) g = for_each l (fun x => g (h x)).
Proof. induction l as [|x l IH]; simpl; [reflexivity | now rewrite IH]. Qed.

(** The two lines that push one literal argument. *)
Definition push_literal (v : Z) : list string :=
  [ins "LXI" ("H," +++ str_int (Z.land v 65535)); ins "PUSH" "H"].

Lemma push_literal_run ck rt (v : Z) (s : GenState) :
  eval_and_push ck (NumberLiteral rt v) s
  = Ok tt (set_output (output s ++ push_literal v) s).
Proof.
  unfold eval_and_push. cbn [gen_expr]. unfold gen_number. cbn [is_A].
  rewrite bind_emit. unfold emit, modify. cbn [output set_output].
  unfold push_literal. now rewrite <- app_assoc.
Qed.

Lemma push_literals_run ck rt (vs : list Z) (s : GenState) :
  for_each vs (fun v => eval_and_push ck (NumberLiteral rt v)) s
  = Ok tt (set_output (output s ++ List.concat (map push_literal vs)) s).
Proof.
  revert s. induction vs as [|v vs IH]; intros s;
    cbn [for_each map List.concat].
  - unfold ret. now rewrite app_nil_r, set_output_same.
  - rewrite (bind_run _ _ _ _ _ (push_literal_run ck rt v s)), IH.
    cbn [output set_output]. now rewrite <- app_assoc.
Qed.

(** X7.  A call of a known subroutine with [n] literal arguments, lowered
    for [HL], emits the arguments from the last to the first, each as a
    load and a [PUSH H], then [CALL] with the mangled name, then the
    cleanup for [n] words, and changes nothing but the output. *)
Theorem call_with_literals ck rt rt_f rt_arg (name : string) (vs : list Z)
    (s : GenState) :
  dict_mem name (subroutines ck) = true ->
  gen_expr ck (Call rt (Identifier rt_f name) (map (NumberLiteral rt_arg) vs))
           THL s
  = Ok tt (set_output
             (output s
              ++ List.concat (map push_literal (List.rev vs))
              ++ [ins "CALL" (mangle_sub_name name)]
              ++ map render (cleanup_code (List.length vs))) s).
Proof.
  intros Hf. cbn [gen_expr]. unfold gen_call.
  fold (eval_and_push ck). rewrite gen_call_args_loop.
  rewrite <- map_rev, for_each_map.
  rewrite (bind_run _ _ _ _ _ (push_literals_run ck rt_arg (List.rev vs) s)).
  rewrite Hf, bind_emit.
  rewrite length_map.
  rewrite (bind_run _ _ _ _ _ (call_cleanup_emits _ _)).
  cbn [is_A andb when]. unfold ret. cbn [output set_output].
  rewrite <- !app_assoc. reflexivity.
Qed.

Lemma call_with_literals_witness :
  gen_expr sample_checker
    (Call UINT16 (Identifier TNone "f") (map (NumberLiteral UINT16) [10; 20]))
    THL init_state
  = Ok tt (set_output
             (output init_state
              ++ List.concat (map push_literal (List.rev [10; 20]))
              ++ [ins "CALL" (mangle_sub_name "f")]
              ++ map render (cleanup_code (List.length [10; 20])))
             init_state).
Proof.
  apply (call_with_literals sample_checker UINT16 TNone UINT16 "f" [10; 20]
           init_state).
  reflexivity.
Defined.

(** ** The cleanup after a call, on the stack *)

(** X8.  After a call with at most two arguments the cleanup puts the
    stack pointer back above the pushed words and leaves the return value
    in [HL] untouched. *)
Theorem cleanup_balanced_up_to_two (n : nat) (m : Machine) :
  (n <= 2)%nat -> 0 <= SP m -> SP m + 4 < 65536 ->
  SP (run (cleanup_code n) m) = SP m + 2 * Z.of_nat n
  /\ HL (run (cleanup_code n) m) = HL m
  /\ forall a, stack_word (run (cleanup_code n) m) a = stack_word m a.
Proof.
  intros Hn H0 H1. destruct n as [|[|[|n]]]; try lia;
    unfold cleanup_code, run; cbn [fold_left exec SP HL stack_word];
    unfold wrap16; repeat split; auto; try lia.
  - rewrite Z.mod_small; lia.
  - rewrite (Z.mod_small (SP m + 2)) by lia. rewrite Z.mod_small; lia.
Qed.

Lemma cleanup_balanced_up_to_two_witness :
  let m := mkMachine 1000 7 (fun _ => 0) in
  SP (run (cleanup_code 2) m) = SP m + 2 * Z.of_nat 2
  /\ HL (run (cleanup_code 2) m) = HL m
  /\ forall a, stack_word (run (cleanup_code 2) m) a = stack_word m a.
Proof.
  apply (cleanup_balanced_up_to_two 2 (mkMachine 1000 7 (fun _ => 0)));
    simpl; lia.
Defined.

(** X9.  After a call with three or more arguments the emitted cleanup
    leaves the stack pointer one word above the pushed arguments, and [HL]
    holds the word that lay just above them, not the value it held at the
    return. *)
Theorem cleanup_overshoots_from_three (n : nat) (m : Machine) :
  (3 <= n)%nat -> 0 <= SP m -> SP m + Z.of_nat n * 2 + 2 < 65536 ->
  SP (run (cleanup_code n) m) = SP m + Z.of_nat n * 2 + 2
  /\ HL (run (cleanup_code n) m) = stack_word m (SP m + Z.of_nat n * 2).
Proof.
  intros Hn H0 H1.
  destruct (cleanup_large n m Hn) as [A B]; [lia | lia |].
  rewrite A, B. unfold wrap16. rewrite !Z.mod_small by lia. auto.
Qed.

Lemma cleanup_overshoots_from_three_witness :
  let m := mkMachine 1000 7 (fun a => a) in
  SP (run (cleanup_code 5) m) = SP m + Z.of_nat 5 * 2 + 2
  /\ HL (run (cleanup_code 5) m) = stack_word m (SP m + Z.of_nat 5 * 2).
Proof.
  apply (cleanup_overshoots_from_three 5 (mkMachine 1000 7 (fun a => a)));
    simpl; lia.
Defined.

(** ** Loops *)




(** The state in which the body of a loop is entered: two labels taken,
    both pushed on their stacks, and the start label defined. *)
Definition enter_loop (start finish : string) (s : GenState) : GenState :=
  set_output (output s ++ [start +++ ":"])
    (set_continue_labels (continue_labels s ++ [start])
       (set_break_labels (break_labels s ++ [finish])
          (set_label_counter (label_counter s + 1 + 1) s))).

(** The state in which a loop is left: the closing lines emitted and both
    stacks back to what they were before the loop. *)
Definition leave_loop (start finish : string) (s0 s : GenState) : GenState :=
  set_continue_labels (continue_labels s0)
    (set_break_labels (break_labels s0)
       (set_output (output s ++ [ins "JMP" start; finish +++ ":"]) s)).


Definition loop_then_break : list Stmt :=
  [LoopStmt [ContinueStmt]; AsmStmt [inl "NOP"%string]].


(** After an inner loop the [break] still leaves the outer one. *)
Example break_after_inner_loop :
  output_of (gen_stmt sample_checker 5
               (LoopStmt (loop_then_break ++ [BreakStmt])) init_state)
  = ["LOOP1:"; "LOOP3:"; ins "JMP" "LOOP3"; ins "JMP" "LOOP3"; "ENDL4:";
     ins0 "NOP"; ins "JMP" "ENDL2"; ins "JMP" "LOOP1"; "ENDL2:"]%string.
Proof. vm_compute. reflexivity. Qed.

(** ** Declarations that lower to nothing *)

Lemma gen_var_decl_present ck name rt tn init (s : GenState) v :
  dict_get name (variables s) = Some v ->
  gen_var_decl ck name rt tn init s = Ok tt s.
Proof.
  intros H. unfold gen_var_decl. cbv zeta.
  unfold bind at 1, get_var at 1. now rewrite H.
Qed.

(** X11.  A global that the pre-pass has allocated is not lowered again:
    its declaration in the main program emits nothing, so an initializer
    written on it leaves no code.  The program that only declares such a
    variable, with whatever initializer, is the empty program plus the
    variable's [DS] line. *)
Theorem preallocated_global_initializer_dropped ck (fuel : nat)
    (name : string) rt tn (init : option Expr) (typ : CowType) :
  lookup_var ck name = Some typ ->
  exists out sF,
    generate ck (S fuel) (mkProgram [VarDecl name rt tn init] [])
    = Ok out sF
    /\ output sF
       = header ++ main_intro ++ data_intro
         ++ [mangle_name name +++ ":" +++ TAB +++ "DS" +++ TAB
               +++ str_int (type_size ck typ)]
         ++ outro.
Proof.
  intros H. unfold generate, gen_program.
  rewrite (bind_run _ _ _ _ _ (for_each_emit_lines header init_state)).
  cbn [statements declarations]. unfold allocate_globals.
  cbn [for_each]. rewrite H.
  match goal with
  | |- context [bind ?m _ (set_output ?o init_state)] =>
      assert (A : m (set_output o init_state)
                  = Ok tt (set_variables
                             [(name, mkVariable name typ 0 (type_size ck typ))]
                             (0 + type_size ck typ)
                             (set_output o init_state)))
        by reflexivity;
      rewrite (bind_run _ _ _ _ _ A); clear A
  end.
  rewrite bind_ret, !bind_emit, bind_emit_label.
  match goal with
  | |- context [bind (bind (gen_stmt _ _ _) _) _ ?st] => set (s1 := st)
  end.
  assert (V1 : variables s1
               = [(name, mkVariable name typ 0 (type_size ck typ))])
    by reflexivity.
  assert (S1 : string_literals s1 = []) by reflexivity.
  assert (O1 : output s1 = header ++ main_intro) by reflexivity.
  clearbody s1.
  assert (A : (gen_stmt ck (S fuel) (VarDecl name rt tn init) ;; ret tt) s1
              = Ok tt s1).
  { unfold bind.
    change (gen_stmt ck (S fuel) (VarDecl name rt tn init) s1)
      with (gen_var_decl ck name rt tn init s1).
    rewrite (gen_var_decl_present ck name rt tn init s1
               (mkVariable name typ 0 (type_size ck typ)));
      [reflexivity|].
    rewrite V1. simpl. now rewrite String.eqb_refl. }
  rewrite (bind_run _ _ _ _ _ A). clear A.
  rewrite !bind_emit, bind_emit_label, bind_get.
  rewrite (bind_run _ _ _ _ _ (for_each_emit _ _ _)).
  rewrite (bind_run _ _ _ _ _ (for_each_emit _ _ _)).
  rewrite !bind_emit, bind_get. unfold ret.
  eexists; eexists. split; [reflexivity|].
  cbn [output set_output variables string_literals].
  rewrite V1, S1, O1. cbn [map]. unfold ds_line. cbn [fst snd var_size].
  rewrite <- !app_assoc. reflexivity.
Qed.

Lemma preallocated_global_initializer_dropped_witness :
  exists out sF,
    generate sample_checker (S 0)
      (mkProgram [VarDecl "x" TNone None (Some (NumberLiteral UINT16 5))] [])
    = Ok out sF
    /\ output sF
       = header ++ main_intro ++ data_intro
         ++ [mangle_name "x" +++ ":" +++ TAB +++ "DS" +++ TAB
               +++ str_int (type_size sample_checker UINT16)]
         ++ outro.
Proof.
  apply (preallocated_global_initializer_dropped sample_checker 0 "x" TNone
           None (Some (NumberLiteral UINT16 5)) UINT16).
  reflexivity.
Defined.

(** A global the checker does not know is allocated by its declaration,
    and then its initializer is lowered. *)
Example unknown_global_is_initialized :
  output_of
    (generate sample_checker 1
       (mkProgram [VarDecl "y" TNone None (Some (NumberLiteral UINT16 5))] []))
  = header ++ main_intro ++ [ins "LXI" "H,5"; ins "SHLD" "v_y"]%string
    ++ data_intro ++ [("v_y:" +++ TAB +++ "DS" +++ TAB +++ "2")%string]
    ++ outro.
Proof. vm_compute. reflexivity. Qed.

Lemma queue_nested (ck : TypeChecker) (fuel : nat) (subs : list SubDecl)
    (s : GenState) :
  for_each (map NestedSubStmt subs) (gen_stmt ck (S fuel)) s
  = Ok tt (set_nested_subs (nested_subs s ++ subs) s).
Proof.
  revert s. induction subs as [|d subs IH]; intros s; cbn [map for_each].
  - unfold ret. rewrite app_nil_r. now destruct s.
  - change (gen_stmt ck (S fuel) (NestedSubStmt d))
      with (modify (fun s => set_nested_subs (nested_subs s ++ [d]) s)).
    rewrite bind_modify, IH.
    cbn [nested_subs set_nested_subs set_control]. rewrite <- app_assoc.
    reflexivity.
Qed.

(** X12.  Subroutines nested directly in the main program are queued and
    never drained: whatever their bodies, no line is emitted for them and
    the output is that of the empty program. *)
Theorem toplevel_nested_subs_dropped ck (fuel : nat) (subs : list SubDecl) :
  exists out sF,
    generate ck (S fuel) (mkProgram (map NestedSubStmt subs) []) = Ok out sF
    /\ output sF = header ++ main_intro ++ data_intro ++ outro
    /\ nested_subs sF = subs.
Proof.
  unfold generate, gen_program.
  rewrite (bind_run _ _ _ _ _ (for_each_emit_lines header init_state)).
  cbn [statements declarations].
  assert (G : forall s, allocate_globals ck (map NestedSubStmt subs) s
                        = Ok tt s).
  { unfold allocate_globals. induction subs as [|d l IH]; intros s;
      cbn [map for_each]; [reflexivity|]. rewrite bind_ret. apply IH. }
  rewrite (bind_run _ _ _ _ _ (G _)). cbn [for_each].
  rewrite bind_ret, !bind_emit, bind_emit_label.
  rewrite (bind_run _ _ _ _ _ (queue_nested ck fuel subs _)).
  rewrite !bind_emit, bind_emit_label, bind_get.
  rewrite (bind_run _ _ _ _ _ (for_each_emit _ _ _)).
  rewrite (bind_run _ _ _ _ _ (for_each_emit _ _ _)).
  rewrite !bind_emit, bind_get. unfold ret.
  eexists; eexists. split; [reflexivity|]. split; reflexivity.
Qed.

(** ** Labels of the data segment *)




(** ** Interning a new string *)

(** X14.  Interning a value that is not in the pool takes the next value
    of the label counter for its [STR] label, appends the value after the
    entries present, and leaves the label of every other value, the output
    and the variables as they were; looking the value up afterwards gives
    the label returned. *)
Theorem intern_new_string (value : string) (s : GenState) :
  dict_get value (string_literals s) = None ->
  exists s',
    let label := "STR" +++ str_int (label_counter s + 1) in
    get_string_label value s = Ok label s'
    /\ label_counter s' = label_counter s + 1
    /\ string_literals s' = string_literals s ++ [(value, label)]
    /\ dict_get value (string_literals s') = Some label
    /\ (forall other, other <> value ->
          dict_get other (string_literals s')
          = dict_get other (string_literals s))
    /\ output s' = output s /\ variables s' = variables s.
Proof.
  intros H. unfold get_string_label. rewrite H. cbn [new_label]. cbv zeta.
  cbn [string_literals set_string_literals set_label_counter].
  rewrite dict_get_set_same. eexists. split; [reflexivity|].
  cbn [label_counter string_literals output variables set_string_literals
       set_label_counter].
  split; [reflexivity|]. split; [now apply dict_set_absent|].
  split; [apply dict_get_set_same|].
  split; [|split; reflexivity].
  intros other N. apply dict_get_set_other. congruence.
Qed.

Lemma intern_new_string_witness :
  exists s',
    let label := "STR" +++ str_int (label_counter init_state + 1) in
    get_string_label "hi" init_state = Ok label s'
    /\ label_counter s' = label_counter init_state + 1
    /\ string_literals s' = string_literals init_state ++ [("hi"%string, label)]
    /\ dict_get "hi" (string_literals s') = Some label
    /\ (forall other, other <> "hi"%string ->
          dict_get other (string_literals s')
          = dict_get other (string_literals init_state))
    /\ output s' = output init_state /\ variables s' = variables init_state.
Proof. apply (intern_new_string "hi" init_state). reflexivity. Defined.

(** ** Parameters on entry to a subroutine *)

Definition slot_size (vars : list (string * VariableInfo)) (name : string)
    : Z :=
  match dict_get name vars with Some v => var_size v | None => 0 end.

(** The lines that copy the parameter found [offset] bytes above the stack
    pointer into its slot. *)
Definition param_copy (offset : Z) (name : string) (size : Z) : list string :=
  [ins "LXI" ("H," +++ str_int offset); ins "DAD" "SP"]
  ++ (if size =? 1
      then [ins "MOV" "A,M"; ins "STA" (mangle_name name)]
      else [ins "MOV" "E,M"; ins "INX" "H"; ins "MOV" "D,M"; ins0 "XCHG";
            ins "SHLD" (mangle_name name)]).

Lemma gen_param_copies_from (params : list (string * CowType)) (k : nat)
    (s : GenState) :
  Forall (fun p => dict_get (fst p) (variables s) <> None) params ->
  gen_param_copies params (2 + 2 * Z.of_nat k) s
  = Ok tt (set_output
             (output s
              ++ List.concat
                   (map (fun ip =>
                           param_copy (2 + 2 * Z.of_nat (fst ip))
                                      (fst (snd ip))
                                      (slot_size (variables s) (fst (snd ip))))
                        (combine (seq k (List.length params)) params))) s).
Proof.
  revert k s. induction params as [|[name t] params IH]; intros k s H.
  - cbn. now rewrite app_nil_r, set_output_same.
  - inversion H as [|? ? Hp Hr]; subst. cbn [fst] in Hp.
    cbn [gen_param_copies]. unfold bind at 1, get_var at 1.
    destruct (dict_get name (variables s)) as [v|] eqn:G; [|congruence].
    rewrite !bind_emit.
    assert (St : forall s0,
               ((if var_size v =? 1
                 then emit (ins "MOV" "A,M") ;; emit (ins "STA" (mangle_name name))
                 else load_word ;; emit (ins "SHLD" (mangle_name name))) s0)
               = Ok tt (set_output
                          (output s0
                           ++ (if var_size v =? 1
                               then [ins "MOV" "A,M"; ins "STA" (mangle_name name)]
                               else [ins "MOV" "E,M"; ins "INX" "H";
                                     ins "MOV" "D,M"; ins0 "XCHG";
                                     ins "SHLD" (mangle_name name)])) s0)).
    { intros s0. destruct (var_size v =? 1); unfold load_word;
        unfold bind, emit, modify; cbn [output set_output];
        rewrite <- ?app_assoc; reflexivity. }
    rewrite (bind_run _ _ _ _ _ (St _)).
    replace (2 + 2 * Z.of_nat k + 2) with (2 + 2 * Z.of_nat (S k)) by lia.
    rewrite IH by exact Hr.
    cbn [List.length seq combine map List.concat fst snd output set_output
         variables].
    unfold param_copy at 2. unfold slot_size at 2. rewrite G.
    rewrite <- !app_assoc. reflexivity.
Qed.

(** X15.  When every parameter has its slot in the variable table, the
    prologue copies the parameter of index [k] from [SP + 2 + 2k], above
    the return address, to the slot of its name, a byte or a word
    according to the slot's size, and changes nothing but the output. *)
Theorem param_copies_by_index (params : list (string * CowType))
    (s : GenState) :
  Forall (fun p => dict_get (fst p) (variables s) <> None) params ->
  gen_param_copies params 2 s
  = Ok tt (set_output
             (output s
              ++ List.concat
                   (map (fun ip =>
                           param_copy (2 + 2 * Z.of_nat (fst ip))
                                      (fst (snd ip))
                                      (slot_size (variables s) (fst (snd ip))))
                        (combine (seq 0 (List.length params)) params))) s).
Proof. intros H. exact (gen_param_copies_from params 0 s H). Qed.

Definition state_with_two_params : GenState :=
  set_variables [("a"%string, mkVariable "a" UINT8 0 1);
                 ("b"%string, mkVariable "b" UINT16 1 2)] 3 init_state.

Lemma param_copies_by_index_witness :
  gen_param_copies [("a"%string, UINT8); ("b"%string, UINT16)] 2
                   state_with_two_params
  = Ok tt (set_output
             (output state_with_two_params
              ++ List.concat
                   (map (fun ip =>
                           param_copy (2 + 2 * Z.of_nat (fst ip))
                                      (fst (snd ip))
                                      (slot_size
                                         (variables state_with_two_params)
                                         (fst (snd ip))))
                        (combine (seq 0 2)
                                 [("a"%string, UINT8); ("b"%string, UINT16)])))
             state_with_two_params).
Proof.
  apply (param_copies_by_index [("a"%string, UINT8); ("b"%string, UINT16)]
           state_with_two_params).
  repeat constructor; discriminate.
Defined.

(** ** The shape of [if] and [while] *)

Lemma expr_frame_queue s s' : expr_frame s s' -> queue_size s' = queue_size s.
Proof.
  intros F. unfold queue_size.
  destruct F as [_ [_ [_ [_ [_ [_ [_ [N _]]]]]]]]. now rewrite N.
Qed.

(** X16.  An [if] without [elseif] and [else] takes two label numbers,
    lowers the condition for [A], emits a test that jumps to the [ENDIF]
    label when it is zero, lowers the body from the state this leaves, and
    ends with the definition of that label.  The [ELSE] label takes the
    first number although it is not used. *)
Theorem if_without_else_shape ck (fuel : nat) (cond : Expr)
    (body : list Stmt) (s : GenState) :
  (block_size body + queue_size s <= fuel)%nat ->
  let done := "ENDIF" +++ str_int (label_counter s + 1 + 1) in
  exists sc sb,
    gen_expr ck cond TA (set_label_counter (label_counter s + 1 + 1) s)
    = Ok tt sc
    /\ for_each body (gen_stmt ck fuel)
         (set_output (output sc ++ [ins "ORA" "A"; ins "JZ" done]) sc)
       = Ok tt sb
    /\ gen_stmt ck (S fuel) (IfStmt cond body [] []) s
       = Ok tt (set_output (output sb ++ [done +++ ":"]) sb).
Proof.
  intros Hf done.
  destruct (gen_expr_framed ck cond TA
              (set_label_counter (label_counter s + 1 + 1) s))
    as [sc [Ec Fc]].
  pose proof (expr_frame_queue _ _ Fc) as Qc.
  change (queue_size (set_label_counter (label_counter s + 1 + 1) s))
    with (queue_size s) in Qc.
  destruct (spec_for_each ck fuel stmt_size body (gen_stmt ck fuel)
              (fun x _ => proj1 (gen_total ck fuel) x)
              (set_output (output sc ++ [ins "ORA" "A"; ins "JZ" done]) sc))
    as [[] [sb [Eb _]]].
  { fold (block_size body).
    change (queue_size (set_output (output sc ++ [ins "ORA" "A"; ins "JZ" done])
                                   sc))
      with (queue_size sc). lia. }
  exists sc, sb. split; [exact Ec|]. split; [exact Eb|].
  change (gen_stmt ck (S fuel) (IfStmt cond body [] []))
    with (gen_if ck (gen_stmt ck fuel) cond body [] []).
  unfold gen_if. rewrite !bind_new_label.
  cbn [label_counter set_label_counter]. fold done.
  change (set_label_counter (label_counter s + 1 + 1)
            (set_label_counter (label_counter s + 1) s))
    with (set_label_counter (label_counter s + 1 + 1) s).
  rewrite (bind_run _ _ _ _ _ Ec).
  cbn [nonempty orb when]. rewrite !bind_emit, set_output_app.
  change ([ins "ORA" "A"] ++ [ins "JZ" done])
    with [ins "ORA" "A"; ins "JZ" done].
  rewrite (bind_run _ _ _ _ _ Eb).
  rewrite bind_ret. cbn [gen_elseifs]. rewrite !bind_ret.
  reflexivity.
Qed.

Lemma if_without_else_shape_witness :
  let s := init_state in
  let done := "ENDIF" +++ str_int (label_counter s + 1 + 1) in
  exists sc sb,
    gen_expr sample_checker (NumberLiteral UINT8 1) TA
             (set_label_counter (label_counter s + 1 + 1) s)
    = Ok tt sc
    /\ for_each [ReturnStmt] (gen_stmt sample_checker 1)
         (set_output (output sc ++ [ins "ORA" "A"; ins "JZ" done]) sc)
       = Ok tt sb
    /\ gen_stmt sample_checker (S 1)
                (IfStmt (NumberLiteral UINT8 1) [ReturnStmt] [] []) s
       = Ok tt (set_output (output sb ++ [done +++ ":"]) sb).
Proof.
  apply (if_without_else_shape sample_checker 1 (NumberLiteral UINT8 1)
           [ReturnStmt] init_state).
  vm_compute. repeat constructor.
Defined.

(** X17.  A [while] loop takes two labels, pushes them and defines the
    start label; from there it lowers the condition for [A], emits a test
    that leaves the loop for the end label when it is zero, lowers the
    body, and emits the jump back to the start label and the end label as
    its last line; the label stacks are then as before the loop. *)
Theorem while_shape ck (fuel : nat) (cond : Expr) (body : list Stmt)
    (s : GenState) :
  (block_size body + queue_size s <= fuel)%nat ->
  let start := "WHILE" +++ str_int (label_counter s + 1) in
  let finish := "ENDW" +++ str_int (label_counter s + 1 + 1) in
  exists sc sb,
    gen_expr ck cond TA (enter_loop start finish s) = Ok tt sc
    /\ for_each body (gen_stmt ck fuel)
         (set_output (output sc ++ [ins "ORA" "A"; ins "JZ" finish]) sc)
       = Ok tt sb
    /\ gen_stmt ck (S fuel) (WhileStmt cond body) s
       = Ok tt (leave_loop start finish s sb).
Proof.
  intros Hf start finish.
  destruct (gen_expr_framed ck cond TA (enter_loop start finish s))
    as [sc [Ec Fc]].
  pose proof (expr_frame_queue _ _ Fc) as Qc.
  change (queue_size (enter_loop start finish s)) with (queue_size s) in Qc.
  destruct Fc as [_ [_ [_ [_ [_ [Bc [Cc _]]]]]]].
  cbn [break_labels continue_labels enter_loop set_output set_break_labels
       set_continue_labels set_control set_label_counter] in Bc, Cc.
  destruct (spec_for_each ck fuel stmt_size body (gen_stmt ck fuel)
              (fun x _ => proj1 (gen_total ck fuel) x)
              (set_output (output sc ++ [ins "ORA" "A"; ins "JZ" finish]) sc))
    as [[] [sb [Eb [[_ [Bb Cb]] _]]]].
  { fold (block_size body).
    change (queue_size (set_output
                          (output sc ++ [ins "ORA" "A"; ins "JZ" finish]) sc))
      with (queue_size sc). lia. }
  cbn [break_labels continue_labels set_output] in Bb, Cb.
  exists sc, sb. split; [exact Ec|]. split; [exact Eb|].
  change (gen_stmt ck (S fuel) (WhileStmt cond body))
    with (gen_while ck (gen_stmt ck fuel) cond body).
  unfold gen_while. rewrite !bind_new_label.
  cbn [label_counter set_label_counter]. fold start. fold finish.
  unfold push_break, push_continue. rewrite !bind_modify, bind_emit_label.
  change (bind (gen_expr ck cond TA) ?k ?st)
    with (bind (gen_expr ck cond TA) k (enter_loop start finish s)).
  rewrite (bind_run _ _ _ _ _ Ec), !bind_emit, set_output_app.
  change ([ins "ORA" "A"] ++ [ins "JZ" finish])
    with [ins "ORA" "A"; ins "JZ" finish].
  rewrite (bind_run _ _ _ _ _ Eb), bind_emit, bind_emit_label, set_output_app.
  change ([ins "JMP" start] ++ [finish +++ ":"])
    with [ins "JMP" start; finish +++ ":"].
  rewrite (bind_run _ _ _ _ _
             (pop_break_last
                (set_output (output sb ++ [ins "JMP" start; finish +++ ":"])
                            sb)
                (break_labels s) finish (eq_trans Bb Bc))).
  rewrite (pop_continue_last _ (continue_labels s) start)
    by (exact (eq_trans Cb Cc)).
  reflexivity.
Qed.

Lemma while_shape_witness :
  let s := init_state in
  let start := "WHILE" +++ str_int (label_counter s + 1) in
  let finish := "ENDW" +++ str_int (label_counter s + 1 + 1) in
  exists sc sb,
    gen_expr sample_checker (NumberLiteral UINT8 1) TA
             (enter_loop start finish s) = Ok tt sc
    /\ for_each [BreakStmt] (gen_stmt sample_checker 1)
         (set_output (output sc ++ [ins "ORA" "A"; ins "JZ" finish]) sc)
       = Ok tt sb
    /\ gen_stmt sample_checker (S 1)
                (WhileStmt (NumberLiteral UINT8 1) [BreakStmt]) s
       = Ok tt (leave_loop start finish s sb).
Proof.
  apply (while_shape sample_checker 1 (NumberLiteral UINT8 1) [BreakStmt]
           init_state).
  vm_compute. repeat constructor.
Defined.

(** ** Array initializers *)

(** The lines that store [HL] to [dest] at the given width. *)
Definition store_lines (size : Z) (dest : string) : list string :=
  if size =? 1 then [ins "MOV" "A,L"; ins "STA" dest]
  else [ins "SHLD" dest].

Lemma store_to_run (size : Z) (dest : string) (s : GenState) :
  store_to size dest s
  = Ok tt (set_output (output s ++ store_lines size dest) s).
Proof.
  unfold store_to, store_lines. destruct (size =? 1); [|reflexivity].
  rewrite bind_emit. unfold emit, modify. cbn [output set_output].
  now rewrite <- app_assoc.
Qed.

(** The lines for the literal element [v] of index [i]. *)
Definition init_element (mangled : string) (elem_size : Z) (iv : nat * Z)
    : list string :=
  ins "LXI" ("H," +++ str_int (Z.land (snd iv) 65535))
  :: store_lines elem_size
       (mangled +++ "+" +++ str_int (Z.of_nat (fst iv) * elem_size)).

Lemma gen_array_init_loop_literals ck rt (mangled : string) (elem_size : Z)
    (vs : list Z) (k : nat) (s : GenState) :
  gen_array_init_loop ck mangled elem_size (map (NumberLiteral rt) vs)
                      (Z.of_nat k * elem_size) s
  = Ok tt (set_output
             (output s
              ++ List.concat (map (init_element mangled elem_size)
                                  (combine (seq k (List.length vs)) vs))) s).
Proof.
  revert k s. induction vs as [|v vs IH]; intros k s.
  - cbn. now rewrite app_nil_r, set_output_same.
  - cbn [map gen_array_init_loop gen_expr]. unfold gen_number. cbn [is_A].
    rewrite bind_emit.
    rewrite (bind_run _ _ _ _ _ (store_to_run _ _ _)).
    replace (Z.of_nat k * elem_size + elem_size)
      with (Z.of_nat (S k) * elem_size) by (rewrite Nat2Z.inj_succ; ring).
    rewrite IH.
    cbn [List.length seq combine map List.concat output set_output].
    unfold init_element at 2. cbn [fst snd].
    rewrite <- !app_assoc. reflexivity.
Qed.

(** X18.  An array initializer of literals stores the element of index
    [i] at the array's label plus [i] times the element size, a byte store
    for one-byte elements and a word store otherwise; the element size is
    that of the declared array type, and one byte when the variable's type
    is not an array type. *)
Theorem array_init_successive_offsets ck rt (var : VariableInfo)
    (vs : list Z) (s : GenState) :
  let elem_size := match var_type var with
                   | ArrayType element _ => type_size ck element
                   | _ => 1
                   end in
  gen_array_init ck var (map (NumberLiteral rt) vs) s
  = Ok tt (set_output
             (output s
              ++ List.concat
                   (map (init_element (mangle_name (var_name var)) elem_size)
                        (combine (seq 0 (List.length vs)) vs))) s).
Proof.
  intros elem_size. unfold gen_array_init. fold elem_size.
  exact (gen_array_init_loop_literals ck rt _ elem_size vs 0 s).
Qed.

(** [var t: uint16[2] := {7, 9};] for a variable the checker does not
    list as a global. *)
Example array_init_of_two_words :
  output_of
    (gen_stmt sample_checker 1
       (VarDecl "t" (ArrayType UINT16 2) None
                (Some (ArrayInitializer TNone
                         [NumberLiteral UINT16 7; NumberLiteral UINT16 9])))
       init_state)
  = [ins "LXI" "H,7"; ins "SHLD" "v_t+0";
     ins "LXI" "H,9"; ins "SHLD" "v_t+2"]%string.
Proof. vm_compute. reflexivity. Qed.

(** ** Assignment to a name without storage *)

(** X19.  An assignment whose target is an identifier absent from the
    variable table evaluates the right-hand side and stores nothing: the
    statement ends in the state the evaluation ends in. *)
Theorem assignment_to_unknown_name ck (fuel : nat) rt (name : string)
    (value : Expr) (s : GenState) :
  dict_get name (variables s) = None ->
  exists s',
    gen_expr ck value THL s = Ok tt s'
    /\ gen_stmt ck (S fuel) (Assignment (Identifier rt name) value) s
       = Ok tt s'.
Proof.
  intros H. destruct (gen_expr_framed ck value THL s) as [s' [E F]].
  exists s'. split; [exact E|].
  change (gen_stmt ck (S fuel) (Assignment (Identifier rt name) value))
    with (gen_assignment ck (Identifier rt name) value).
  unfold gen_assignment. rewrite (bind_run _ _ _ _ _ E).
  unfold bind, get_var.
  destruct F as [_ [_ [V _]]]. now rewrite V, H.
Qed.

Lemma assignment_to_unknown_name_witness :
  exists s',
    gen_expr sample_checker (NumberLiteral UINT16 3) THL init_state = Ok tt s'
    /\ gen_stmt sample_checker (S 0)
                (Assignment (Identifier UINT16 "nowhere")
                            (NumberLiteral UINT16 3)) init_state
       = Ok tt s'.
Proof.
  apply (assignment_to_unknown_name sample_checker 0 UINT16 "nowhere"
           (NumberLiteral UINT16 3) init_state).
  reflexivity.
Defined.

(** ** Record fields *)

(** The lines that add a field's offset to the record address in [HL]. *)
Definition offset_lines (fields : list RecordFieldInfo) (field : string)
    : list string :=
  match find (fun f => String.eqb (field_name f) field) fields with
  | Some f =>
      if field_offset f >? 0
      then [ins "LXI" ("D," +++ str_int (field_offset f)); ins "DAD" "D"]
      else []
  | None => []
  end.

(** X20.  The field offset added to a record address is that of the first
    field of the record with the requested name.  A field at offset zero,
    or a name the record does not have, adds no instruction; a positive
    offset adds the pair [LXI D,offset] and [DAD D]. *)
Theorem field_offset_first_match (fields : list RecordFieldInfo)
    (field : string) (s : GenState) :
  add_field_offset fields field s
  = Ok tt (set_output (output s ++ offset_lines fields field) s).
Proof.
  unfold offset_lines. induction fields as [|f fields IH];
    cbn [add_field_offset find].
  - unfold ret. now rewrite app_nil_r, set_output_same.
  - destruct (String.eqb (field_name f) field); [|exact IH].
    destruct (field_offset f >? 0); cbn [when].
    + rewrite bind_emit. unfold emit, modify. cbn [output set_output].
      now rewrite <- app_assoc.
    + unfold ret. now rewrite app_nil_r, set_output_same.
Qed.

(** ** Short-circuit [and] *)

(** X21.  A logical [and] takes its two labels, lowers the left operand
    for [A] and emits a jump to the [FALSE] label when it is zero; only
    from the state this leaves does it lower the right operand, with the
    same test, so the code of the right operand lies behind the first
    jump; the tail sets [A] to one, or to zero at the [FALSE] label, and
    ends with the [END] label. *)
Theorem logical_and_shape ck rt (lhs rhs : Expr) (s : GenState) :
  let no := "FALSE" +++ str_int (label_counter s + 1) in
  let done := "END" +++ str_int (label_counter s + 1 + 1) in
  exists sl sr,
    gen_expr ck lhs TA (set_label_counter (label_counter s + 1 + 1) s)
    = Ok tt sl
    /\ gen_expr ck rhs TA
         (set_output (output sl ++ [ins "ORA" "A"; ins "JZ" no]) sl)
       = Ok tt sr
    /\ gen_expr ck (LogicalOp rt "and" lhs rhs) TA s
       = Ok tt (set_output
                  (output sr ++ [ins "ORA" "A"; ins "JZ" no; ins "MVI" "A,1";
                                 ins "JMP" done; no +++ ":"; ins "XRA" "A";
                                 done +++ ":"]) sr).
Proof.
  intros no done.
  destruct (gen_expr_framed ck lhs TA
              (set_label_counter (label_counter s + 1 + 1) s))
    as [sl [El _]].
  destruct (gen_expr_framed ck rhs TA
              (set_output (output sl ++ [ins "ORA" "A"; ins "JZ" no]) sl))
    as [sr [Er _]].
  exists sl, sr. split; [exact El|]. split; [exact Er|].
  cbn [gen_expr]. unfold gen_logical.
  change (String.eqb "and" "and") with true. cbv iota.
  unfold bind at 1. rewrite !bind_new_label.
  cbn [label_counter set_label_counter]. fold no. fold done.
  change (set_label_counter (label_counter s + 1 + 1)
            (set_label_counter (label_counter s + 1) s))
    with (set_label_counter (label_counter s + 1 + 1) s).
  rewrite (bind_run _ _ _ _ _ El), !bind_emit, set_output_app.
  change ([ins "ORA" "A"] ++ [ins "JZ" no])
    with [ins "ORA" "A"; ins "JZ" no].
  rewrite (bind_run _ _ _ _ _ Er), !bind_emit, bind_emit_label, bind_emit.
  unfold emit_label, modify. cbn [widen_if_HL is_HL when]. unfold ret.
  rewrite !set_output_app. reflexivity.
Qed.

(** ** Inline assembly *)

(** The parts of a line, each behind its separator. *)
Fixpoint interleave (seps parts : list string) : string :=
  match seps, parts with
  | sep :: seps', part :: parts' => sep +++ part +++ interleave seps' parts'
  | _, _ => EmptyString
  end.

Lemma string_append_nil_r (a : string) : a +++ EmptyString = a.
Proof. induction a as [|c a IH]; simpl; [reflexivity | now rewrite IH]. Qed.

Lemma asm_join_interleaves (parts : list string) (i : nat) (acc : string) :
  exists seps,
    List.length seps = List.length parts
    /\ Forall (fun sep => sep = EmptyString \/ sep = TAB) seps
    /\ asm_join i parts acc = acc +++ interleave seps parts.
Proof.
  revert i acc. induction parts as [|part parts IH]; intros i acc.
  - exists []. cbn. rewrite string_append_nil_r. auto.
  - cbn [asm_join].
    match goal with
    | |- context [asm_join _ _ ((if ?b then _ else _) +++ _)] => destruct b
    end.
    + destruct (IH (S i) ((acc +++ TAB) +++ part)) as [seps [L [F E]]].
      exists (TAB :: seps). cbn [List.length interleave].
      split; [now rewrite L|]. split; [constructor; auto|].
      rewrite E, !string_append_assoc. reflexivity.
    + destruct (IH (S i) (acc +++ part)) as [seps [L [F E]]].
      exists (EmptyString :: seps). cbn [List.length interleave].
      split; [now rewrite L|]. split; [constructor; auto|].
      rewrite E, !string_append_assoc. reflexivity.
Qed.

(** X22.  An inline assembly statement emits exactly one line: a tab, then
    the texts of its parts in their order, unchanged, with nothing between
    two parts or a single tab.  Nothing else in the state changes. *)
Theorem gen_asm_one_line ck (parts : list (string + Expr)) (s : GenState) :
  exists seps,
    List.length seps = List.length parts
    /\ Forall (fun sep => sep = EmptyString \/ sep = TAB) seps
    /\ gen_asm ck parts s
       = Ok tt (set_output
                  (output s
                   ++ [TAB +++ interleave seps (map (asm_part ck) parts)]) s).
Proof.
  destruct (asm_join_interleaves (map (asm_part ck) parts) 0 EmptyString)
    as [seps [L [F E]]].
  exists seps. rewrite length_map in L. split; [exact L|]. split; [exact F|].
  unfold gen_asm. now rewrite E.
Qed.

(** [MVI] and its operands given as two parts get the tab. *)
Example asm_two_parts :
  output_of (gen_stmt sample_checker 1
               (AsmStmt [inl "MVI"%string; inl "A,1"%string]) init_state)
  = [ins "MVI" "A,1"].
Proof. vm_compute. reflexivity. Qed.

(** ** The frame of a subroutine *)

(** X23.  A subroutine with a body is lowered as its heading (a blank
    line, the comment naming it, the [PUBLIC] line and label of an extern
    alias, the entry label that is the mangled name), then its code (the
    slots of parameters and returns, the parameter copies, the body and
    the load of the return value), then [RET], and only then the nested
    subroutines that are waiting in the queue at that point, in order.
    When it returns no nested subroutine is left waiting, and
    [current_sub] is [None] even when the subroutine was itself nested. *)
Theorem sub_entry_and_return ck (fuel : nat) (name : string)
    (ext : option string) (params returns : list (string * TypeExpr))
    (body : list Stmt) (s : GenState) :
  (block_size body + queue_size s <= fuel)%nat ->
  let d := mkSubDecl name ext params returns (Some body) in
  exists s6 s8,
    sub_code ck (gen_stmt ck fuel) (fst (sub_signature ck d))
             (snd (sub_signature ck d)) body (enter_sub d s) = Ok tt s6
    /\ for_each (nested_subs s6) (gen_sub ck fuel)
         (set_nested_subs [] (set_output (output s6 ++ [ins0 "RET"]) s6))
       = Ok tt s8
    /\ gen_sub ck (S fuel) d s = Ok tt (set_current_sub None s8)
    /\ nested_subs s8 = [].
Proof.
  intros Hf d.
  destruct (gen_sub_until_ret ck fuel name ext params returns body s Hf)
    as [s6 [E6 [E7 Q6]]].
  fold d in E6, E7.
  set (s7 := set_output (output s6 ++ [ins0 "RET"]) s6) in *.
  assert (N7 : nested_subs s7 = nested_subs s6) by reflexivity.
  exists s6.
  destruct (nested_subs s6) as [|x q] eqn:N6.
  - exists s7. split; [exact E6|]. split; [|split; [|exact N7]].
    + fold s7. rewrite (set_nested_subs_same s7 N7). reflexivity.
    + rewrite E7. unfold drain_and_leave. rewrite bind_get, N7. reflexivity.
  - destruct (spec_for_each ck fuel sub_size (x :: q) (gen_sub ck fuel)
                (fun y _ => proj2 (gen_total ck fuel) y)
                (set_nested_subs [] s7)) as [[] [s8 [E8 _]]].
    { unfold queue_size in Q6. rewrite N6 in Q6.
      change (queue_size (set_nested_subs [] s7)) with 0%nat. simpl in *. lia. }
    exists s8. split; [exact E6|]. split; [exact E8|].
    split.
    + rewrite E7. unfold drain_and_leave. rewrite bind_get, N7.
      cbn [nonempty when]. unfold bind at 1. rewrite bind_modify, E8.
      reflexivity.
    + apply (for_each_drained ck fuel (x :: q) (gen_sub_drains ck fuel)
               (set_nested_subs [] s7) s8); [reflexivity| |exact E8].
      unfold queue_size in Q6. now rewrite N6 in Q6.
Qed.

Definition sub_with_extern : SubDecl :=
  mkSubDecl "f" (Some "ext_f"%string) [] []
            (Some [NestedSubStmt (mkSubDecl "g" None [] [] (Some []))]).

Lemma sub_entry_and_return_witness :
  let d := sub_with_extern in
  exists s6 s8,
    sub_code sample_checker (gen_stmt sample_checker 4)
             (fst (sub_signature sample_checker d))
             (snd (sub_signature sample_checker d))
             [NestedSubStmt (mkSubDecl "g" None [] [] (Some []))]
             (enter_sub d init_state) = Ok tt s6
    /\ for_each (nested_subs s6) (gen_sub sample_checker 4)
         (set_nested_subs [] (set_output (output s6 ++ [ins0 "RET"]) s6))
       = Ok tt s8
    /\ gen_sub sample_checker (S 4) d init_state
       = Ok tt (set_current_sub None s8)
    /\ nested_subs s8 = [].
Proof.
  apply (sub_entry_and_return sample_checker 4 "f" (Some "ext_f"%string)
           [] [] [NestedSubStmt (mkSubDecl "g" None [] [] (Some []))]
           init_state).
  vm_compute. repeat constructor.
Defined.

(** The subroutine above: the checker knows [f] and its slots [a] and [r];
    [g] follows the [RET] of [f]. *)
Example sub_with_extern_output :
  output_of (gen_sub sample_checker 5 sub_with_extern init_state)
  = [EmptyString; "; Subroutine f"; ins "PUBLIC" "ext_f"; "ext_f:"; "f:";
     ins "LXI" "H,2"; ins "DAD" "SP"; ins "MOV" "E,M"; ins "INX" "H";
     ins "MOV" "D,M"; ins0 "XCHG"; ins "SHLD" "v_a";
     ins "LHLD" "v_r"; ins0 "RET";
     EmptyString; "; Subroutine g"; "g:"; ins0 "RET"]%string.
Proof. vm_compute. reflexivity. Qed.

(** A subroutine nested in another is emitted behind the [RET] of the
    enclosing one. *)
Example nested_sub_after_ret :
  output_of
    (gen_sub sample_checker 3
       (mkSubDecl "outer" None [] []
          (Some [NestedSubStmt (mkSubDecl "inner" None [] [] (Some []))]))
       init_state)
  = [EmptyString; "; Subroutine outer"; "outer:"; ins0 "RET";
     EmptyString; "; Subroutine inner"; "inner:"; ins0 "RET"]%string.
Proof. vm_compute. reflexivity. Qed.
